(** * StackLang: a shallow embedding of the stack-language interpreter

    The development follows [src/StackLang.ts] (the generator-based
    interpreter with its [Vm] class and the [StackLang] driver) and the
    [serializeValue] helper of the visualiser.

    - JavaScript numbers are IEEE-754 binary64 values; they are modelled by
      the Standard Library's [spec_float] at precision 53 and maximal
      exponent 1024, with its reference operations [SFadd], [SFsub],
      [SFmul], [SFdiv] and [SFcompare].
    - JavaScript strings are modelled as [string]s (sequences of 8-bit code
      units).
    - A scope (a plain JavaScript object used as a dictionary) is a
      [gmap string Value] of its own properties; a property read that misses
      falls through to [Object.prototype], see [scope_get].
    - A generator is modelled by the list of events it yields together with
      the way it ends: normally, by a thrown error, or by exhausting the
      recursion budget of the model. *)

From Stdlib Require Import ZArith Ascii String List Lia.
From Stdlib Require Import Floats.SpecFloat.
From stdpp Require Import base option list gmap strings.

Set Warnings "-register-all".
Local Open Scope string_scope.
Local Open Scope list_scope.

(** ** Numbers *)

Module Js.

Local Open Scope Z_scope.

(** Binary64. *)
Definition prec : Z := 53.
Definition emax : Z := 1024.

Definition number : Type := spec_float.

Definition num_add : number → number → number := SFadd prec emax.
Definition num_sub : number → number → number := SFsub prec emax.
Definition num_mul : number → number → number := SFmul prec emax.
Definition num_div : number → number → number := SFdiv prec emax.
(** [a < b] *)
Definition num_lt : number → number → bool := SFltb.
(** [a !== b] on numbers *)
Definition num_neq (a b : number) : bool := negb (SFeqb a b).
(** [Number.isNaN] *)
Definition isNaN (x : number) : bool :=
  match x with S754_nan => true | _ => false end.

Definition NaN : number := S754_nan.
Definition Infinity : number := S754_infinity false.
Definition pos_zero : number := S754_zero false.

(** The Number value of the integer [z]. *)
Definition of_Z (z : Z) : number := binary_normalize prec emax z 0 false.

(** The Number value nearest to [(-1)^neg * m * 10^e10] for [0 <= m],
    ties to even: the rounding that turns the mathematical value of a
    decimal literal into a Number.  (For a literal of more than twenty
    significant digits the language specification also accepts the rounding
    of its twenty-digit truncation; engines round the exact value, as
    here.) *)
Definition decimal_to_number (neg : bool) (m : Z) (e10 : Z) : number :=
  if m =? 0 then S754_zero neg
  else if 0 <=? e10 then
    binary_normalize prec emax (cond_Zopp neg (m * 10 ^ e10)) 0 neg
  else
    let d := 10 ^ (- e10) in
    let s := Z.max 0 (prec + 2 + Zdigits2 d - Zdigits2 m) in
    let '(q, r) := Z.div_eucl (Z.shiftl m s) d in
    binary_round_aux prec emax neg q (- s) (new_location d r).

(** *** Scanning a decimal literal *)

Definition is_digit (c : ascii) : bool :=
  let n := N_of_ascii c in ((48 <=? n) && (n <=? 57))%N.

Definition digit_value (c : ascii) : Z := Z.of_N (N_of_ascii c) - 48.

(** StrWhiteSpaceChar, as far as 8-bit code units reach: TAB, LF, VT, FF,
    CR, SP and NBSP. *)
Definition is_white_space (c : ascii) : bool :=
  let n := N_of_ascii c in
  ((9 <=? n) && (n <=? 13) || (n =? 32) || (n =? 160))%N.

Fixpoint trim_start (s : string) : string :=
  match s with
  | String c s' => if is_white_space c then trim_start s' else s
  | EmptyString => s
  end.

(** The longest run of decimal digits at the start of [s], and what
    follows it. *)
Fixpoint span_digits (s : string) : string * string :=
  match s with
  | String c s' =>
      if is_digit c then let '(ds, r) := span_digits s' in (String c ds, r)
      else (EmptyString, s)
  | EmptyString => (EmptyString, EmptyString)
  end.

(** The value of a run of digits, most significant first. *)
Fixpoint digits_value (acc : Z) (ds : string) : Z :=
  match ds with
  | String c ds' => digits_value (10 * acc + digit_value c) ds'
  | EmptyString => acc
  end.

Definition starts_with (p s : string) : bool := String.prefix p s.

Fixpoint drop_chars (n : nat) (s : string) : string :=
  match n, s with
  | S n', String _ s' => drop_chars n' s'
  | _, _ => s
  end.

(** An optional sign. *)
Definition scan_sign (s : string) : bool * string :=
  match s with
  | String "+" r => (false, r)
  | String "-" r => (true, r)
  | _ => (false, s)
  end.

(** ExponentPart(opt): [e] or [E], an optional sign, at least one digit.
    When no well-formed exponent is there, nothing is consumed. *)
Definition scan_exponent (s : string) : Z * string :=
  match s with
  | String c s1 =>
      if (Ascii.eqb c "e" || Ascii.eqb c "E")%bool then
        let '(neg, s2) := scan_sign s1 in
        let '(ds, r) := span_digits s2 in
        match ds with
        | EmptyString => (0, s)
        | _ => (cond_Zopp neg (digits_value 0 ds), r)
        end
      else (0, s)
  | EmptyString => (0, s)
  end.

(** What a StrUnsignedDecimalLiteral denotes. *)
Inductive unsigned_literal : Type :=
| LitInfinity
| LitDecimal (mantissa : Z) (exp10 : Z).

(** The longest prefix of [s] that is a StrUnsignedDecimalLiteral, with
    the characters after it; [None] when no prefix is one. *)
Definition scan_unsigned (s : string) : option (unsigned_literal * string) :=
  if starts_with "Infinity" s then Some (LitInfinity, drop_chars 8 s)
  else
    let '(ip, s1) := span_digits s in
    match s1 with
    | String "." s2 =>
        let '(fp, s3) := span_digits s2 in
        match ip, fp with
        | EmptyString, EmptyString => None
        | _, _ =>
            let '(e, r) := scan_exponent s3 in
            Some (LitDecimal (digits_value 0 (ip +:+ fp))
                             (e - Z.of_nat (String.length fp)), r)
        end
    | _ =>
        match ip with
        | EmptyString => None
        | _ =>
            let '(e, r) := scan_exponent s1 in
            Some (LitDecimal (digits_value 0 ip) e, r)
        end
    end.

Definition literal_value (neg : bool) (l : unsigned_literal) : number :=
  match l with
  | LitInfinity => S754_infinity neg
  | LitDecimal m e => decimal_to_number neg m e
  end.

(** [Number.parseFloat]: skip leading white space, read the longest
    prefix that is a StrDecimalLiteral, ignore whatever follows; [NaN]
    when there is no such prefix. *)
Definition parseFloat (s : string) : number :=
  let '(neg, u) := scan_sign (trim_start s) in
  match scan_unsigned u with
  | Some (l, _) => literal_value neg l
  | None => NaN
  end.

End Js.

(** ** Values, machine state and events *)

(** The built-in operations.  In the source a [Native] value carries the
    bound method itself; the methods are a fixed set, so the value carries
    the name of the method instead. *)
Inductive NativeFn : Type :=
| FnAdd | FnSub | FnMul | FnDiv | FnLt | FnIf | FnDef | FnExch | FnPuts.

(** [Value] of the source, kind by kind.  [ProtoMember key] stands for what
    a property read on a scope object yields when [key] is no property of
    the scope itself but one of [Object.prototype]: a JavaScript function or
    object that has no [kind] field. *)
Inductive Value : Type :=
| Num (num : Js.number)
| Operator (op : string)
| Symbol (sym : string)
| Block (values : list Value)
| Native (fn : NativeFn)
| ProtoMember (key : string).

Record VmState : Type := mkState {
  stack : list Value;                    (* bottom first, top last *)
  vars : list (gmap string Value);       (* base scope first *)
  blocks : list (list Value)             (* oldest open block first *)
}.

Inductive VmEvent : Type :=
| StateEvent (state : VmState)
| PutsEvent (value : Value)
| StackPopEvent (state : VmState) (value : Value).

(** The [Error]s the machine throws, one constructor per message. *)
Inductive VmError : Type :=
| StackPopError                    (* Stack pop error *)
| BlockStackUnderflow              (* Block stack underflow *)
| NotDefined (op : string)         (* <op> is not a defined operation *)
| ExpectNumNum (opname : string)   (* Expect Num Num <opname>, (...) *)
| ExpectBlock                      (* Expect block (...) *)
| ExpectNum                        (* Expect num (...) *)
| ExpectValue                      (* Expect value but got undefined *)
| ExpectSymbol                     (* Expect symbol (...) *)
| StackUnderRun                    (* stack under-run *)
| JsTypeError.                     (* a property access on undefined *)

(** ** Generators

    A generator run from a state yields events and then ends: it returns a
    result and a state, it throws, or the model's recursion budget is used
    up (the machine is still running).  An event holds the state object of
    the machine; what an observer reads from it when the event is delivered
    is the state at the moment of the [yield], which is what is recorded. *)
Inductive Completion (A : Type) : Type :=
| Returned (a : A) (s : VmState)
| Thrown (e : VmError)
| OutOfFuel.
Arguments Returned {A} a s.
Arguments Thrown {A} e.
Arguments OutOfFuel {A}.

Definition Gen (A : Type) : Type := VmState → list VmEvent * Completion A.

Definition gen_ret {A} (a : A) : Gen A := λ s, ([], Returned a s).

Definition gen_bind {A B} (m : Gen A) (f : A → Gen B) : Gen B :=
  λ s, match m s with
       | (evs, Returned a s') => let '(evs', c) := f a s' in (evs ++ evs', c)
       | (evs, Thrown e) => (evs, Thrown e)
       | (evs, OutOfFuel) => (evs, OutOfFuel)
       end.

Global Instance gen_mret : MRet Gen := @gen_ret.
Global Instance gen_mbind : MBind Gen := λ A B f m, gen_bind m f.

Definition throw {A} (e : VmError) : Gen A := λ _, ([], Thrown e).
Definition out_of_fuel {A} : Gen A := λ _, ([], OutOfFuel).
Definition get_state : Gen VmState := λ s, ([], Returned s s).
Definition yield (e : VmState → VmEvent) : Gen unit := λ s, ([e s], Returned tt s).

(** [for (const v of values) yield* f(v)] *)
Fixpoint for_each {A} (f : A → Gen unit) (values : list A) : Gen unit :=
  match values with
  | [] => gen_ret tt
  | v :: vs => f v ;; for_each f vs
  end.

(** ** Arrays and scope objects *)

(** [Array.prototype.pop]: the last element and the array without it. *)
Fixpoint array_pop {A} (l : list A) : option (list A * A) :=
  match l with
  | [] => None
  | x :: l' =>
      match array_pop l' with
      | None => Some ([], x)
      | Some (r, y) => Some (x :: r, y)
      end
  end.

(** The names every plain object inherits from [Object.prototype]. *)
Definition object_prototype_keys : list string :=
  [ "constructor"; "__defineGetter__"; "__defineSetter__"; "hasOwnProperty";
    "__lookupGetter__"; "__lookupSetter__"; "isPrototypeOf";
    "propertyIsEnumerable"; "toString"; "valueOf"; "__proto__";
    "toLocaleString" ].

Definition inherited (key : string) : bool :=
  bool_decide (key ∈ object_prototype_keys).

(** [varMap[word]]: [None] is [undefined]. *)
Definition scope_get (varMap : gmap string Value) (word : string) : option Value :=
  match varMap !! word with
  | Some v => Some v
  | None => if inherited word then Some (ProtoMember word) else None
  end.

(** [varMap[word] ??= value] *)
Definition scope_define (varMap : gmap string Value) (word : string) (value : Value)
  : gmap string Value :=
  match scope_get varMap word with
  | Some _ => varMap
  | None => <[word := value]> varMap
  end.

(** ** The machine *)

(** The base scope a [Vm] is created with. *)
Definition native_scope : gmap string Value :=
  <["+" := Native FnAdd]> (<["-" := Native FnSub]> (<["*" := Native FnMul]>
  (<["/" := Native FnDiv]> (<["<" := Native FnLt]> (<["if" := Native FnIf]>
  (<["def" := Native FnDef]> (<["exch" := Native FnExch]>
  (<["puts" := Native FnPuts]> ∅)))))))).

Definition initial_state : VmState :=
  {| stack := []; vars := [native_scope]; blocks := [] |}.

(** [this.stateEvent()] *)
Definition stateEvent : VmState → VmEvent := StateEvent.

(** [this.stackPopEvent(value)]: the event, or the error thrown when the
    value is [undefined]. *)
Definition stackPopEvent (value : option Value) (s : VmState) : VmError + VmEvent :=
  match value with
  | None => inl StackPopError
  | Some v => inr (StackPopEvent s v)
  end.

(** [yield this.stackPopEvent(value)] *)
Definition yield_stackPopEvent (value : option Value) : Gen unit :=
  λ s, match stackPopEvent value s with
       | inl e => ([], Thrown e)
       | inr event => ([event], Returned tt s)
       end.

(** [this.state.stack.pop()] *)
Definition stack_pop : Gen (option Value) :=
  λ s, match array_pop (stack s) with
       | Some (rest, v) =>
           ([], Returned (Some v) {| stack := rest; vars := vars s; blocks := blocks s |})
       | None => ([], Returned None s)
       end.

(** [this.state.stack.push(value)] *)
Definition stack_push (value : Value) : Gen unit :=
  λ s, ([], Returned tt {| stack := stack s ++ [value]; vars := vars s; blocks := blocks s |}).

(** [this.state.vars.push({})] *)
Definition vars_push : Gen unit :=
  λ s, ([], Returned tt {| stack := stack s; vars := vars s ++ [∅]; blocks := blocks s |}).

(** [this.state.vars.pop()] *)
Definition vars_pop : Gen unit :=
  λ s, match array_pop (vars s) with
       | Some (rest, _) =>
           ([], Returned tt {| stack := stack s; vars := rest; blocks := blocks s |})
       | None => ([], Returned tt s)
       end.

(** [this.state.vars.at(-1)![sym] ??= value] *)
Definition vars_define (sym : string) (value : Value) : Gen unit :=
  λ s, match array_pop (vars s) with
       | Some (rest, top) =>
           ([], Returned tt {| stack := stack s;
                               vars := rest ++ [scope_define top sym value];
                               blocks := blocks s |})
       | None => ([], Thrown JsTypeError)
       end.

(** [this.state.blocks.push([])] *)
Definition blocks_push : Gen unit :=
  λ s, ([], Returned tt {| stack := stack s; vars := vars s; blocks := blocks s ++ [[]] |}).

(** [this.state.blocks.pop()] *)
Definition blocks_pop : Gen (option (list Value)) :=
  λ s, match array_pop (blocks s) with
       | Some (rest, values) =>
           ([], Returned (Some values) {| stack := stack s; vars := vars s; blocks := rest |})
       | None => ([], Returned None s)
       end.

(** [this.state.blocks.at(-1)!.push(code)] *)
Definition blocks_append (code : Value) : Gen unit :=
  λ s, match array_pop (blocks s) with
       | Some (rest, values) =>
           ([], Returned tt {| stack := stack s; vars := vars s;
                               blocks := rest ++ [values ++ [code]] |})
       | None => ([], Thrown JsTypeError)
       end.

(** [findVar]: the scopes innermost first, the bindings of [word] they
    give, and the first of these. *)
Definition findVar (word : string) (scopes : list (gmap string Value)) : option Value :=
  head (reverse scopes ≫= λ varMap, option_list (scope_get varMap word)).

(** The shared shape of [add], [sub], [mul], [div] and [lt]: [opname] is
    the operator the error message names. *)
Definition binary_native (opname : string) (f : Js.number → Js.number → Js.number)
  : Gen unit :=
  right ← stack_pop;
  yield_stackPopEvent right ;;
  left ← stack_pop;
  yield_stackPopEvent left ;;
  match right, left with
  | Some (Num r), Some (Num l) =>
      stack_push (Num (f l r)) ;;
      yield stateEvent
  | _, _ => throw (ExpectNumNum opname)
  end.

Definition add : Gen unit := binary_native "+" Js.num_add.
Definition sub : Gen unit := binary_native "-" Js.num_sub.
Definition mul : Gen unit := binary_native "*" Js.num_mul.
Definition div : Gen unit := binary_native "/" Js.num_div.
Definition lt : Gen unit :=
  binary_native "/" (λ l r, if Js.num_lt l r then Js.of_Z 1 else Js.of_Z 0).

Definition puts : Gen unit :=
  value ← stack_pop;
  yield_stackPopEvent value ;;
  match value with
  | None => throw StackUnderRun
  | Some v => yield (λ _, PutsEvent v)
  end.

Section Natives.

(** [this.eval], as the natives that evaluate values call it. *)
Variable eval : Value → Gen unit.

Definition opIf : Gen unit :=
  falseBranch ← stack_pop;
  yield_stackPopEvent falseBranch ;;
  match falseBranch with
  | Some (Block falseValues) =>
      trueBranch ← stack_pop;
      yield_stackPopEvent trueBranch ;;
      match trueBranch with
      | Some (Block trueValues) =>
          cond ← stack_pop;
          yield_stackPopEvent cond ;;
          match cond with
          | Some (Block condValues) =>
              for_each eval condValues ;;
              condResult ← stack_pop;
              yield_stackPopEvent condResult ;;
              match condResult with
              | Some (Num n) =>
                  if Js.num_neq n (Js.of_Z 0)
                  then for_each eval trueValues
                  else for_each eval falseValues
              | _ => throw ExpectNum
              end
          | _ => throw ExpectBlock
          end
      | _ => throw ExpectBlock
      end
  | _ => throw ExpectBlock
  end.

Definition opDef : Gen unit :=
  value ← stack_pop;
  yield_stackPopEvent value ;;
  match value with
  | None => throw ExpectValue
  | Some v =>
      eval v ;;
      evalResult ← stack_pop;
      yield_stackPopEvent evalResult ;;
      match evalResult with
      | None => throw ExpectValue
      | Some result =>
          symbol ← stack_pop;
          yield_stackPopEvent symbol ;;
          match symbol with
          | Some (Symbol sym) =>
              vars_define sym result ;;
              yield stateEvent
          | _ => throw ExpectSymbol
          end
      end
  end.

Definition opExch : Gen unit :=
  last ← stack_pop;
  yield_stackPopEvent last ;;
  match last with
  | None => throw ExpectValue
  | Some lastValue =>
      second ← stack_pop;
      yield_stackPopEvent second ;;
      match second with
      | None => throw ExpectValue
      | Some secondValue =>
          eval secondValue ;;
          stack_push lastValue ;;
          yield stateEvent ;;
          stack_push secondValue ;;
          yield stateEvent
      end
  end.

(** [variableValue.fn()] *)
Definition call_native (fn : NativeFn) : Gen unit :=
  match fn with
  | FnAdd => add
  | FnSub => sub
  | FnMul => mul
  | FnDiv => div
  | FnLt => lt
  | FnIf => opIf
  | FnDef => opDef
  | FnExch => opExch
  | FnPuts => puts
  end.

(** The body of [eval], with its recursive calls through [eval]. *)
Definition eval_body (code : Value) : Gen unit :=
  s ← get_state;
  match blocks s with
  | _ :: _ =>
      blocks_append code ;;
      yield stateEvent
  | [] =>
      match code with
      | Operator op =>
          match findVar op (vars s) with
          | None => throw (NotDefined op)
          | Some (Block values) =>
              vars_push ;;
              yield stateEvent ;;
              for_each eval values ;;
              vars_pop ;;
              yield stateEvent
          | Some (Native fn) => call_native fn
          | Some variableValue =>
              stack_push variableValue ;;
              yield stateEvent
          end
      | _ =>
          stack_push code ;;
          yield stateEvent
      end
  end.

End Natives.

(** [eval].  The source recurses without bound (a block may invoke itself)
    and the size of the JavaScript call stack is not modelled; [fuel]
    bounds the depth of nested [eval] calls, and a run that needs more ends
    with [OutOfFuel]. *)
Fixpoint eval (fuel : nat) (code : Value) : Gen unit :=
  match fuel with
  | O => out_of_fuel
  | S fuel' => eval_body (eval fuel') code
  end.

(** [word.slice(1)] *)
Definition slice1 (word : string) : string :=
  match word with
  | String _ rest => rest
  | EmptyString => EmptyString
  end.

(** [parse]: one word of the program. *)
Definition parse (fuel : nat) (word : string) : Gen unit :=
  if String.eqb word "" then yield stateEvent
  else if String.eqb word "{" then
    blocks_push ;;
    yield stateEvent
  else if String.eqb word "}" then
    values ← blocks_pop;
    yield stateEvent ;;
    match values with
    | None => throw BlockStackUnderflow
    | Some vs => eval fuel (Block vs)
    end
  else
    let num := Js.parseFloat word in
    if negb (Js.isNaN num) then eval fuel (Num num)
    else if Js.starts_with "/" word then eval fuel (Symbol (slice1 word))
    else eval fuel (Operator word).

(** [String.prototype.split] with a one-character separator. *)
Fixpoint split (sep : ascii) (s : string) : list string :=
  match s with
  | EmptyString => [EmptyString]
  | String c s' =>
      if Ascii.eqb c sep then EmptyString :: split sep s'
      else match split sep s' with
           | w :: ws => String c w :: ws
           | [] => [String c EmptyString]
           end
  end.

Definition newline : ascii := Ascii.ascii_of_nat 10.
Definition space : ascii := " "%char.

(** The words of a program in the order [run] feeds them to [parse]. *)
Definition words (program : string) : list string :=
  split newline program ≫= split space.

(** [StackLang.run], from the state of a fresh [Vm]. *)
Definition run_from (fuel : nat) (program : string) : Gen unit :=
  yield stateEvent ;;
  for_each (λ line, for_each (parse fuel) (split space line)) (split newline program).

(** The events of [new StackLang(program).run()] and the way the run ends. *)
Definition run (fuel : nat) (program : string) : list VmEvent * Completion unit :=
  run_from fuel program initial_state.

(** The state a run ends in when it returns. *)
Definition final_state {A} (r : list VmEvent * Completion A) : option VmState :=
  match r.2 with
  | Returned _ s => Some s
  | _ => None
  end.

(** The operand stack a run ends with when it returns. *)
Definition final_stack {A} (r : list VmEvent * Completion A) : option (list Value) :=
  stack <$> final_state r.

(** The error a run ends with when it throws. *)
Definition thrown {A} (r : list VmEvent * Completion A) : option VmError :=
  match r.2 with
  | Thrown e => Some e
  | _ => None
  end.

(** ** Rendering

    [serializeValue] of the visualiser turns a Number into text with
    ["" + value.num], that is with Number::toString: the shortest decimal
    digits that read back as the same Number, laid out as an integer, a
    decimal fraction or in exponent notation. *)

Module JsToString.

Local Open Scope Z_scope.

Definition digit_char (d : Z) : ascii := ascii_of_N (48 + Z.to_N d).

Fixpoint decimal_digits_go (fuel : nat) (z : Z) (acc : string) : string :=
  match fuel with
  | O => acc
  | S fuel' =>
      let acc' := String (digit_char (z mod 10)) acc in
      if z <? 10 then acc' else decimal_digits_go fuel' (z / 10) acc'
  end.

(** The decimal digits of [z], for [0 <= z]. *)
Definition decimal_digits (z : Z) : string :=
  decimal_digits_go (S (Z.to_nat (Z.log2 z))) z EmptyString.

Fixpoint zeros (n : nat) : string :=
  match n with
  | O => EmptyString
  | S n' => String "0" (zeros n')
  end.

(** Is the positive rational [p / q] below [10 ^ j]? *)
Definition below_pow10 (p q j : Z) : bool :=
  if 0 <=? j then p <? q * 10 ^ j else p * 10 ^ (- j) <? q.

Fixpoint adjust_exponent (fuel : nat) (p q n : Z) : Z :=
  match fuel with
  | O => n
  | S fuel' =>
      if below_pow10 p q (n - 1) then adjust_exponent fuel' p q (n - 1)
      else if below_pow10 p q n then n
      else adjust_exponent fuel' p q (n + 1)
  end.

(** The [n] with [10 ^ (n - 1) <= p / q < 10 ^ n]. *)
Definition decimal_exponent (p q : Z) : Z :=
  adjust_exponent (S (Z.to_nat (Z.log2 p + Z.log2 q)))
                  p q (((Z.log2 p - Z.log2 q) * 30103) / 100000).

(** Same Number value, sign of zero included. *)
Definition number_same (a b : Js.number) : bool :=
  match a, b with
  | S754_zero s1, S754_zero s2 => Bool.eqb s1 s2
  | S754_infinity s1, S754_infinity s2 => Bool.eqb s1 s2
  | S754_nan, S754_nan => true
  | S754_finite s1 m1 e1, S754_finite s2 m2 e2 =>
      Bool.eqb s1 s2 && (m1 =? m2)%positive && (e1 =? e2)
  | _, _ => false
  end.

(** For [k] digits: the two [k]-digit decimals [s * 10 ^ (n' - k)] around
    [p / q], the nearer one first (the even one on a tie). *)
Definition candidates (p q n k : Z) : list (Z * Z) :=
  let j := k - n in
  let '(s, r, d) :=
    if 0 <=? j then let '(s, r) := Z.div_eucl (p * 10 ^ j) q in (s, r, q)
    else let d := q * 10 ^ (- j) in let '(s, r) := Z.div_eucl p d in (s, r, d) in
  let lo := (s, n) in
  let hi := if s + 1 =? 10 ^ k then (10 ^ (k - 1), n + 1) else (s + 1, n) in
  match 2 * r ?= d with
  | Lt => [lo; hi]
  | Gt => [hi; lo]
  | Eq => if Z.even s then [lo; hi] else [hi; lo]
  end.

(** Step 5 of Number::toString: integers [n], [k], [s] with [k] as small
    as possible such that [s] has [k] digits and [s * 10 ^ (n - k)] rounds
    to [x].  The search tries [k], [k + 1], ... and goes on for [fuel]
    steps at most; it ends at the latest with the digits of the exact
    decimal expansion of [x]. *)
Fixpoint shortest_digits (fuel : nat) (x : Js.number) (p q n k : Z) : Z * Z * Z :=
  let found :=
    List.find (λ '(s, n'), number_same (Js.decimal_to_number false s (n' - k)) x)
              (candidates p q n k) in
  match found, fuel with
  | Some (s, n'), _ => (s, n', k)
  | None, S fuel' => shortest_digits fuel' x p q n (k + 1)
  | None, O => (fst (Z.div_eucl (p * 10 ^ Z.max 0 (k - n)) (q * 10 ^ Z.max 0 (n - k))), n, k)
  end.

(** Steps 6 to 10 of Number::toString. *)
Definition format_digits (s n k : Z) : string :=
  let ds := decimal_digits s in
  if (k <=? n) && (n <=? 21) then ds +:+ zeros (Z.to_nat (n - k))
  else if (0 <? n) && (n <=? 21) then
    String.substring 0 (Z.to_nat n) ds +:+ "." +:+
    String.substring (Z.to_nat n) (Z.to_nat (k - n)) ds
  else if (-6 <? n) && (n <=? 0) then "0." +:+ zeros (Z.to_nat (- n)) +:+ ds
  else
    let e := n - 1 in
    let exponent := (if e <? 0 then "-" else "+") +:+ decimal_digits (Z.abs e) in
    if k =? 1 then ds +:+ "e" +:+ exponent
    else String.substring 0 1 ds +:+ "." +:+
         String.substring 1 (Z.to_nat (k - 1)) ds +:+ "e" +:+ exponent.

(** Number::toString with radix 10, that is [String(x)] and ["" + x]. *)
Definition number_to_string (x : Js.number) : string :=
  match x with
  | S754_nan => "NaN"
  | S754_zero _ => "0"
  | S754_infinity false => "Infinity"
  | S754_infinity true => "-Infinity"
  | S754_finite neg m e =>
      let '(p, q) := if 0 <=? e then (Zpos m * 2 ^ e, 1) else (Zpos m, 2 ^ (- e)) in
      let n := decimal_exponent p q in
      let '(s, n, k) :=
        shortest_digits (Z.to_nat (n + Z.max 0 (- e))) (S754_finite false m e) p q n 1 in
      (if neg then "-" else "") +:+ format_digits s n k
  end.

End JsToString.

(** [Array.prototype.join] *)
Fixpoint join (sep : string) (l : list string) : string :=
  match l with
  | [] => EmptyString
  | [x] => x
  | x :: l' => x +:+ sep +:+ join sep l'
  end.

(** [serializeValue] of the visualiser.  A value without a [kind] matches
    no case of the [switch] and the function returns [undefined], here
    [None]; [join] renders an [undefined] element as the empty string. *)
Fixpoint serializeValue (value : Value) : option string :=
  match value with
  | Num num => Some (JsToString.number_to_string num)
  | Native _ => Some "<Native>"
  | Symbol sym => Some sym
  | Operator op => Some op
  | Block values =>
      Some ("{ " +:+ join " " (List.map (λ v, default "" (serializeValue v)) values)
                 +:+ " }")
  | ProtoMember _ => None
  end.

(** What [join] makes of a serialized value. *)
Definition render (v : Value) : string := default "" (serializeValue v).

(** * The vocabulary of the statements *)

(** ** Generators and what they guarantee *)

(** [refines m m']: wherever [m] ends within its recursion budget, [m']
    does exactly the same. *)
Definition refines {A} (m m' : Gen A) : Prop :=
  ∀ s, (m s).2 = OutOfFuel ∨ m s = m' s.

(** The state an event shows, if it shows one. *)
Definition event_state (e : VmEvent) : option VmState :=
  match e with
  | StateEvent s | StackPopEvent s _ => Some s
  | PutsEvent _ => None
  end.

(** The state an event shows, if any, satisfies [I]. *)
Definition event_ok (I : VmState → Prop) (e : VmEvent) : Prop :=
  ∀ s, event_state e = Some s → I s.

(** [gen_spec I Q r]: every state an event of [r] shows satisfies [I], and
    if [r] returned, its result and final state satisfy [Q]. *)
Definition gen_spec {A} (I : VmState → Prop) (Q : A → VmState → Prop)
    (r : list VmEvent * Completion A) : Prop :=
  Forall (event_ok I) r.1 ∧
  match r.2 with
  | Returned a s => Q a s
  | _ => True
  end.

(** ** Scope chains *)

(** The chain is [pre] and one more scope that extends [top]. *)
Definition chain_top (pre : list (gmap string Value)) (top : gmap string Value)
    (chain : list (gmap string Value)) : Prop :=
  ∃ top', chain = pre ++ [top'] ∧ top ⊆ top'.

(** The chain starts with [pre] and a scope that extends [top]. *)
Definition chain_above (pre : list (gmap string Value)) (top : gmap string Value)
    (chain : list (gmap string Value)) : Prop :=
  ∃ top' extra, chain = pre ++ top' :: extra ∧ top ⊆ top'.

(** [m] keeps every scope below the topmost one and only extends the
    topmost one, in every state it shows and in the state it returns. *)
Definition frame_spec (m : Gen unit) : Prop :=
  ∀ pre top s, chain_top pre top (vars s) →
    gen_spec (λ s', chain_above pre top (vars s'))
             (λ _ s', chain_top pre top (vars s')) (m s).

(** Started with no open block, [m] never shows nor leaves one: only
    [parse] opens and closes blocks. *)
Definition closed_spec (m : Gen unit) : Prop :=
  ∀ s, blocks s = [] →
    gen_spec (λ s', blocks s' = []) (λ _ s', blocks s' = []) (m s).

(** The names the base scope is created with, and the natives they name. *)
Definition native_bindings : list (string * NativeFn) :=
  [ ("+", FnAdd); ("-", FnSub); ("*", FnMul); ("/", FnDiv); ("<", FnLt);
    ("if", FnIf); ("def", FnDef); ("exch", FnExch); ("puts", FnPuts) ].

(** The scope chain has a scope at index 0 and that scope binds every native
    name to its native. *)
Definition base_scope_intact (s : VmState) : Prop :=
  ∃ base rest, vars s = base :: rest ∧
    ∀ name fn, (name, fn) ∈ native_bindings → base !! name = Some (Native fn).

(** A state whose base scope binds [f] to a Block that defines [y]. *)
Definition scope_with_block : VmState :=
  {| stack := [];
     vars := [<["f" := Block [Symbol "y"; Num (Js.of_Z 5); Operator "def"]]> native_scope];
     blocks := [] |}.

(** ** Runs *)

(** The [kind] field of an event. *)
Definition event_kind (e : VmEvent) : string :=
  match e with
  | StateEvent _ => "state"
  | PutsEvent _ => "puts"
  | StackPopEvent _ _ => "stackPop"
  end.

(** The operand stacks the events of a run show, in order. *)
Definition stacks_seen (evs : list VmEvent) : list (list Value) :=
  omap (λ e, stack <$> event_state e) evs.

(** The values the [puts] events of a run report, in order. *)
Definition outputs (evs : list VmEvent) : list Value :=
  omap (λ e, match e with PutsEvent v => Some v | _ => None end) evs.

(** The Number value an integer literal denotes. *)
Definition lit (z : Z) : Value := Num (Js.of_Z z).

(** The characters the driver splits the program on. *)
Definition is_separator (c : ascii) : bool :=
  (Ascii.eqb c newline || Ascii.eqb c space)%bool.

(** ** Decimal literals *)

(** What [scan_unsigned] returns is never a negative mantissa. *)
Definition literal_wf (l : Js.unsigned_literal) : Prop :=
  match l with
  | Js.LitInfinity => True
  | Js.LitDecimal m _ => (0 ≤ m)%Z
  end.

(** The grammar of StrDecimalLiteral, as [parseFloat] reads it: an optional
    sign, then [Infinity] or a mantissa (digits, digits with a fraction, or
    a fraction alone) with an optional exponent part. *)
Fixpoint is_digits (s : string) : bool :=
  match s with
  | EmptyString => true
  | String c s' => Js.is_digit c && is_digits s'
  end.

Definition DecimalDigits (s : string) : Prop := s ≠ EmptyString ∧ is_digits s = true.

Definition is_sign (s : string) : Prop := s = "" ∨ s = "+" ∨ s = "-".

Inductive Mantissa : string → Prop :=
| mantissa_int ip : DecimalDigits ip → Mantissa ip
| mantissa_frac ip fp :
    DecimalDigits ip → is_digits fp = true → Mantissa (ip +:+ "." +:+ fp)
| mantissa_dot fp : DecimalDigits fp → Mantissa ("." +:+ fp).

Inductive ExponentPart : string → Prop :=
| exponent_part ind sgn ds :
    ind = "e"%char ∨ ind = "E"%char → is_sign sgn → DecimalDigits ds →
    ExponentPart (String ind (sgn +:+ ds)).

Inductive StrUnsignedDecimalLiteral : string → Prop :=
| unsigned_infinity : StrUnsignedDecimalLiteral "Infinity"
| unsigned_mantissa m : Mantissa m → StrUnsignedDecimalLiteral m
| unsigned_exponent m e :
    Mantissa m → ExponentPart e → StrUnsignedDecimalLiteral (m +:+ e).

Inductive StrDecimalLiteral : string → Prop :=
| signed_literal sgn u :
    is_sign sgn → StrUnsignedDecimalLiteral u → StrDecimalLiteral (sgn +:+ u).

(** The first character of [s], if any, is not a digit. *)
Definition no_digit_ahead (s : string) : Prop :=
  match s with
  | EmptyString => True
  | String c _ => Js.is_digit c = false
  end.

(** The text after a literal cannot extend it: it is empty or starts with a
    character that is no digit, no point and no exponent indicator. *)
Definition ends_literal (s : string) : Prop :=
  match s with
  | EmptyString => True
  | String c _ =>
      Js.is_digit c = false ∧ c ≠ "."%char ∧ c ≠ "e"%char ∧ c ≠ "E"%char
  end.

(** The first character of [s], if any, is neither a digit nor a point. *)
Definition ends_mantissa (s : string) : Prop :=
  match s with
  | EmptyString => True
  | String c _ => Js.is_digit c = false ∧ c ≠ "."%char
  end.

(** A character a decimal literal without its sign can start with. *)
Definition literal_start (c : ascii) : Prop :=
  Js.is_digit c = true ∨ c = "."%char ∨ c = "I"%char.

(** A text of white space only, as [parseFloat] skips it. *)
Fixpoint is_blank (s : string) : bool :=
  match s with
  | EmptyString => true
  | String c s' => Js.is_white_space c && is_blank s'
  end.

(** ** Decimal expansions *)

(** [s * 10 ^ t] is the value [m * 2 ^ e]. *)
Definition same_value (s t : Z) (m : positive) (e : Z) : Prop :=
  (s * 10 ^ Z.max 0 t * 2 ^ Z.max 0 (- e) = Zpos m * 2 ^ Z.max 0 e * 10 ^ Z.max 0 (- t))%Z.

(** [n] is the decimal exponent of [p / q]:
    [10 ^ (n - 1) <= p / q < 10 ^ n]. *)
Definition is_decimal_exponent (p q n : Z) : Prop :=
  JsToString.below_pow10 p q n = true ∧ JsToString.below_pow10 p q (n - 1)%Z = false.

(** ** Arithmetic programs *)

(** Ordinary left-to-right RPN evaluation, following the words of the
    specification: a number literal pushes its value; an operator pops the
    right operand, then the left operand, and pushes [left OP right].  The
    head of the list is the top of the stack. *)
Definition rpn_operator (w : string) : option (Js.number → Js.number → Js.number) :=
  if String.eqb w "+" then Some Js.num_add
  else if String.eqb w "-" then Some Js.num_sub
  else if String.eqb w "*" then Some Js.num_mul
  else if String.eqb w "/" then Some Js.num_div
  else None.

Definition rpn_step (st : list Js.number) (w : string) : option (list Js.number) :=
  match rpn_operator w with
  | Some f =>
      match st with
      | r :: l :: st' => Some (f l r :: st')
      | _ => None
      end
  | None => Some (Js.parseFloat w :: st)
  end.

Fixpoint rpn (ws : list string) (st : list Js.number) : option (list Js.number) :=
  match ws with
  | [] => Some st
  | w :: ws' =>
      match rpn_step st w with
      | Some st' => rpn ws' st'
      | None => None
      end
  end.

(** The words of an arithmetic program that leaves division out. *)
Definition add_sub_mul_token (w : string) : Prop :=
  w = "+" ∨ w = "-" ∨ w = "*" ∨ StrDecimalLiteral w.

(** ** Round trips through [serializeValue] *)

(** A word holds no separator, so that the driver passes it on whole. *)
Fixpoint is_word (w : string) : bool :=
  match w with
  | EmptyString => true
  | String c w' => negb (is_separator c) && is_word w'
  end.

(** The words [parse] classifies as Operators. *)
Definition operator_word (w : string) : bool :=
  is_word w && negb (String.eqb w "") && negb (String.eqb w "{")
  && negb (String.eqb w "}") && Js.isNaN (Js.parseFloat w)
  && negb (Js.starts_with "/" w).

(** The Numbers whose rendering is read back as the same Number. *)
Definition number_reads_back (n : Js.number) : bool :=
  is_word (JsToString.number_to_string n)
  && JsToString.number_same (Js.parseFloat (JsToString.number_to_string n)) n
  && negb (Js.isNaN n).

(** The Numbers of binary64, negative zero and NaN apart. *)
Definition plain_number (x : Js.number) : bool :=
  valid_binary Js.prec Js.emax x && negb (Js.isNaN x)
  && negb (JsToString.number_same x (S754_zero true)).

(** Values made, at every depth, of Operators as [parse] produces them, of
    Numbers of binary64 other than negative zero and NaN, and of Blocks of
    such values. *)
Fixpoint reparsable (v : Value) : bool :=
  match v with
  | Num n => plain_number n
  | Operator op => operator_word op
  | Block values => forallb reparsable values
  | _ => false
  end.

(** The words of the rendering of a value. *)
Fixpoint tokens_of (v : Value) : list string :=
  match v with
  | Block values =>
      "{" :: match values with
             | [] => [EmptyString]
             | _ => concat (List.map tokens_of values)
             end ++ ["}"]
  | _ => [render v]
  end.

(** A value is captured from source when some program leaves exactly it on
    the operand stack. *)
Definition captured_from_source (v : Value) : Prop :=
  ∃ source fuel, final_stack (run fuel source) = Some [v].

(** Serializing [v] and running the text leaves exactly [v] on the stack. *)
Definition round_trips (v : Value) : Prop :=
  ∃ text, serializeValue v = Some text ∧
          ∃ fuel, final_stack (run fuel text) = Some [v].

(** Feeding the words of a value to [parse] while a block is open appends
    the value to that block. *)
Definition captures (k : nat) (v : Value) : Prop :=
  ∀ st vs bs cur,
    ∃ evs, for_each (parse (S k)) (tokens_of v) (mkState st vs (bs ++ [cur])) =
             (evs, Returned tt (mkState st vs (bs ++ [cur ++ [v]]))).

(** Values as [parse] builds them from the words of a program: the Numbers
    [parseFloat] returns, which are binary64 values other than NaN, the
    Operators named by a word that is no brace, no Number and no Symbol,
    Symbols, and Blocks of such values. *)
Fixpoint captured (v : Value) : bool :=
  match v with
  | Num n => valid_binary Js.prec Js.emax n && negb (Js.isNaN n)
  | Operator op => operator_word op
  | Symbol _ => true
  | Block values => forallb captured values
  | Native _ | ProtoMember _ => false
  end.

(** If [v] is a Block, it holds captured values. *)
Definition holds_captured (v : Value) : bool :=
  match v with
  | Block values => forallb captured values
  | _ => true
  end.

(** Every Block on the operand stack and in the scopes holds captured
    values, and so does every open block. *)
Definition captured_state (s : VmState) : Prop :=
  Forall (λ v, holds_captured v = true) (stack s) ∧
  Forall (map_Forall (λ _ v, holds_captured v = true)) (vars s) ∧
  Forall (Forall (λ v, captured v = true)) (blocks s).

(** Such a state with no open block. *)
Definition closed_captured (s : VmState) : Prop := captured_state s ∧ blocks s = [].

(** No Symbol and no negative zero, at any depth. *)
Fixpoint plain (v : Value) : bool :=
  match v with
  | Symbol _ => false
  | Num n => negb (JsToString.number_same n (S754_zero true))
  | Block values => forallb plain values
  | _ => true
  end.

(** A Block body with Numbers, Operators and nested Blocks. *)
Definition sample_block : list Value :=
  [ Num (Js.parseFloat "1.5"); Operator "foo";
    Block [Operator "+"; Block []; lit 10]; Num (Js.parseFloat "-2e-7") ].

(** ** Further vocabulary *)

(** The Value [parse] makes of a word that is neither empty nor a brace. *)
Definition classify (word : string) : Value :=
  let num := Js.parseFloat word in
  if negb (Js.isNaN num) then Num num
  else if Js.starts_with "/" word then Symbol (slice1 word)
  else Operator word.

(** The number of separators in a program text. *)
Fixpoint count_separators (p : string) : nat :=
  match p with
  | EmptyString => 0
  | String c p' => (if is_separator c then 1 else 0) + count_separators p'
  end.

(** A generator that, whenever it returns, has yielded an event. *)
Definition emits {A} (m : Gen A) : Prop :=
  ∀ s evs a s', m s = (evs, Returned a s') → evs ≠ [].

(** The five arithmetic natives, each with the operator name its type error
    reports and the operation it performs on (left, right). *)
Definition arithmetic_natives
  : list (Gen unit * (string * (Js.number → Js.number → Js.number))) :=
  [ (add, ("+", Js.num_add)); (sub, ("-", Js.num_sub));
    (mul, ("*", Js.num_mul)); (div, ("/", Js.num_div));
    (lt, ("/", λ l r, if Js.num_lt l r then Js.of_Z 1 else Js.of_Z 0)) ].

(** The errors a run can end with.  The checks [value == null] of [opDef],
    [opExch] and [puts] come after [stackPopEvent], which has thrown by
    then; [vars.at(-1)] and [blocks.at(-1)] are read only where there is a
    last element; and the type error of [lt] names [/]. *)
Definition reachable_error (e : VmError) : bool :=
  match e with
  | ExpectValue | StackUnderRun | JsTypeError => false
  | ExpectNumNum name => existsb (String.eqb name) ["+"; "-"; "*"; "/"]
  | _ => true
  end.

(** Started with [n + 1] scopes, [m] returns with [n' + 1] scopes and
    throws reachable errors only. *)
Definition sound {A} (n n' : nat) (m : Gen A) : Prop :=
  ∀ s, length (vars s) = S n →
    match (m s).2 with
    | Returned _ s' => length (vars s') = S n'
    | Thrown e => reachable_error e = true
    | OutOfFuel => True
    end.

(** Programs that end with each of the reachable errors. *)
Definition failing_programs : list (string * VmError) :=
  [ ("+", StackPopError); ("}", BlockStackUnderflow); ("foo", NotDefined "foo");
    ("/a 1 +", ExpectNumNum "+"); ("/a 1 -", ExpectNumNum "-");
    ("/a 1 *", ExpectNumNum "*"); ("/a 1 <", ExpectNumNum "/");
    ("1 2 3 if", ExpectBlock); ("{ /a } { } { } if", ExpectNum);
    ("1 2 def", ExpectSymbol) ].

(** How a run ends on an engine whose call stack has room for [depth]
    nested calls of [eval]: it returns, one of the [throw] statements of
    the machine raises its error, or the recursion goes deeper than the
    call stack allows and the engine raises its own [RangeError] (maximum
    call stack size exceeded), which nothing in the source catches. *)
Inductive RunEnd : Type :=
| Returns (s : VmState)
| Raises (e : VmError)
| RangeError.

Definition run_end (depth : nat) (program : string) : RunEnd :=
  match (run depth program).2 with
  | Returned _ s => Returns s
  | Thrown e => Raises e
  | OutOfFuel => RangeError
  end.

(** Values as [parse] builds them from the words of a program: Numbers,
    Symbols, Operators and Blocks of such values. *)
Fixpoint source_value (v : Value) : bool :=
  match v with
  | Num _ | Symbol _ | Operator _ => true
  | Block values => forallb source_value values
  | Native _ | ProtoMember _ => false
  end.

(** Values that are data to the machine: Numbers, Symbols, Blocks of source
    values, and what a scope object inherits from its prototype. *)
Definition stack_value (v : Value) : bool :=
  match v with
  | Num _ | Symbol _ | ProtoMember _ => true
  | Block values => forallb source_value values
  | Operator _ | Native _ => false
  end.

(** Values a scope may bind a name to: data and the natives. *)
Definition scope_value (v : Value) : bool :=
  match v with
  | Native _ => true
  | _ => stack_value v
  end.

(** Values [eval] is called with: source values and data. *)
Definition evaluable (v : Value) : bool := source_value v || stack_value v.

(** The operand stack holds data only, the scopes bind names to data and
    natives only, and the open blocks hold source values only. *)
Definition well_formed (s : VmState) : Prop :=
  Forall (λ v, stack_value v = true) (stack s) ∧
  Forall (map_Forall (λ _ v, scope_value v = true)) (vars s) ∧
  Forall (Forall (λ v, source_value v = true)) (blocks s).

(** A well-formed state with no open block. *)
Definition closed_wf (s : VmState) : Prop := well_formed s ∧ blocks s = [].

(** How often the word [w] occurs in a list of words. *)
Fixpoint count_word (w : string) (ws : list string) : nat :=
  match ws with
  | [] => 0
  | x :: ws' => (if String.eqb x w then 1 else 0) + count_word w ws'
  end.

(** Whenever [m] returns, the last state its events showed is the state it
    returns in. *)
Definition settles (m : Gen unit) : Prop :=
  ∀ s evs s', m s = (evs, Returned tt s') → last (omap event_state evs) = Some s'.

(** ** The visualiser

    What [App] keeps of a run: the machine state it displays and the lines
    of its output panel, newest first. *)
Record Panel : Type := mkPanel {
  vmState : VmState;
  panel_outputs : list string
}.

(** A template literal [`${x}`] renders [undefined] as text. *)
Definition template (x : option string) : string := default "undefined" x.

(** The line an event adds to the output panel, if it adds one. *)
Definition output_line (e : VmEvent) : option string :=
  match e with
  | StateEvent _ => None
  | StackPopEvent _ v => Some ("pop " +:+ template (serializeValue v))
  | PutsEvent v => Some ("puts " +:+ template (serializeValue v))
  end.

(** The body of the loop of [handleClickRun]: [setVmState] for the events
    that carry a state, and [setOutputs] with
    [[line].concat(os).slice(0, 5)] for the events that report a value. *)
Definition show_event (p : Panel) (e : VmEvent) : Panel :=
  match e with
  | StateEvent s => mkPanel s (panel_outputs p)
  | StackPopEvent s v =>
      mkPanel s (take 5 (["pop " +:+ template (serializeValue v)] ++ panel_outputs p))
  | PutsEvent v =>
      mkPanel (vmState p)
              (take 5 (["puts " +:+ template (serializeValue v)] ++ panel_outputs p))
  end.

(** [handleClickRun]: the panel after the events of a run of [input]. *)
Definition handleClickRun (fuel : nat) (input : string) (p : Panel) : Panel :=
  foldl show_event p (run fuel input).1.

(** The words of a program that are not empty. *)
Definition nonblank_words (program : string) : list string :=
  filter (λ w, w ≠ EmptyString) (words program).

(** ** The events as a trace of the operand stack *)

(** What an event may show when the last stack shown was [b]: a state event
    shows [b] again or [b] with one value pushed; a pop event shows [b]
    without its top and reports that top. *)
Definition explains (b : list Value) (e : VmEvent) : Prop :=
  match e with
  | StateEvent s => stack s = b ∨ ∃ v, stack s = b ++ [v]
  | StackPopEvent s v => b = stack s ++ [v]
  | PutsEvent _ => True
  end.

(** The last stack shown once [e] has been delivered. *)
Definition shown (b : list Value) (e : VmEvent) : list Value :=
  match event_state e with
  | Some s => stack s
  | None => b
  end.

(** Every event of the list is explained by the stack shown before it. *)
Fixpoint explained (b : list Value) (evs : list VmEvent) : Prop :=
  match evs with
  | [] => True
  | e :: evs' => explains b e ∧ explained (shown b e) evs'
  end.

(** Started when the stack of the machine is the last one shown, [m] yields
    events that are explained, and returns when the stack of the machine is
    again the last one shown. *)
Definition traced {A} (m : Gen A) : Prop :=
  ∀ s, explained (stack s) (m s).1 ∧
       match (m s).2 with
       | Returned _ s' => foldl shown (stack s) (m s).1 = stack s'
       | _ => True
       end.

(** * Properties *)

(** ** Arrays *)

Lemma array_pop_snoc {A} (l : list A) (x : A) : array_pop (l ++ [x]) = Some (l, x).
Proof.
  induction l as [|y l IH]; simpl; [done|]. by rewrite IH.
Qed.

Lemma array_pop_nil_iff {A} (l : list A) : array_pop l = None ↔ l = [].
Proof.
  split; [|by intros ->].
  destruct l as [|x l]; [done|]. simpl. by destruct (array_pop l) as [[? ?]|].
Qed.

Lemma array_pop_Some {A} (l r : list A) (x : A) :
  array_pop l = Some (r, x) ↔ l = r ++ [x].
Proof.
  split; [|intros ->; apply array_pop_snoc].
  revert r. induction l as [|y l IH]; intros r; simpl; [done|].
  destruct (array_pop l) as [[r' z]|] eqn:E.
  - intros [= <- <-]. simpl. f_equal. by apply IH.
  - intros [= <- <-]. apply array_pop_nil_iff in E. by subst.
Qed.

(** ** Generators *)

Lemma gen_bind_unfold {A B} (m : Gen A) (f : A → Gen B) s :
  (m ≫= f) s = gen_bind m f s.
Proof. reflexivity. Qed.

Lemma gen_bind_returned {A B} (m : Gen A) (f : A → Gen B) s evs a s' :
  m s = (evs, Returned a s') →
  (m ≫= f) s = (evs ++ (f a s').1, (f a s').2).
Proof.
  intros H. rewrite gen_bind_unfold. unfold gen_bind. rewrite H.
  by destruct (f a s').
Qed.

Lemma gen_bind_thrown {A B} (m : Gen A) (f : A → Gen B) s evs e :
  m s = (evs, Thrown e) → (m ≫= f) s = (evs, Thrown e).
Proof.
  intros H. rewrite gen_bind_unfold. unfold gen_bind. by rewrite H.
Qed.

Lemma gen_bind_out_of_fuel {A B} (m : Gen A) (f : A → Gen B) s evs :
  m s = (evs, OutOfFuel) → (m ≫= f) s = (evs, OutOfFuel).
Proof.
  intros H. rewrite gen_bind_unfold. unfold gen_bind. by rewrite H.
Qed.

Lemma gen_bind_assoc {A B C} (m : Gen A) (f : A → Gen B) (g : B → Gen C) s :
  ((m ≫= f) ≫= g) s = (m ≫= λ a, f a ≫= g) s.
Proof.
  unfold mbind, gen_mbind, gen_bind.
  destruct (m s) as [evs [a s'| |]]; [|done..].
  destruct (f a s') as [evs' [b s''| |]]; [|done..].
  destruct (g b s''). by rewrite app_assoc.
Qed.

Lemma gen_bind_ext {A B} (m : Gen A) (f f' : A → Gen B) s :
  (∀ a s', f a s' = f' a s') → (m ≫= f) s = (m ≫= f') s.
Proof.
  intros H. rewrite !gen_bind_unfold. unfold gen_bind.
  destruct (m s) as [evs [a s'| |]]; [|done..]. by rewrite H.
Qed.

Lemma gen_ret_bind {A B} (a : A) (f : A → Gen B) s : (mret a ≫= f) s = f a s.
Proof.
  rewrite gen_bind_unfold. unfold gen_bind. simpl. by destruct (f a s).
Qed.

Lemma for_each_app {A} (f : A → Gen unit) (l1 l2 : list A) s :
  for_each f (l1 ++ l2) s = (for_each f l1 ;; for_each f l2) s.
Proof.
  revert s. induction l1 as [|x l1 IH]; intros s; simpl.
  - symmetry. apply (gen_ret_bind tt).
  - rewrite gen_bind_assoc. apply gen_bind_ext. intros _ s'. apply IH.
Qed.

Lemma for_each_bind {A B} (f : B → Gen unit) (g : A → list B) (l : list A) s :
  for_each (λ x, for_each f (g x)) l s = for_each f (l ≫= g) s.
Proof.
  revert s. induction l as [|x l IH]; intros s; [done|].
  simpl. rewrite for_each_app. apply gen_bind_ext. intros _ s'. apply IH.
Qed.

Lemma for_each_thrown {A} (f : A → Gen unit) (l1 l2 : list A) s evs e :
  for_each f l1 s = (evs, Thrown e) →
  for_each f (l1 ++ l2) s = (evs, Thrown e).
Proof.
  intros H. rewrite for_each_app. by apply gen_bind_thrown.
Qed.

Lemma refines_refl {A} (m : Gen A) : refines m m.
Proof. intros s. by right. Qed.

Lemma refines_bind {A B} (m m' : Gen A) (f f' : A → Gen B) :
  refines m m' → (∀ a, refines (f a) (f' a)) → refines (m ≫= f) (m' ≫= f').
Proof.
  intros Hm Hf s. rewrite !gen_bind_unfold. unfold gen_bind.
  destruct (Hm s) as [H|H].
  - left. destruct (m s) as [evs c]. simpl in H. by subst.
  - rewrite <- H. destruct (m s) as [evs [a s'| |]]; [|by right..].
    destruct (Hf a s') as [H'|H'].
    + left. destruct (f a s') as [evs' c]. simpl in *. by subst.
    + right. by rewrite H'.
Qed.

Lemma refines_for_each {A} (f f' : A → Gen unit) (l : list A) :
  (∀ x, refines (f x) (f' x)) → refines (for_each f l) (for_each f' l).
Proof.
  intros Hf. induction l as [|x l IH]; simpl; [apply refines_refl|].
  apply refines_bind; auto.
Qed.

Ltac refines_tac :=
  repeat first
    [ apply refines_refl
    | assumption
    | apply refines_for_each; intros
    | apply refines_bind; intros
    | progress auto
    | match goal with
      | |- refines (match ?x with _ => _ end) _ => destruct x
      | |- refines (if ?x then _ else _) _ => destruct x
      end ].

Lemma eval_body_refines (ev ev' : Value → Gen unit) (code : Value) :
  (∀ v, refines (ev v) (ev' v)) → refines (eval_body ev code) (eval_body ev' code).
Proof.
  intros Hev. unfold eval_body, call_native, opIf, opDef, opExch.
  refines_tac.
Qed.

Lemma eval_refines_S (fuel : nat) (code : Value) :
  refines (eval fuel code) (eval (S fuel) code).
Proof.
  revert code. induction fuel as [|n IH]; intros code.
  - intros s. by left.
  - change (refines (eval_body (eval n) code) (eval_body (eval (S n)) code)).
    by apply eval_body_refines.
Qed.

Lemma refines_trans {A} (m1 m2 m3 : Gen A) :
  refines m1 m2 → refines m2 m3 → refines m1 m3.
Proof.
  intros H12 H23 s. destruct (H12 s) as [H|H]; [by left|].
  rewrite H. apply H23.
Qed.

Lemma eval_refines (fuel k : nat) (code : Value) :
  refines (eval fuel code) (eval (fuel + k) code).
Proof.
  induction k as [|k IH].
  - rewrite Nat.add_0_r. apply refines_refl.
  - rewrite Nat.add_succ_r. eapply refines_trans; [exact IH|apply eval_refines_S].
Qed.

Lemma parse_refines (fuel k : nat) (word : string) :
  refines (parse fuel word) (parse (fuel + k) word).
Proof.
  unfold parse. pose proof (eval_refines fuel k). refines_tac.
Qed.

Lemma run_from_refines (fuel k : nat) (program : string) :
  refines (run_from fuel program) (run_from (fuel + k) program).
Proof.
  unfold run_from. pose proof (parse_refines fuel k). refines_tac.
Qed.

(** A run that ends within its budget ends the same way with any larger
    budget. *)
Lemma run_fuel_mono (fuel k : nat) (program : string) r :
  run fuel program = r → r.2 ≠ OutOfFuel → run (fuel + k) program = r.
Proof.
  intros <- H. unfold run in *.
  destruct (run_from_refines fuel k program initial_state) as [?|E]; [done|].
  by rewrite E.
Qed.

Lemma run_at_least (fuel k : nat) (program : string) :
  (run fuel program).2 ≠ OutOfFuel → run (fuel + k) program = run fuel program.
Proof. intros H. by apply run_fuel_mono. Qed.

(** Whatever the budget, a run either is cut short by it or ends as it
    does with a budget that suffices. *)
Lemma run_any_fuel (enough fuel : nat) (program : string) :
  (run enough program).2 ≠ OutOfFuel →
  (run fuel program).2 = OutOfFuel ∨ run fuel program = run enough program.
Proof.
  intros H. destruct (decide (enough ≤ fuel)%nat) as [Hle|Hgt].
  - right. replace fuel with (enough + (fuel - enough)) by lia.
    by apply run_at_least.
  - destruct (run_from_refines fuel (enough - fuel) program initial_state)
      as [E|E]; [by left|].
    right. unfold run. rewrite E. f_equal. f_equal. lia.
Qed.

Lemma event_ok_StateEvent (I : VmState → Prop) s : I s → event_ok I (StateEvent s).
Proof. by intros H ? [= <-]. Qed.

Lemma event_ok_StackPopEvent (I : VmState → Prop) s v :
  I s → event_ok I (StackPopEvent s v).
Proof. by intros H ? [= <-]. Qed.

Lemma event_ok_PutsEvent (I : VmState → Prop) v : event_ok I (PutsEvent v).
Proof. by intros ? [=]. Qed.

Lemma gen_spec_bind {A B} I (Q : B → VmState → Prop) (m : Gen A) (f : A → Gen B) s :
  gen_spec I (λ a s', gen_spec I Q (f a s')) (m s) → gen_spec I Q ((m ≫= f) s).
Proof.
  unfold gen_spec, mbind, gen_mbind, gen_bind.
  destruct (m s) as [evs [a s'| |]]; simpl; [|done..].
  intros [Hevs [Hevs' HQ]]. destruct (f a s') as [evs' c]; simpl in *.
  split; [by apply Forall_app|done].
Qed.

Lemma gen_spec_mono {A} (I I' : VmState → Prop) (Q Q' : A → VmState → Prop) r :
  (∀ s, I s → I' s) → (∀ a s, Q a s → Q' a s) →
  gen_spec I Q r → gen_spec I' Q' r.
Proof.
  intros HI HQ [Hevs Hc]. split.
  - eapply Forall_impl; [exact Hevs|]. intros e He s Hs. apply HI, He, Hs.
  - destruct r.2; auto.
Qed.

Lemma spec_ret {A} I (Q : A → VmState → Prop) a s : Q a s → gen_spec I Q (gen_ret a s).
Proof. by split; [constructor|]. Qed.

Lemma spec_throw {A} I (Q : A → VmState → Prop) e s : gen_spec I Q (throw e s).
Proof. by split; [constructor|]. Qed.

Lemma spec_out_of_fuel {A} I (Q : A → VmState → Prop) s : gen_spec I Q (out_of_fuel s).
Proof. by split; [constructor|]. Qed.

Lemma spec_get_state I (Q : VmState → VmState → Prop) s :
  Q s s → gen_spec I Q (get_state s).
Proof. by split; [constructor|]. Qed.

Lemma spec_yield I (Q : unit → VmState → Prop) e s :
  event_ok I (e s) → Q tt s → gen_spec I Q (yield e s).
Proof. intros. by split; [repeat constructor|]. Qed.

Lemma spec_yield_state I (Q : unit → VmState → Prop) s :
  I s → Q tt s → gen_spec I Q (yield stateEvent s).
Proof. intros HI HQ. apply spec_yield; [|done]. by intros ? [= <-]. Qed.

Lemma spec_yield_stackPopEvent I (Q : unit → VmState → Prop) v s :
  I s → Q tt s → gen_spec I Q (yield_stackPopEvent v s).
Proof.
  intros HI HQ. destruct v as [v|]; [|apply (spec_throw I Q StackPopError s)].
  apply (spec_yield I Q (λ s, StackPopEvent s v) s); [|done]. by intros ? [= <-].
Qed.

Lemma spec_stack_pop I (Q : option Value → VmState → Prop) s :
  (∀ rest v, stack s = rest ++ [v] → Q (Some v) (mkState rest (vars s) (blocks s))) →
  (stack s = [] → Q None s) →
  gen_spec I Q (stack_pop s).
Proof.
  intros HS HN. unfold stack_pop.
  destruct (array_pop (stack s)) as [[rest v]|] eqn:E.
  - split; [constructor|]. by apply HS, array_pop_Some.
  - split; [constructor|]. by apply HN, array_pop_nil_iff.
Qed.

Lemma spec_stack_push I (Q : unit → VmState → Prop) v s :
  Q tt (mkState (stack s ++ [v]) (vars s) (blocks s)) → gen_spec I Q (stack_push v s).
Proof. by split; [constructor|]. Qed.

Lemma spec_vars_push I (Q : unit → VmState → Prop) s :
  Q tt (mkState (stack s) (vars s ++ [∅]) (blocks s)) → gen_spec I Q (vars_push s).
Proof. by split; [constructor|]. Qed.

Lemma spec_vars_pop I (Q : unit → VmState → Prop) s :
  (∀ rest top, vars s = rest ++ [top] → Q tt (mkState (stack s) rest (blocks s))) →
  (vars s = [] → Q tt s) →
  gen_spec I Q (vars_pop s).
Proof.
  intros HS HN. unfold vars_pop.
  destruct (array_pop (vars s)) as [[rest v]|] eqn:E.
  - split; [constructor|]. by eapply HS, array_pop_Some.
  - split; [constructor|]. by apply HN, array_pop_nil_iff.
Qed.

Lemma spec_vars_define I (Q : unit → VmState → Prop) sym v s :
  (∀ rest top, vars s = rest ++ [top] →
     Q tt (mkState (stack s) (rest ++ [scope_define top sym v]) (blocks s))) →
  gen_spec I Q (vars_define sym v s).
Proof.
  intros HS. unfold vars_define.
  destruct (array_pop (vars s)) as [[rest top]|] eqn:E.
  - split; [constructor|]. by apply HS, array_pop_Some.
  - by split; [constructor|].
Qed.

Lemma spec_blocks_push I (Q : unit → VmState → Prop) s :
  Q tt (mkState (stack s) (vars s) (blocks s ++ [[]])) → gen_spec I Q (blocks_push s).
Proof. by split; [constructor|]. Qed.

Lemma spec_blocks_pop I (Q : option (list Value) → VmState → Prop) s :
  (∀ rest vs, blocks s = rest ++ [vs] → Q (Some vs) (mkState (stack s) (vars s) rest)) →
  (blocks s = [] → Q None s) →
  gen_spec I Q (blocks_pop s).
Proof.
  intros HS HN. unfold blocks_pop.
  destruct (array_pop (blocks s)) as [[rest v]|] eqn:E.
  - split; [constructor|]. by apply HS, array_pop_Some.
  - split; [constructor|]. by apply HN, array_pop_nil_iff.
Qed.

Lemma spec_blocks_append I (Q : unit → VmState → Prop) code s :
  (∀ rest vs, blocks s = rest ++ [vs] →
     Q tt (mkState (stack s) (vars s) (rest ++ [vs ++ [code]]))) →
  gen_spec I Q (blocks_append code s).
Proof.
  intros HS. unfold blocks_append.
  destruct (array_pop (blocks s)) as [[rest vs]|] eqn:E.
  - split; [constructor|]. by apply HS, array_pop_Some.
  - by split; [constructor|].
Qed.

Lemma spec_for_each {A} (P : VmState → Prop) I (f : A → Gen unit) (l : list A) s :
  (∀ x s', P s' → gen_spec I (λ _, P) (f x s')) →
  P s → gen_spec I (λ _, P) (for_each f l s).
Proof.
  intros Hf. revert s. induction l as [|x l IH]; intros s HP; simpl.
  - by apply spec_ret.
  - apply gen_spec_bind. eapply gen_spec_mono; [done| |by apply Hf].
    intros ? s' HP'. by apply IH.
Qed.

(** One step through a generator built from the machine's primitives. *)
Ltac spec_step :=
  lazymatch goal with
  | |- gen_spec _ _ ((_ ≫= _) _) => apply gen_spec_bind
  | |- gen_spec _ _ (gen_ret _ _) => apply spec_ret
  | |- gen_spec _ _ (get_state _) => apply spec_get_state
  | |- gen_spec _ _ (throw _ _) => apply spec_throw
  | |- gen_spec _ _ (out_of_fuel _) => apply spec_out_of_fuel
  | |- gen_spec _ _ (stack_pop _) => apply spec_stack_pop; [intros ? ? ?|intros ?]
  | |- gen_spec _ _ (stack_push _ _) => apply spec_stack_push
  | |- gen_spec _ _ (vars_push _) => apply spec_vars_push
  | |- gen_spec _ _ (vars_pop _) => apply spec_vars_pop; [intros ? ? ?|intros ?]
  | |- gen_spec _ _ (vars_define _ _ _) => apply spec_vars_define; intros ? ? ?
  | |- gen_spec _ _ (blocks_push _) => apply spec_blocks_push
  | |- gen_spec _ _ (blocks_pop _) => apply spec_blocks_pop; [intros ? ? ?|intros ?]
  | |- gen_spec _ _ (blocks_append _ _) => apply spec_blocks_append; intros ? ? ?
  | |- gen_spec _ _ (yield_stackPopEvent _ _) => apply spec_yield_stackPopEvent
  | |- gen_spec _ _ (yield stateEvent _) => apply spec_yield_state
  | |- gen_spec _ _ (yield _ _) =>
      apply spec_yield;
      [first [apply event_ok_PutsEvent|apply event_ok_StackPopEvent
             |apply event_ok_StateEvent]|]
  | |- gen_spec _ _ (match ?x with _ => _ end _) => destruct x eqn:?
  | |- gen_spec _ _ ((if ?x then _ else _) _) => destruct x eqn:?
  end; cbv beta; cbn [stack vars blocks].

(** ** The scope chain *)

Lemma chain_top_above pre top chain : chain_top pre top chain → chain_above pre top chain.
Proof. intros (top' & -> & H). by exists top', []. Qed.

Lemma chain_top_refl pre top : chain_top pre top (pre ++ [top]).
Proof. by exists top. Qed.

Lemma chain_above_nested pre top top1 chain :
  top ⊆ top1 → chain_above (pre ++ [top1]) ∅ chain → chain_above pre top chain.
Proof.
  intros Hsub (t & extra & -> & _). exists top1, (t :: extra).
  by rewrite <- app_assoc.
Qed.

Lemma scope_define_subseteq (m : gmap string Value) sym v : m ⊆ scope_define m sym v.
Proof.
  unfold scope_define, scope_get.
  destruct (m !! sym) eqn:E; [done|].
  destruct (inherited sym); [done|]. by apply insert_subseteq.
Qed.

Lemma chain_top_define pre top chain rest t sym v :
  chain_top pre top chain → chain = rest ++ [t] →
  chain_top pre top (rest ++ [scope_define t sym v]).
Proof.
  intros (top' & -> & Hsub) [<- <-]%app_inj_tail.
  exists (scope_define top' sym v). split; [done|].
  etrans; [exact Hsub|apply scope_define_subseteq].
Qed.

Section Frame.

Variable ev : Value → Gen unit.

Hypothesis ev_frame : ∀ code, frame_spec (ev code).

Lemma for_each_frame (values : list Value) : frame_spec (for_each ev values).
Proof.
  intros pre top s Hs.
  apply (spec_for_each (λ s', chain_top pre top (vars s'))); [|done].
  intros code s' Hs'. by apply ev_frame.
Qed.

Ltac frame_tac :=
  repeat first
    [ by apply chain_top_above
    | done
    | match goal with
      | |- gen_spec _ _ (ev _ _) =>
          eapply gen_spec_mono; [| |apply ev_frame; eassumption]; simpl;
          [by auto|intros [] ? ?]
      | |- gen_spec _ _ (for_each ev _ _) =>
          eapply gen_spec_mono; [| |apply for_each_frame; eassumption]; simpl;
          [by auto|intros [] ? ?]
      end
    | spec_step ].

Lemma binary_native_frame opname f : frame_spec (binary_native opname f).
Proof. intros pre top s Hs. unfold binary_native. frame_tac. Qed.

Lemma puts_frame : frame_spec puts.
Proof. intros pre top s Hs. unfold puts. frame_tac. Qed.

Lemma opIf_frame : frame_spec (opIf ev).
Proof. intros pre top s Hs. unfold opIf. frame_tac. Qed.

Lemma opExch_frame : frame_spec (opExch ev).
Proof. intros pre top s Hs. unfold opExch. frame_tac. Qed.

Lemma opDef_frame : frame_spec (opDef ev).
Proof.
  intros pre top s Hs. unfold opDef. frame_tac.
  all: simpl in *; try apply chain_top_above; eapply chain_top_define; eauto.
Qed.

Lemma call_native_frame fn : frame_spec (call_native ev fn).
Proof.
  destruct fn; cbn [call_native]; unfold add, sub, mul, div, lt;
    first [apply binary_native_frame|apply puts_frame|apply opIf_frame
          |apply opExch_frame|apply opDef_frame].
Qed.

(** Invoking a block: the scope pushed for it is the one popped, and no
    scope below it changes. *)
Lemma invoke_block_spec (values : list Value) pre top s :
  chain_top pre top (vars s) →
  gen_spec (λ s', chain_above pre top (vars s'))
           (λ _ s', vars s' = vars s)
           ((vars_push ;; yield stateEvent ;; for_each ev values ;;
             vars_pop ;; yield stateEvent) s).
Proof.
  intros Hs. pose proof Hs as (top1 & Hvars & Htop1).
  do 4 spec_step.
  { exists top1, [∅]. by rewrite Hvars, <- app_assoc. }
  spec_step.
  eapply gen_spec_mono;
    [| |apply (for_each_frame values (vars s) ∅); apply chain_top_refl].
  { cbv beta. intros s'. rewrite Hvars. by apply chain_above_nested. }
  intros [] s' (top' & Hs' & _). cbv beta.
  do 2 spec_step.
  - rewrite Hs' in H. apply app_inj_tail in H as [<- _].
    spec_step; [by apply chain_top_above|done].
  - rewrite Hs' in H. by destruct (vars s).
Qed.

Lemma eval_body_frame code : frame_spec (eval_body ev code).
Proof.
  intros pre top s Hs. unfold eval_body.
  spec_step. spec_step. destruct (blocks s) eqn:Hb; [|by frame_tac].
  destruct code; try (by frame_tac).
  destruct (findVar op (vars s)) as [[]|] eqn:Hf; try (by frame_tac).
  - eapply gen_spec_mono; [| |by apply invoke_block_spec]; [done|].
    intros [] s' Hs'. cbv beta in *. by rewrite Hs'.
  - by apply call_native_frame.
Qed.

End Frame.

Lemma eval_frame (fuel : nat) (code : Value) : frame_spec (eval fuel code).
Proof.
  revert code. induction fuel as [|fuel IH]; intros code.
  - intros pre top s Hs. apply spec_out_of_fuel.
  - by apply eval_body_frame.
Qed.

Lemma parse_frame (fuel : nat) (word : string) : frame_spec (parse fuel word).
Proof.
  intros pre top s Hs. unfold parse.
  repeat first
    [ by apply chain_top_above
    | done
    | by apply eval_frame
    | spec_step ].
Qed.

Lemma run_from_frame (fuel : nat) (program : string) : frame_spec (run_from fuel program).
Proof.
  intros pre top s Hs. unfold run_from.
  spec_step. spec_step; [by apply chain_top_above|].
  apply (spec_for_each (λ s', chain_top pre top (vars s'))); [|done].
  intros line s1 Hs1.
  apply (spec_for_each (λ s', chain_top pre top (vars s'))); [|done].
  intros word s2 Hs2. by apply parse_frame.
Qed.

Section NoOpenBlock.

Variable ev : Value → Gen unit.

Hypothesis ev_closed : ∀ code, closed_spec (ev code).

Lemma for_each_closed (values : list Value) : closed_spec (for_each ev values).
Proof.
  intros s Hs. apply (spec_for_each (λ s', blocks s' = [])); [|done].
  intros code s' Hs'. by apply ev_closed.
Qed.

Ltac closed_tac :=
  repeat first
    [ done
    | match goal with
      | |- gen_spec _ _ (ev _ _) =>
          eapply gen_spec_mono; [| |apply ev_closed; eassumption]; cbv beta;
          [by auto|intros [] ? ?]
      | |- gen_spec _ _ (for_each ev _ _) =>
          eapply gen_spec_mono; [| |apply for_each_closed; eassumption]; cbv beta;
          [by auto|intros [] ? ?]
      end
    | spec_step ].

Lemma call_native_closed fn : closed_spec (call_native ev fn).
Proof.
  intros s Hs.
  destruct fn; cbn [call_native];
    unfold add, sub, mul, div, lt, binary_native, puts, opIf, opDef, opExch;
    closed_tac.
Qed.

Lemma eval_body_closed code : closed_spec (eval_body ev code).
Proof.
  intros s Hs. unfold eval_body.
  spec_step. spec_step. rewrite Hs.
  destruct code; try (by closed_tac).
  destruct (findVar op (vars s)) as [[]|] eqn:Hf; try (by closed_tac).
  by apply call_native_closed.
Qed.

End NoOpenBlock.

Lemma eval_closed (fuel : nat) (code : Value) : closed_spec (eval fuel code).
Proof.
  revert code. induction fuel as [|fuel IH]; intros code.
  - intros s Hs. apply spec_out_of_fuel.
  - by apply eval_body_closed.
Qed.

(** What a returned generator guarantees, read off a [gen_spec]. *)
Lemma gen_spec_returned {A} I (Q : A → VmState → Prop) (m : Gen A) s evs a s' :
  gen_spec I Q (m s) → m s = (evs, Returned a s') → Q a s'.
Proof. intros [_ H] E. by rewrite E in H. Qed.

Lemma gen_spec_events {A} I (Q : A → VmState → Prop) (r : list VmEvent * Completion A) :
  gen_spec I Q r → Forall (event_ok I) r.1.
Proof. by intros [H _]. Qed.

(** ** The base scope *)

Lemma native_scope_lookup name fn :
  (name, fn) ∈ native_bindings → native_scope !! name = Some (Native fn).
Proof.
  unfold native_bindings. intros H.
  repeat (apply elem_of_cons in H as [[= -> ->]|H]; [by vm_compute|]).
  by apply elem_of_nil in H.
Qed.

Lemma chain_above_base chain :
  chain_above [] native_scope chain →
  ∃ base rest, chain = base :: rest ∧
    ∀ name fn, (name, fn) ∈ native_bindings → base !! name = Some (Native fn).
Proof.
  intros (base & rest & -> & Hsub). exists base, rest. split; [done|].
  intros name fn H. eapply lookup_weaken; [|exact Hsub].
  by apply native_scope_lookup.
Qed.

(** C8: for every program and every recursion budget, the state shown by
    every emitted event has a scope chain with at least one scope, whose
    scope at index 0 still binds [+ - * / < if def exch puts] to their
    natives; the same holds of the state the run ends in. Scope pops only
    ever remove scopes pushed above the base. *)
Theorem base_scope_never_popped (fuel : nat) (program : string) :
  Forall (event_ok base_scope_intact) (run fuel program).1 ∧
  (∀ s, final_state (run fuel program) = Some s → base_scope_intact s).
Proof.
  pose proof (run_from_frame fuel program [] native_scope initial_state
                (chain_top_refl [] native_scope)) as [Hevs Hfin].
  fold (run fuel program) in Hevs, Hfin. split.
  - eapply Forall_impl; [exact Hevs|]. intros e He s Hs.
    apply chain_above_base. by apply He.
  - unfold final_state. intros s Hs.
    destruct (run fuel program).2 as [[] s'| |]; [|done..].
    injection Hs as <-. by apply chain_above_base, chain_top_above.
Qed.

Lemma base_scope_never_popped_witness :
  Forall (event_ok base_scope_intact) (run 3 "/f { /y 5 def } def f").1 ∧
  (∀ s, final_state (run 3 "/f { /y 5 def } def f") = Some s → base_scope_intact s).
Proof.
  apply (base_scope_never_popped 3 "/f { /y 5 def } def f").
Defined.

(** ** Evaluation, case by case *)

Lemma get_state_bind {A} (f : VmState → Gen A) s : (get_state ≫= f) s = f s s.
Proof.
  unfold mbind, gen_mbind, gen_bind, get_state. by destruct (f s s).
Qed.

Lemma eval_open_block (fuel : nat) (code : Value) (s : VmState) :
  blocks s ≠ [] →
  eval (S fuel) code s = (blocks_append code ;; yield stateEvent) s.
Proof.
  intros Hb. cbn [eval]. unfold eval_body. rewrite get_state_bind.
  by destruct (blocks s).
Qed.

Lemma eval_data (fuel : nat) (code : Value) (s : VmState) :
  blocks s = [] → (∀ op, code ≠ Operator op) →
  eval (S fuel) code s = (stack_push code ;; yield stateEvent) s.
Proof.
  intros Hb Hop. cbn [eval]. unfold eval_body. rewrite get_state_bind, Hb.
  destruct code; try done. by destruct (Hop op).
Qed.

Lemma eval_undefined (fuel : nat) (op : string) (s : VmState) :
  blocks s = [] → findVar op (vars s) = None →
  eval (S fuel) (Operator op) s = ([], Thrown (NotDefined op)).
Proof.
  intros Hb Hf. cbn [eval]. unfold eval_body. by rewrite get_state_bind, Hb, Hf.
Qed.

Lemma eval_block_operator (fuel : nat) (op : string) (values : list Value) (s : VmState) :
  blocks s = [] → findVar op (vars s) = Some (Block values) →
  eval (S fuel) (Operator op) s =
    (vars_push ;; yield stateEvent ;; for_each (eval fuel) values ;;
     vars_pop ;; yield stateEvent) s.
Proof.
  intros Hb Hf. cbn [eval]. unfold eval_body. by rewrite get_state_bind, Hb, Hf.
Qed.

Lemma eval_native_operator (fuel : nat) (op : string) (fn : NativeFn) (s : VmState) :
  blocks s = [] → findVar op (vars s) = Some (Native fn) →
  eval (S fuel) (Operator op) s = call_native (eval fuel) fn s.
Proof.
  intros Hb Hf. cbn [eval]. unfold eval_body. by rewrite get_state_bind, Hb, Hf.
Qed.

Lemma findVar_nil (word : string) : findVar word [] = None.
Proof. reflexivity. Qed.

Lemma snoc_or_nil {A} (l : list A) : l = [] ∨ ∃ l' x, l = l' ++ [x].
Proof.
  destruct (array_pop l) as [[l' x]|] eqn:E.
  - right. exists l', x. by apply array_pop_Some.
  - left. by apply array_pop_nil_iff.
Qed.

(** C6: invoking an Operator bound to a Block, from a state with no open
    block, pushes one empty scope, evaluates the captured values in order,
    pops a scope and reports the state; when the invocation returns, the
    scope chain is the one before the invocation, so every name resolves as
    before, and a name that was unbound before (such as one bound by [def]
    inside the invocation) is still unbound: evaluating it as an Operator
    throws the not-a-defined-operation error. *)
Theorem block_invocation_restores_scopes
    (fuel : nat) (name : string) (values : list Value) (s : VmState) :
  blocks s = [] →
  findVar name (vars s) = Some (Block values) →
  eval (S fuel) (Operator name) s =
    (vars_push ;; yield stateEvent ;; for_each (eval fuel) values ;;
     vars_pop ;; yield stateEvent) s ∧
  (∀ evs s', eval (S fuel) (Operator name) s = (evs, Returned tt s') →
    vars s' = vars s ∧
    (∀ x, findVar x (vars s') = findVar x (vars s)) ∧
    (∀ x fuel', findVar x (vars s) = None →
       eval (S fuel') (Operator x) s' = ([], Thrown (NotDefined x)))) ∧
  (∀ k, final_stack (run (3 + k) "/f { /y 5 def y } def f") = Some [lit 5] ∧
        thrown (run (3 + k) "/f { /y 5 def y } def f y") = Some (NotDefined "y")).
Proof.
  intros Hb Hf. split; [by apply eval_block_operator|].
  split; [|intros k; split; rewrite run_at_least by (by vm_compute); by vm_compute].
  intros evs s' Hrun.
  assert (vars s' = vars s) as Hvars.
  { destruct (snoc_or_nil (vars s)) as [E|(pre & top & E)].
    { by rewrite E, findVar_nil in Hf. }
    rewrite (eval_block_operator fuel name values) in Hrun by done.
    assert (chain_top pre top (vars s)) as Hc by (rewrite E; apply chain_top_refl).
    pose proof (invoke_block_spec (eval fuel) (eval_frame fuel) values pre top s Hc)
      as Hspec.
    exact (gen_spec_returned _ _ _ _ _ _ _ Hspec Hrun). }
  assert (blocks s' = []) as Hb'.
  { exact (gen_spec_returned _ _ _ _ _ _ _ (eval_closed _ _ s Hb) Hrun). }
  split; [done|]. split; [by rewrite Hvars|].
  intros x fuel' Hx. apply eval_undefined; [done|]. by rewrite Hvars.
Qed.

Lemma block_invocation_restores_scopes_witness :
  eval 3 (Operator "f") scope_with_block =
    (vars_push ;; yield stateEvent ;;
     for_each (eval 2) [Symbol "y"; Num (Js.of_Z 5); Operator "def"] ;;
     vars_pop ;; yield stateEvent) scope_with_block ∧
  ∀ evs s', eval 3 (Operator "f") scope_with_block = (evs, Returned tt s') →
    vars s' = vars scope_with_block ∧
    (∀ x, findVar x (vars s') = findVar x (vars scope_with_block)) ∧
    (∀ x fuel', findVar x (vars scope_with_block) = None →
       eval (S fuel') (Operator x) s' = ([], Thrown (NotDefined x))).
Proof.
  destruct (block_invocation_restores_scopes 2 "f"
              [Symbol "y"; Num (Js.of_Z 5); Operator "def"] scope_with_block)
    as (Hsteps & Hreturn & _).
  - reflexivity.
  - vm_compute. reflexivity.
  - split; [exact Hsteps|exact Hreturn].
Defined.

(** ** Running the primitives on a known state *)

Lemma stack_pop_snoc st v vs bs :
  stack_pop (mkState (st ++ [v]) vs bs) = ([], Returned (Some v) (mkState st vs bs)).
Proof. unfold stack_pop. cbn [stack vars blocks]. by rewrite array_pop_snoc. Qed.

Lemma stack_pop_empty vs bs :
  stack_pop (mkState [] vs bs) = ([], Returned None (mkState [] vs bs)).
Proof. reflexivity. Qed.

Lemma stack_push_run v st vs bs :
  stack_push v (mkState st vs bs) = ([], Returned tt (mkState (st ++ [v]) vs bs)).
Proof. reflexivity. Qed.

Lemma yield_run e s : yield e s = ([e s], Returned tt s).
Proof. reflexivity. Qed.

Lemma yield_stackPopEvent_run v s :
  yield_stackPopEvent (Some v) s = ([StackPopEvent s v], Returned tt s).
Proof. reflexivity. Qed.

Lemma vars_define_snoc sym v st pre top bs :
  vars_define sym v (mkState st (pre ++ [top]) bs) =
    ([], Returned tt (mkState st (pre ++ [scope_define top sym v]) bs)).
Proof. unfold vars_define. cbn [stack vars blocks]. by rewrite array_pop_snoc. Qed.

Lemma blocks_append_snoc code st vs bs cur :
  blocks_append code (mkState st vs (bs ++ [cur])) =
    ([], Returned tt (mkState st vs (bs ++ [cur ++ [code]]))).
Proof. unfold blocks_append. cbn [stack vars blocks]. by rewrite array_pop_snoc. Qed.

Lemma blocks_pop_snoc st vs bs cur :
  blocks_pop (mkState st vs (bs ++ [cur])) = ([], Returned (Some cur) (mkState st vs bs)).
Proof. unfold blocks_pop. cbn [stack vars blocks]. by rewrite array_pop_snoc. Qed.

Lemma blocks_push_run st vs bs :
  blocks_push (mkState st vs bs) = ([], Returned tt (mkState st vs (bs ++ [[]]))).
Proof. reflexivity. Qed.

Lemma eval_data_run (fuel : nat) (code : Value) st vs :
  (∀ op, code ≠ Operator op) →
  eval (S fuel) code (mkState st vs []) =
    ([StateEvent (mkState (st ++ [code]) vs [])],
     Returned tt (mkState (st ++ [code]) vs [])).
Proof. intros H. by rewrite eval_data. Qed.

Lemma eval_capture_run (fuel : nat) (code : Value) st vs bs cur :
  eval (S fuel) code (mkState st vs (bs ++ [cur])) =
    ([StateEvent (mkState st vs (bs ++ [cur ++ [code]]))],
     Returned tt (mkState st vs (bs ++ [cur ++ [code]]))).
Proof.
  rewrite eval_open_block by (cbn; by destruct bs).
  erewrite gen_bind_returned by apply blocks_append_snoc. reflexivity.
Qed.

(** Run a generator step by step from a state whose arrays are known. *)
Ltac gen_run :=
  repeat first
    [ erewrite gen_bind_returned by
        first [ apply stack_pop_snoc | apply stack_pop_empty | apply stack_push_run
              | apply yield_run | apply yield_stackPopEvent_run
              | apply vars_define_snoc | apply blocks_append_snoc
              | apply blocks_pop_snoc | apply blocks_push_run
              | apply eval_capture_run
              | apply eval_data_run; by auto ]
    | rewrite gen_bind_assoc
    | rewrite yield_run
    | rewrite eval_capture_run
    | rewrite eval_data_run by auto
    | progress cbn [fst snd app gen_ret] ].

(** ** [exch] *)

(** C5: from a state with no open block whose operand stack ends with
    [second] and, on top, [last], [exch] pops [last], pops [second],
    evaluates [second], and -- when that evaluation returns -- pushes [last]
    and then [second] on the stack the evaluation left: [second] ends on top
    with [last] directly beneath it.  When [second] is not an Operator its
    evaluation pushes it back, and the run returns with the stack
    [rest ++ [second; last; second]]. *)
Theorem exch_puts_second_on_top
    (fuel : nat) (rest : list Value) (second last : Value)
    (scopes : list (gmap string Value)) :
  let s := mkState (rest ++ [second; last]) scopes [] in
  let s1 := mkState (rest ++ [second]) scopes [] in
  let s2 := mkState rest scopes [] in
  opExch (eval fuel) s =
    ( [StackPopEvent s1 last; StackPopEvent s2 second] ++
      (eval fuel second s2).1 ++
      match (eval fuel second s2).2 with
      | Returned _ s3 =>
          [ StateEvent (mkState (stack s3 ++ [last]) (vars s3) (blocks s3));
            StateEvent (mkState (stack s3 ++ [last; second]) (vars s3) (blocks s3)) ]
      | _ => []
      end,
      match (eval fuel second s2).2 with
      | Returned _ s3 =>
          Returned tt (mkState (stack s3 ++ [last; second]) (vars s3) (blocks s3))
      | Thrown e => Thrown e
      | OutOfFuel => OutOfFuel
      end ) ∧
  ((∀ op, second ≠ Operator op) →
   final_stack (opExch (eval (S fuel)) s) = Some (rest ++ [second; last; second])).
Proof.
  intros s s1 s2. subst s s1 s2.
  replace (rest ++ [second; last]) with ((rest ++ [second]) ++ [last])
    by by rewrite <- app_assoc.
  split.
  - unfold opExch. gen_run.
    rewrite gen_bind_unfold. unfold gen_bind.
    destruct (eval fuel second _) as [evs [[] [st3 vs3 bs3]| |]]; cbn [fst snd];
      [|by rewrite app_nil_r..].
    gen_run. cbn [stack vars blocks]. by rewrite <- !app_assoc.
  - intros Hdata. unfold opExch. gen_run.
    unfold final_stack, final_state. cbn. by rewrite <- !app_assoc.
Qed.

Lemma exch_puts_second_on_top_witness :
  final_stack (opExch (eval 1)
                 (mkState ([] ++ [Num (Js.of_Z 1); Num (Js.of_Z 2)]) [native_scope] []))
  = Some ([] ++ [Num (Js.of_Z 1); Num (Js.of_Z 2); Num (Js.of_Z 1)]).
Proof.
  apply (exch_puts_second_on_top 0 [] (Num (Js.of_Z 1)) (Num (Js.of_Z 2)) [native_scope]).
  intros op. discriminate.
Defined.

(** ** Block capture *)

(** C3: while a block is open, [eval] appends the value it is handed,
    whatever its kind, to the innermost open block, reports the state, and
    neither runs the value nor touches the operand stack or the scopes.
    The program [{ 1 2 + }] therefore performs no addition: every event is
    a plain state snapshot, the operand stack stays empty until the closing
    brace, and the run ends with the one captured Block on the stack. *)
Theorem open_block_defers_evaluation (fuel : nat) (code : Value) (s : VmState) :
  blocks s ≠ [] →
  (∃ older innermost,
     blocks s = older ++ [innermost] ∧
     let s' := mkState (stack s) (vars s) (older ++ [innermost ++ [code]]) in
     eval (S fuel) code s = ([StateEvent s'], Returned tt s')) ∧
  (∀ k, let r := run (1 + k) "{ 1 2 + }" in
        final_stack r = Some [Block [lit 1; lit 2; Operator "+"]] ∧
        event_kind <$> r.1 =
          ["state"; "state"; "state"; "state"; "state"; "state"; "state"] ∧
        stacks_seen r.1 =
          [[]; []; []; []; []; []; [Block [lit 1; lit 2; Operator "+"]]]).
Proof.
  intros Hb. split.
  - destruct (snoc_or_nil (blocks s)) as [E|(older & innermost & E)]; [done|].
    exists older, innermost. split; [done|].
    destruct s as [st vs bs]. cbn [stack vars blocks] in *. subst bs.
    apply eval_capture_run.
  - intros k r. subst r. rewrite run_at_least by (by vm_compute).
    by vm_compute.
Qed.

Lemma open_block_defers_evaluation_witness :
  (∃ older innermost,
     blocks (mkState [] [native_scope] [[lit 1]]) = older ++ [innermost] ∧
     let s' := mkState [] [native_scope] (older ++ [innermost ++ [Operator "+"]]) in
     eval 1 (Operator "+") (mkState [] [native_scope] [[lit 1]])
       = ([StateEvent s'], Returned tt s')) ∧
  (∀ k, let r := run (1 + k) "{ 1 2 + }" in
        final_stack r = Some [Block [lit 1; lit 2; Operator "+"]] ∧
        event_kind <$> r.1 =
          ["state"; "state"; "state"; "state"; "state"; "state"; "state"] ∧
        stacks_seen r.1 =
          [[]; []; []; []; []; []; [Block [lit 1; lit 2; Operator "+"]]]).
Proof.
  apply (open_block_defers_evaluation 0 (Operator "+")
           (mkState [] [native_scope] [[lit 1]])).
  discriminate.
Defined.

(** ** [def] *)

(** C2: [def] never overwrites.  Whenever a [def] returns, the scope chain
    below the topmost scope is unchanged and every binding the topmost
    scope had is still there with the same value.  For a value that is not
    an Operator, [def] on a stack ending with [Symbol sym] and the value
    binds [sym] in the topmost scope exactly when reading [sym] from that
    scope gives nothing, and otherwise (the scope binds [sym] already, or
    [sym] names a member every object inherits) leaves the scope as it is.
    [/x 10 def x] leaves Number 10 on the stack, and so does
    [/x 10 def /x 20 def x]. *)
Theorem def_never_overwrites
    (fuel : nat) (rest : list Value) (sym : string) (v : Value)
    (pre : list (gmap string Value)) (top : gmap string Value) :
  (∀ op, v ≠ Operator op) →
  final_state (opDef (eval (S fuel)) (mkState (rest ++ [Symbol sym; v]) (pre ++ [top]) []))
    = Some (mkState rest (pre ++ [scope_define top sym v]) []) ∧
  (∀ old, top !! sym = Some old → scope_define top sym v = top) ∧
  (inherited sym = true → scope_define top sym v = top) ∧
  (scope_get top sym = None → scope_define top sym v = <[sym := v]> top) ∧
  (∀ s evs s', vars s = pre ++ [top] →
     opDef (eval fuel) s = (evs, Returned tt s') →
     ∃ top', vars s' = pre ++ [top'] ∧ top ⊆ top') ∧
  (∀ k, final_stack (run (2 + k) "/x 10 def x") = Some [lit 10]) ∧
  (∀ k, final_stack (run (2 + k) "/x 10 def /x 20 def x") = Some [lit 10]).
Proof.
  intros Hdata. split; [|split; [|split; [|split; [|split; [|split]]]]].
  - replace (rest ++ [Symbol sym; v]) with ((rest ++ [Symbol sym]) ++ [v])
      by by rewrite <- app_assoc.
    unfold opDef. gen_run. reflexivity.
  - intros old Hold. unfold scope_define, scope_get. by rewrite Hold.
  - intros Hin. unfold scope_define, scope_get. rewrite Hin.
    by destruct (top !! sym).
  - intros Hnone. unfold scope_define. by rewrite Hnone.
  - intros s evs s' Hs Hrun.
    assert (chain_top pre top (vars s)) as Hc by (rewrite Hs; apply chain_top_refl).
    exact (gen_spec_returned _ _ _ _ _ _ _
             (opDef_frame (eval fuel) (eval_frame fuel) pre top s Hc) Hrun).
  - intros k. rewrite run_at_least by (by vm_compute). by vm_compute.
  - intros k. rewrite run_at_least by (by vm_compute). by vm_compute.
Qed.

Lemma def_never_overwrites_witness :
  final_state (opDef (eval 1)
                 (mkState ([] ++ [Symbol "x"; lit 20]) ([] ++ [<["x" := lit 10]> native_scope]) []))
    = Some (mkState [] ([] ++ [scope_define (<["x" := lit 10]> native_scope) "x" (lit 20)]) []) ∧
  scope_define (<["x" := lit 10]> native_scope) "x" (lit 20) = <["x" := lit 10]> native_scope.
Proof.
  destruct (def_never_overwrites 0 [] "x" (lit 20) [] (<["x" := lit 10]> native_scope))
    as (Hrun & Hkeep & _).
  - intros op. discriminate.
  - split; [exact Hrun|]. apply (Hkeep (lit 10)). apply lookup_insert_eq.
Defined.

(** ** [if] *)

(** C4, as the claim states it, fails: with the Number 1 where [if] expects
    its condition, no budget makes the run end with Number 2 on top. *)
Lemma if_number_condition_counterexample :
  ¬ ∃ fuel rest,
      final_stack (run fuel "1 { 2 } { 3 } if") = Some (rest ++ [lit 2]).
Proof.
  intros (fuel & rest & H). unfold final_stack, final_state in H.
  destruct (run_any_fuel 1 fuel "1 { 2 } { 3 } if") as [E|E].
  - by vm_compute.
  - by rewrite E in H.
  - rewrite E in H. vm_compute in H. discriminate.
Qed.

(** C4, amended: the condition of [if] is a Block.  [{ 1 } { 2 } { 3 } if]
    ends with Number 2 on top (the condition Block is evaluated in place and
    leaves Number 1, which is not zero, so the true branch runs) and
    [{ 0 } { 2 } { 3 } if] ends with Number 3 on top; with a Number as the
    condition, as in [1 { 2 } { 3 } if], [if] throws the expect-block
    error after its three pops. *)
Theorem if_takes_condition_block (k : nat) :
  final_stack (run (2 + k) "{ 1 } { 2 } { 3 } if") = Some [lit 2] ∧
  final_stack (run (2 + k) "{ 0 } { 2 } { 3 } if") = Some [lit 3] ∧
  thrown (run (2 + k) "1 { 2 } { 3 } if") = Some ExpectBlock ∧
  event_kind <$> (run (2 + k) "1 { 2 } { 3 } if").1 =
    [ "state"; "state"; "state"; "state"; "state"; "state"; "state"; "state";
      "state"; "state"; "stackPop"; "stackPop"; "stackPop" ].
Proof.
  repeat split; rewrite run_at_least by (by vm_compute); by vm_compute.
Qed.

(** ** The driver's word list *)

Lemma split_nonempty sep s : split sep s ≠ [].
Proof.
  destruct s as [|c s]; simpl; [done|].
  destruct (Ascii.eqb c sep); [done|]. by destruct (split sep s).
Qed.

Lemma words_nonempty p : words p ≠ [].
Proof.
  unfold words. destruct (split newline p) as [|l ls] eqn:E.
  - by apply split_nonempty in E.
  - simpl. destruct (split space l) eqn:E'; [|done].
    by apply split_nonempty in E'.
Qed.

Lemma words_cons c p :
  words (String c p) =
    if is_separator c then EmptyString :: words p
    else match words p with
         | w :: ws => String c w :: ws
         | [] => [String c EmptyString]
         end.
Proof.
  unfold words, is_separator. cbn [split].
  destruct (Ascii.eqb c newline) eqn:Enl.
  - reflexivity.
  - destruct (split newline p) as [|l ls] eqn:E.
    { by apply split_nonempty in E. }
    cbn [orb mbind list_bind app]. cbn [split].
    destruct (Ascii.eqb c space); [done|].
    destruct (split space l) as [|w ws] eqn:E'; [|done].
    by apply split_nonempty in E'.
Qed.

Lemma words_app_separator p1 sep p2 :
  is_separator sep = true → words (p1 +:+ String sep p2) = words p1 ++ words p2.
Proof.
  intros Hsep. induction p1 as [|c p1 IH].
  - change (words (String sep p2) = [EmptyString] ++ words p2).
    by rewrite words_cons, Hsep.
  - change (words (String c (p1 +:+ String sep p2)) = words (String c p1) ++ words p2).
    rewrite !words_cons, IH. destruct (is_separator c); [done|].
    destruct (words p1) as [|w ws] eqn:E; [|done].
    by apply words_nonempty in E.
Qed.

Lemma run_from_words fuel program s :
  run_from fuel program s = (yield stateEvent ;; for_each (parse fuel) (words program)) s.
Proof.
  unfold run_from. apply gen_bind_ext. intros _ s'. apply for_each_bind.
Qed.

(** ** Errors *)

Lemma run_words fuel program :
  run fuel program =
    (StateEvent initial_state :: (for_each (parse fuel) (words program) initial_state).1,
     (for_each (parse fuel) (words program) initial_state).2).
Proof.
  unfold run. rewrite run_from_words.
  by rewrite (gen_bind_returned _ _ _ _ _ _ (yield_run stateEvent initial_state)).
Qed.

Lemma run_thrown_prefix fuel p1 sep p2 e :
  is_separator sep = true →
  thrown (run fuel p1) = Some e →
  run fuel (p1 +:+ String sep p2) = run fuel p1.
Proof.
  intros Hsep Hthrown. rewrite !run_words in *.
  rewrite words_app_separator by done.
  unfold thrown in Hthrown. cbn [snd] in Hthrown.
  destruct (for_each (parse fuel) (words p1) initial_state) as [evs [[] s'|e'|]] eqn:E;
    [done| |done].
  by rewrite (for_each_thrown _ _ _ _ _ _ E).
Qed.

(** C7: an error ends the run at once.  A generator that throws passes the
    error on with the events yielded so far and runs nothing of what
    follows it; a run that throws is not changed by any program text after
    the word that threw, so no event follows the error.  [puts] on an empty
    operand stack throws the stack-pop error, an Operator that no scope
    binds throws the not-a-defined-operation error naming it, and
    [1 2 if] throws the expect-block error once its first pop has been
    reported. *)
Theorem errors_abort_the_run
    (fuel : nat) (p1 p2 : string) (sep : ascii) (e : VmError) :
  is_separator sep = true →
  thrown (run fuel p1) = Some e →
  run fuel (p1 +:+ String sep p2) = run fuel p1 ∧
  (∀ A B (m : Gen A) (f : A → Gen B) s evs,
     m s = (evs, Thrown e) → (m ≫= f) s = (evs, Thrown e)) ∧
  (∀ scopes open, puts (mkState [] scopes open) = ([], Thrown StackPopError)) ∧
  (∀ op s, blocks s = [] → findVar op (vars s) = None →
     eval (S fuel) (Operator op) s = ([], Thrown (NotDefined op))) ∧
  (∀ k, thrown (run (1 + k) "puts") = Some StackPopError ∧
        event_kind <$> (run (1 + k) "puts").1 = ["state"]) ∧
  (∀ k, thrown (run (1 + k) "foo") = Some (NotDefined "foo") ∧
        event_kind <$> (run (1 + k) "foo").1 = ["state"]) ∧
  (∀ k, thrown (run (1 + k) "1 2 if") = Some ExpectBlock ∧
        event_kind <$> (run (1 + k) "1 2 if").1 =
          ["state"; "state"; "state"; "stackPop"]).
Proof.
  intros Hsep Hthrown.
  split; [by apply run_thrown_prefix with e|].
  split; [intros; by apply gen_bind_thrown|].
  split; [done|].
  split; [intros; by apply eval_undefined|].
  repeat split; rewrite run_at_least by (by vm_compute); by vm_compute.
Qed.

Lemma errors_abort_the_run_witness :
  run 1 ("1 2 if" +:+ String space "3 4 +") = run 1 "1 2 if".
Proof.
  destruct (errors_abort_the_run 1 "1 2 if" "3 4 +" space ExpectBlock) as [H _].
  - reflexivity.
  - vm_compute. reflexivity.
  - exact H.
Defined.

(** ** Number parsing *)

Section Rounding.

Local Open Scope Z_scope.

Lemma shr_1_nonneg mrs : 0 ≤ shr_m mrs → 0 ≤ shr_m (shr_1 mrs).
Proof.
  destruct mrs as [m r s]. destruct m as [|[p|p|]|[p|p|]]; simpl; lia.
Qed.

Lemma iter_shr_1_nonneg p mrs : 0 ≤ shr_m mrs → 0 ≤ shr_m (SpecFloat.iter_pos shr_1 p mrs).
Proof.
  revert mrs. induction p as [p IH|p IH|]; intros mrs H; simpl.
  - by apply IH, IH, shr_1_nonneg.
  - by apply IH, IH.
  - by apply shr_1_nonneg.
Qed.

Lemma shr_fexp_nonneg m e l :
  0 ≤ m → 0 ≤ shr_m (shr_fexp Js.prec Js.emax m e l).1.
Proof.
  intros H. unfold shr_fexp, shr.
  assert (0 ≤ shr_m (shr_record_of_loc m l)) by (by destruct l as [|[]]).
  destruct (fexp _ _ _ - e); simpl; [done| |done].
  by apply iter_shr_1_nonneg.
Qed.

Lemma round_nearest_even_nonneg m l : 0 ≤ m → 0 ≤ round_nearest_even m l.
Proof.
  intros H. destruct l as [|[]]; simpl; try lia. destruct (Z.even m); lia.
Qed.

Lemma binary_round_aux_not_nan sx mx ex lx :
  0 ≤ mx → Js.isNaN (binary_round_aux Js.prec Js.emax sx mx ex lx) = false.
Proof.
  intros H. unfold binary_round_aux.
  pose proof (shr_fexp_nonneg mx ex lx H) as H1.
  destruct (shr_fexp Js.prec Js.emax mx ex lx) as [mrs' e']. simpl in H1.
  pose proof (shr_fexp_nonneg _ e' loc_Exact
                (round_nearest_even_nonneg _ (loc_of_shr_record mrs') H1)) as H2.
  destruct (shr_fexp Js.prec Js.emax _ e' loc_Exact) as [mrs'' e'']. simpl in H2.
  destruct (shr_m mrs''); [done| |lia].
  by destruct (e'' <=? Js.emax - Js.prec).
Qed.

Lemma binary_normalize_not_nan m e szero :
  Js.isNaN (binary_normalize Js.prec Js.emax m e szero) = false.
Proof.
  destruct m; simpl; [done| |]; unfold binary_round;
    destruct (shl_align _ _ _); by apply binary_round_aux_not_nan.
Qed.

Lemma decimal_to_number_not_nan neg m e10 :
  0 ≤ m → Js.isNaN (Js.decimal_to_number neg m e10) = false.
Proof.
  intros H. unfold Js.decimal_to_number.
  destruct (m =? 0); [done|].
  destruct (0 <=? e10) eqn:He; [apply binary_normalize_not_nan|].
  apply Z.leb_gt in He.
  set (d := 10 ^ (- e10)). set (s := Z.max 0 _).
  assert (0 < d) by (apply Z.pow_pos_nonneg; lia).
  pose proof (Z.div_pos (Z.shiftl m s) d) as Hq.
  unfold Z.div in Hq. destruct (Z.div_eucl (Z.shiftl m s) d) as [q r].
  apply binary_round_aux_not_nan. apply Hq; [|done].
  by apply Z.shiftl_nonneg.
Qed.

Lemma digit_value_nonneg c : Js.is_digit c = true → 0 ≤ Js.digit_value c.
Proof.
  unfold Js.is_digit, Js.digit_value. intros H.
  apply andb_prop in H as [H _]. apply N.leb_le in H. lia.
Qed.

Lemma span_digits_value_nonneg s acc :
  0 ≤ acc → 0 ≤ Js.digits_value acc (Js.span_digits s).1.
Proof.
  revert acc. induction s as [|c s IH]; intros acc H; simpl; [done|].
  destruct (Js.is_digit c) eqn:E; [|done].
  destruct (Js.span_digits s) as [ds r]. simpl in *.
  apply IH. pose proof (digit_value_nonneg c E). lia.
Qed.

Lemma digits_value_app acc ds1 ds2 :
  Js.digits_value acc (ds1 +:+ ds2) = Js.digits_value (Js.digits_value acc ds1) ds2.
Proof.
  revert acc. induction ds1 as [|c ds1 IH]; intros acc; simpl; [done|]. apply IH.
Qed.

End Rounding.

Lemma scan_unsigned_wf s l r : Js.scan_unsigned s = Some (l, r) → literal_wf l.
Proof.
  unfold Js.scan_unsigned.
  destruct (Js.starts_with "Infinity" s); [by intros [= <- _]|].
  pose proof (span_digits_value_nonneg s 0 ltac:(done)) as Hip.
  destruct (Js.span_digits s) as [ip s1]. simpl in Hip.
  assert (∀ s2, (0 ≤ Js.digits_value 0 (ip +:+ (Js.span_digits s2).1))%Z) as Hfp.
  { intros s2. rewrite digits_value_app. by apply span_digits_value_nonneg. }
  destruct s1 as [|c s2].
  - destruct ip; [done|]. destruct (Js.scan_exponent _). by intros [= <- _].
  - destruct (Ascii.eqb c ".") eqn:Ec.
    + apply Ascii.eqb_eq in Ec as ->. specialize (Hfp s2).
      destruct (Js.span_digits s2) as [fp s3]. simpl in Hfp.
      destruct (Js.scan_exponent s3).
      destruct ip, fp; try done; by intros [= <- _].
    + assert (match ip with
              | EmptyString => None
              | _ => let '(e, r0) := Js.scan_exponent (String c s2) in
                     Some (Js.LitDecimal (Js.digits_value 0 ip) e, r0)
              end = Some (l, r) → literal_wf l) as Hgoal.
      { destruct ip; [done|]. destruct (Js.scan_exponent _). by intros [= <- _]. }
      destruct c as [[] [] [] [] [] [] [] []]; try exact Hgoal; done.
Qed.

Lemma literal_value_not_nan neg l : literal_wf l → Js.isNaN (Js.literal_value neg l) = false.
Proof.
  destruct l; [done|]. by apply decimal_to_number_not_nan.
Qed.

(** [parseFloat] gives [NaN] exactly when no prefix of the trimmed,
    sign-stripped text is a decimal literal. *)
Lemma parseFloat_nan_iff s :
  Js.isNaN (Js.parseFloat s) = true ↔
  Js.scan_unsigned (Js.scan_sign (Js.trim_start s)).2 = None.
Proof.
  unfold Js.parseFloat. destruct (Js.scan_sign _) as [neg u]. simpl.
  destruct (Js.scan_unsigned u) as [[l r]|] eqn:E; [|done].
  rewrite literal_value_not_nan; [done|]. by eapply scan_unsigned_wf.
Qed.

Lemma string_app_nil_l (a : string) : "" +:+ a = a.
Proof. reflexivity. Qed.

Lemma string_app_cons (c : ascii) (a b : string) :
  String c a +:+ b = String c (a +:+ b).
Proof. reflexivity. Qed.

Ltac string_simpl := rewrite ?string_app_cons, ?string_app_nil_l.

Lemma string_app_assoc (a b c : string) : (a +:+ b) +:+ c = a +:+ (b +:+ c).
Proof. induction a as [|x a IH]; string_simpl; [done|]. by f_equal. Qed.

Lemma string_app_empty_r (a : string) : a +:+ "" = a.
Proof. induction a as [|x a IH]; string_simpl; [done|]. by f_equal. Qed.

Lemma ends_literal_no_digit s : ends_literal s → no_digit_ahead s.
Proof. destruct s; [done|]. by intros [? _]. Qed.

Lemma span_digits_app ds rest :
  is_digits ds = true → no_digit_ahead rest →
  Js.span_digits (ds +:+ rest) = (ds, rest).
Proof.
  intros Hds Hrest. induction ds as [|c ds IH]; string_simpl; simpl in *.
  - destruct rest as [|c rest]; [done|]. simpl in *. by rewrite Hrest.
  - apply andb_prop in Hds as [-> Hds]. by rewrite IH.
Qed.

Lemma digits_head ds :
  DecimalDigits ds → ∃ c ds', ds = String c ds' ∧ Js.is_digit c = true.
Proof.
  intros [Hne Hds]. destruct ds as [|c ds']; [done|].
  exists c, ds'. simpl in Hds. by apply andb_prop in Hds as [-> _].
Qed.

Lemma scan_sign_digits ds rest :
  DecimalDigits ds → Js.scan_sign (ds +:+ rest) = (false, ds +:+ rest).
Proof.
  intros (c & ds' & -> & Hc)%digits_head. string_simpl.
  by destruct c as [[] [] [] [] [] [] [] []].
Qed.

Lemma scan_exponent_none rest :
  ends_literal rest → Js.scan_exponent rest = (0%Z, rest).
Proof.
  destruct rest as [|c rest]; [done|]. intros (_ & _ & He & HE). simpl.
  apply Ascii.eqb_neq in He, HE. by rewrite He, HE.
Qed.

Lemma scan_exponent_part e :
  ExponentPart e →
  ∃ z, ∀ rest, no_digit_ahead rest → Js.scan_exponent (e +:+ rest) = (z, rest).
Proof.
  intros [ind sgn ds Hind Hsgn Hds].
  assert ((Ascii.eqb ind "e" || Ascii.eqb ind "E")%bool = true) as Hi
    by (by destruct Hind as [-> | ->]).
  pose proof Hds as (c & ds' & Eds & Hc)%digits_head.
  destruct Hds as [_ Hds].
  destruct Hsgn as [-> | [-> | ->]].
  - exists (Js.digits_value 0 ds). intros rest Hrest.
    string_simpl. cbn [Js.scan_exponent]. rewrite Hi.
    rewrite scan_sign_digits by (split; [by rewrite Eds|done]).
    rewrite span_digits_app by done. by rewrite Eds.
  - exists (Js.digits_value 0 ds). intros rest Hrest.
    string_simpl. cbn [Js.scan_exponent Js.scan_sign]. rewrite Hi.
    rewrite span_digits_app by done. by rewrite Eds.
  - exists (- Js.digits_value 0 ds)%Z. intros rest Hrest.
    string_simpl. cbn [Js.scan_exponent Js.scan_sign]. rewrite Hi.
    rewrite span_digits_app by done. by rewrite Eds.
Qed.

Lemma exponent_part_head e rest :
  ExponentPart e →
  ∃ c r, e +:+ rest = String c r ∧ Js.is_digit c = false ∧ c ≠ "."%char.
Proof.
  intros [ind sgn ds Hind _ _]. exists ind, ((sgn +:+ ds) +:+ rest).
  by destruct Hind as [-> | ->].
Qed.

Lemma not_infinity_prefix c s :
  Js.is_digit c = true ∨ c = "."%char → Js.starts_with "Infinity" (String c s) = false.
Proof.
  intros [H | ->]; [|done].
  destruct c as [[] [] [] [] [] [] [] []]; try discriminate H; reflexivity.
Qed.

Lemma starts_with_app p s : Js.starts_with p (p +:+ s) = true.
Proof.
  unfold Js.starts_with. induction p as [|a p IH]; string_simpl.
  - by destruct s.
  - cbn [String.prefix]. by destruct (ascii_dec a a).
Qed.

Lemma span_digits_point s : Js.span_digits (String "." s) = ("", String "." s).
Proof. reflexivity. Qed.

Lemma mantissa_head m :
  Mantissa m → ∃ c r, m = String c r ∧ (Js.is_digit c = true ∨ c = "."%char).
Proof.
  intros [ip Hip|ip fp Hip _|fp _].
  - destruct (digits_head ip Hip) as (c & r & -> & Hc). exists c, r. auto.
  - destruct (digits_head ip Hip) as (c & r & -> & Hc).
    exists c, (r +:+ "." +:+ fp). auto.
  - exists "."%char, fp. auto.
Qed.

Lemma scan_mantissa m :
  Mantissa m →
  ∃ mantissa frac_digits, ∀ tail z r,
    ends_mantissa tail → Js.scan_exponent tail = (z, r) →
    Js.scan_unsigned (m +:+ tail) = Some (Js.LitDecimal mantissa (z - frac_digits), r).
Proof.
  intros Hm. pose proof (mantissa_head m Hm) as (c0 & r0 & Ehead & Hhead).
  assert (∀ tail, Js.starts_with "Infinity" (m +:+ tail) = false) as Hinf.
  { intros tail. rewrite Ehead. string_simpl. by apply not_infinity_prefix. }
  destruct Hm as [ip Hip|ip fp Hip Hfp|fp Hfp].
  - exists (Js.digits_value 0 ip), 0%Z. intros tail z r Htail Hexp.
    unfold Js.scan_unsigned. rewrite Hinf.
    rewrite span_digits_app; [|by destruct Hip|by destruct tail as [|? ?]; [|destruct Htail]].
    destruct (digits_head ip Hip) as (c & ds & -> & _).
    rewrite Z.sub_0_r.
    destruct tail as [|c' tail]; [by rewrite Hexp|].
    destruct Htail as [_ Hpoint].
    set (X := Js.scan_exponent (String c' tail)) in *. clearbody X. subst X.
    destruct c' as [[] [] [] [] [] [] [] []]; done.
  - exists (Js.digits_value 0 (ip +:+ fp)), (Z.of_nat (String.length fp)).
    intros tail z r Htail Hexp.
    unfold Js.scan_unsigned. rewrite Hinf.
    rewrite !string_app_assoc. string_simpl.
    rewrite (span_digits_app ip) by (by destruct Hip).
    rewrite span_digits_app; [|done|by destruct tail as [|? ?]; [|destruct Htail]].
    destruct (digits_head ip Hip) as (c & ds & -> & _). cbv iota.
    destruct (Js.scan_exponent tail). by injection Hexp as -> ->.
  - exists (Js.digits_value 0 fp), (Z.of_nat (String.length fp)).
    intros tail z r Htail Hexp.
    unfold Js.scan_unsigned. rewrite Hinf. string_simpl.
    rewrite span_digits_point. cbv iota.
    rewrite span_digits_app; [|by destruct Hfp|by destruct tail as [|? ?]; [|destruct Htail]].
    destruct (digits_head fp Hfp) as (c & ds & -> & _). cbv iota.
    destruct (Js.scan_exponent tail). by injection Hexp as -> ->.
Qed.

Lemma ends_literal_mantissa s : ends_literal s → ends_mantissa s.
Proof. destruct s; [done|]. by intros (? & ? & _). Qed.

(** Scanning a literal followed by text that cannot extend it reads the
    literal and stops there. *)
Lemma scan_unsigned_literal u :
  StrUnsignedDecimalLiteral u →
  ∃ l, ∀ rest, ends_literal rest → Js.scan_unsigned (u +:+ rest) = Some (l, rest).
Proof.
  intros [|m Hm|m e Hm He].
  - exists Js.LitInfinity. intros rest _.
    unfold Js.scan_unsigned. by rewrite starts_with_app.
  - destruct (scan_mantissa m Hm) as (mv & fd & Hscan).
    exists (Js.LitDecimal mv (0 - fd)). intros rest Hrest.
    apply Hscan; [by apply ends_literal_mantissa|by apply scan_exponent_none].
  - destruct (scan_mantissa m Hm) as (mv & fd & Hscan).
    destruct (scan_exponent_part e He) as (z & Hz).
    exists (Js.LitDecimal mv (z - fd)). intros rest Hrest.
    rewrite string_app_assoc. apply Hscan.
    + destruct (exponent_part_head e rest He) as (c & r & -> & Hc). exact Hc.
    + by apply Hz, ends_literal_no_digit.
Qed.

Lemma unsigned_literal_head u rest :
  StrUnsignedDecimalLiteral u →
  ∃ c r, u +:+ rest = String c r ∧ literal_start c.
Proof.
  intros [|m Hm|m e Hm He].
  - exists "I"%char, ("nfinity" +:+ rest). split; [done|]. by right; right.
  - destruct (mantissa_head m Hm) as (c & r & -> & Hc). exists c, (r +:+ rest).
    split; [done|]. destruct Hc; [by left|by right; left].
  - destruct (mantissa_head m Hm) as (c & r & -> & Hc).
    exists c, ((r +:+ e) +:+ rest).
    split; [done|]. destruct Hc; [by left|by right; left].
Qed.

Lemma literal_start_plain c s :
  literal_start c →
  Js.is_white_space c = false ∧ Js.scan_sign (String c s) = (false, String c s).
Proof.
  intros [H|[-> | ->]]; [|done..].
  destruct c as [[] [] [] [] [] [] [] []]; try discriminate H; done.
Qed.

(** The text [parseFloat] scans after trimming and sign-stripping
    [lit +:+ rest], for a literal [lit]. *)
Lemma parseFloat_literal_scan lit :
  StrDecimalLiteral lit →
  ∃ neg l, ∀ rest, ends_literal rest →
    Js.parseFloat (lit +:+ rest) = Js.literal_value neg l ∧ literal_wf l.
Proof.
  intros [sgn u Hsgn Hu].
  destruct (scan_unsigned_literal u Hu) as (l & Hl).
  assert (∀ rest, ends_literal rest →
            Js.scan_sign (Js.trim_start (u +:+ rest)) = (false, u +:+ rest)) as Hplain.
  { intros rest _. destruct (unsigned_literal_head u rest Hu) as (c & r & -> & Hc).
    destruct (literal_start_plain c r Hc) as [Hw Hs].
    cbn [Js.trim_start]. by rewrite Hw. }
  assert (∀ rest, Js.scan_sign (Js.trim_start (String "+" (u +:+ rest)))
                  = (false, u +:+ rest)) as Hplus by done.
  assert (∀ rest, Js.scan_sign (Js.trim_start (String "-" (u +:+ rest)))
                  = (true, u +:+ rest)) as Hminus by done.
  destruct Hsgn as [-> | [-> | ->]];
    [exists false, l|exists false, l|exists true, l];
    intros rest Hrest; string_simpl; unfold Js.parseFloat;
    rewrite ?Hplain, ?Hplus, ?Hminus by done; cbv iota; rewrite Hl by done;
    (split; [done|by eapply scan_unsigned_wf, Hl]).
Qed.

(** [parseFloat] reads a literal and ignores what follows it. *)
Lemma parseFloat_prefix lit rest :
  StrDecimalLiteral lit → ends_literal rest →
  Js.parseFloat (lit +:+ rest) = Js.parseFloat lit ∧
  Js.isNaN (Js.parseFloat lit) = false.
Proof.
  intros Hlit Hrest. destruct (parseFloat_literal_scan lit Hlit) as (neg & l & H).
  destruct (H rest Hrest) as [E1 Hwf].
  destruct (H "" I) as [E2 _]. rewrite string_app_empty_r in E2.
  rewrite E1, E2. split; [done|]. by apply literal_value_not_nan.
Qed.

Lemma literal_not_punctuation lit rest :
  StrDecimalLiteral lit →
  lit +:+ rest ≠ "" ∧ lit +:+ rest ≠ "{" ∧ lit +:+ rest ≠ "}".
Proof.
  intros [sgn u Hsgn Hu].
  destruct (unsigned_literal_head u rest Hu) as (c & r & E & Hc).
  rewrite string_app_assoc, E.
  destruct Hsgn as [-> | [-> | ->]]; string_simpl; [|done..].
  destruct Hc as [H|[-> | ->]]; [|done..].
  repeat split; intros [= -> _]; discriminate H.
Qed.

(** ** The longest literal *)

Lemma string_length_app (a b : string) :
  String.length (a +:+ b) = (String.length a + String.length b)%nat.
Proof. induction a as [|c a IH]; string_simpl; cbn; [done|]. by rewrite IH. Qed.

Lemma is_digits_app a b : is_digits (a +:+ b) = is_digits a && is_digits b.
Proof.
  induction a as [|c a IH]; string_simpl; cbn; [done|].
  by rewrite IH, andb_assoc.
Qed.

(** [span_digits] cuts a text into its leading digits and a rest that
    starts with no digit. *)
Lemma span_digits_spec s :
  ∃ ds r, Js.span_digits s = (ds, r) ∧ s = ds +:+ r ∧
          is_digits ds = true ∧ no_digit_ahead r.
Proof.
  induction s as [|c s (ds & r & E & -> & Hds & Hr)].
  - by exists "", "".
  - cbn [Js.span_digits]. destruct (Js.is_digit c) eqn:Hc.
    + exists (String c ds), r. rewrite E. by cbn; rewrite Hc, Hds.
    + by exists "", (String c (ds +:+ r)).
Qed.

Lemma span_digits_more ds rest :
  is_digits ds = true →
  Js.span_digits (ds +:+ rest) =
    (ds +:+ (Js.span_digits rest).1, (Js.span_digits rest).2).
Proof.
  intros Hds. induction ds as [|c ds IH]; string_simpl.
  - by destruct (Js.span_digits rest).
  - cbn in Hds. apply andb_prop in Hds as [Hc Hds].
    cbn [Js.span_digits]. rewrite Hc, IH by done. done.
Qed.

Lemma digits_cons ds : DecimalDigits ds → ∃ c ds', ds = String c ds'.
Proof. intros [Hne _]. destruct ds; [done|]. by eexists _, _. Qed.

Lemma infinity_prefix s :
  Js.starts_with "Infinity" s = true → s = "Infinity" +:+ Js.drop_chars 8 s.
Proof.
  unfold Js.starts_with. intros H.
  repeat (destruct s as [|? s]; [discriminate H|];
          cbn [String.prefix] in H;
          match type of H with
          | (if ?d then _ else _) = _ => destruct d as [<-|]; [|discriminate H]
          end).
  reflexivity.
Qed.

Lemma digits_not_infinity ds tail :
  DecimalDigits ds → Js.starts_with "Infinity" (ds +:+ tail) = false.
Proof.
  intros (c & ds' & -> & Hc)%digits_head. string_simpl.
  apply not_infinity_prefix. by left.
Qed.

(** Scanning digits followed by text that starts with no digit and no
    point. *)
Lemma scan_int ip tail :
  DecimalDigits ip → ends_mantissa tail →
  Js.scan_unsigned (ip +:+ tail) =
    Some (Js.LitDecimal (Js.digits_value 0 ip) (Js.scan_exponent tail).1,
          (Js.scan_exponent tail).2).
Proof.
  intros Hip Htail. unfold Js.scan_unsigned.
  rewrite digits_not_infinity by done.
  rewrite span_digits_app; [|by destruct Hip|by destruct tail as [|? ?]; [|destruct Htail]].
  destruct (digits_head ip Hip) as (c & ds & -> & _).
  destruct tail as [|c' tail]; [done|].
  destruct Htail as [_ Hpoint].
  destruct (Js.scan_exponent (String c' tail)) as [z r] eqn:E. cbn [fst snd].
  destruct c' as [[] [] [] [] [] [] [] []]; done.
Qed.

(** Scanning digits, a point and digits, followed by text that starts with
    no digit. *)
Lemma scan_frac ip fp tail :
  DecimalDigits ip → is_digits fp = true → no_digit_ahead tail →
  Js.scan_unsigned (ip +:+ "." +:+ fp +:+ tail) =
    Some (Js.LitDecimal (Js.digits_value 0 (ip +:+ fp))
            ((Js.scan_exponent tail).1 - Z.of_nat (String.length fp)),
          (Js.scan_exponent tail).2).
Proof.
  intros Hip Hfp Htail. unfold Js.scan_unsigned.
  rewrite digits_not_infinity by done.
  rewrite (span_digits_app ip) by (by destruct Hip).
  string_simpl. rewrite span_digits_app by done.
  destruct (digits_head ip Hip) as (c & ds & -> & _). cbv iota.
  by destruct (Js.scan_exponent tail).
Qed.

(** Scanning a point and digits, followed by text that starts with no
    digit. *)
Lemma scan_dot fp tail :
  DecimalDigits fp → no_digit_ahead tail →
  Js.scan_unsigned ("." +:+ fp +:+ tail) =
    Some (Js.LitDecimal (Js.digits_value 0 fp)
            ((Js.scan_exponent tail).1 - Z.of_nat (String.length fp)),
          (Js.scan_exponent tail).2).
Proof.
  intros Hfp Htail. unfold Js.scan_unsigned. string_simpl.
  rewrite span_digits_point. cbv iota.
  rewrite span_digits_app; [|by destruct Hfp|done].
  destruct (digits_head fp Hfp) as (c & ds & -> & _). cbv iota.
  by destruct (Js.scan_exponent tail).
Qed.

Lemma span_digits_length s :
  (String.length (Js.span_digits s).2 ≤ String.length s)%nat.
Proof.
  destruct (span_digits_spec s) as (ds & r & E & -> & _ & _).
  rewrite E, string_length_app. cbn. lia.
Qed.

Lemma scan_sign_spec s :
  Js.scan_sign s = (false, s) ∨
  (∃ r, s = String "+" r ∧ Js.scan_sign s = (false, r)) ∨
  (∃ r, s = String "-" r ∧ Js.scan_sign s = (true, r)).
Proof.
  destruct s as [|c s]; [by left|].
  destruct c as [[] [] [] [] [] [] [] []];
    first [ by left | right; left; by eexists | right; right; by eexists ].
Qed.

(** What [scan_exponent] consumes is nothing or an exponent part, and the
    rest starts with no digit. *)
Lemma scan_exponent_sound s :
  Js.scan_exponent s = (0%Z, s) ∨
  ∃ e, ExponentPart e ∧ s = e +:+ (Js.scan_exponent s).2 ∧
       no_digit_ahead (Js.scan_exponent s).2.
Proof.
  destruct s as [|c s1]; [by left|]. cbn [Js.scan_exponent].
  destruct (Ascii.eqb c "e" || Ascii.eqb c "E")%bool eqn:Hc; [|by left].
  assert (c = "e"%char ∨ c = "E"%char) as Hind.
  { apply orb_prop in Hc as [H|H]; apply Ascii.eqb_eq in H; auto. }
  assert (∀ sgn neg s2, is_sign sgn → s1 = sgn +:+ s2 → Js.scan_sign s1 = (neg, s2) →
    (let '(neg, s2) := Js.scan_sign s1 in
     let '(ds, r) := Js.span_digits s2 in
     match ds with
     | "" => (0%Z, String c s1)
     | String _ _ => (cond_Zopp neg (Js.digits_value 0 ds), r)
     end) = (0%Z, String c s1) ∨
    ∃ e, ExponentPart e ∧
      String c s1 =
        e +:+ (let '(neg, s2) := Js.scan_sign s1 in
               let '(ds, r) := Js.span_digits s2 in
               match ds with
               | "" => (0%Z, String c s1)
               | String _ _ => (cond_Zopp neg (Js.digits_value 0 ds), r)
               end).2 ∧
      no_digit_ahead (let '(neg, s2) := Js.scan_sign s1 in
               let '(ds, r) := Js.span_digits s2 in
               match ds with
               | "" => (0%Z, String c s1)
               | String _ _ => (cond_Zopp neg (Js.digits_value 0 ds), r)
               end).2) as Hcase.
  { intros sgn neg s2 Hsgn -> ->.
    destruct (span_digits_spec s2) as (ds & r & -> & -> & Hds & Hr).
    destruct ds as [|d ds]; [by left|]. right.
    exists (String c (sgn +:+ String d ds)). cbn [snd].
    split; [by constructor|]. split; [|done].
    string_simpl. by rewrite string_app_assoc. }
  destruct (scan_sign_spec s1) as [E|[(r & -> & E)|(r & -> & E)]].
  - by apply (Hcase "" false s1); [left|..].
  - by apply (Hcase "+" false r); [right; left|..].
  - by apply (Hcase "-" true r); [right; right|..].
Qed.

Lemma scan_exponent_length s :
  (String.length (Js.scan_exponent s).2 ≤ String.length s)%nat.
Proof.
  destruct (scan_exponent_sound s) as [->|(e & _ & E & _)]; [done|].
  rewrite E at 2. rewrite string_length_app. lia.
Qed.

(** An exponent part is consumed whole, whatever follows it. *)
Lemma scan_exponent_covers e rest :
  ExponentPart e →
  (String.length (Js.scan_exponent (e +:+ rest)).2 ≤ String.length rest)%nat.
Proof.
  intros [ind sgn ds Hind Hsgn Hds].
  assert ((Ascii.eqb ind "e" || Ascii.eqb ind "E")%bool = true) as Hi
    by (by destruct Hind as [-> | ->]).
  pose proof Hds as (c & ds' & Eds & Hc)%digits_head.
  pose proof (span_digits_length rest) as Hlen.
  rewrite string_app_cons, string_app_assoc. cbn [Js.scan_exponent]. rewrite Hi.
  assert ((Js.scan_sign (sgn +:+ ds +:+ rest)).2 = ds +:+ rest) as HS.
  { destruct Hsgn as [-> | [-> | ->]]; string_simpl; [|done..].
    by rewrite scan_sign_digits. }
  destruct (Js.scan_sign (sgn +:+ ds +:+ rest)) as [neg s2]. cbn in HS. subst s2.
  rewrite span_digits_more by by destruct Hds.
  rewrite Eds. string_simpl. done.
Qed.

Lemma exponent_tail e rest :
  ExponentPart e → ends_mantissa (e +:+ rest).
Proof.
  intros He. by destruct (exponent_part_head e rest He) as (c & r & -> & Hc).
Qed.

Lemma exponent_ends_mantissa e : ExponentPart e → ends_mantissa e.
Proof.
  intros He. pose proof (exponent_tail e "" He) as H.
  by rewrite string_app_empty_r in H.
Qed.

Lemma exponent_no_digit e : ExponentPart e → no_digit_ahead e.
Proof.
  intros He. pose proof (exponent_ends_mantissa e He) as H.
  destruct e; [done|]. by destruct H.
Qed.

Lemma exponent_alone e rest :
  ExponentPart e → no_digit_ahead rest →
  Js.scan_exponent e = ((Js.scan_exponent (e +:+ rest)).1, "").
Proof.
  intros He Hrest. destruct (scan_exponent_part e He) as (z & Hz).
  rewrite (Hz rest Hrest). cbn [fst].
  rewrite <- (string_app_empty_r e) at 1. by apply Hz.
Qed.

Lemma span_digits_stop s : no_digit_ahead s → Js.span_digits s = ("", s).
Proof. destruct s as [|c s]; [done|]. cbn. by intros ->. Qed.

Lemma no_literal_start s :
  no_digit_ahead s → (∀ r, s ≠ String "." r) →
  Js.starts_with "Infinity" s = false → Js.scan_unsigned s = None.
Proof.
  intros Hs Hpoint Hinf. unfold Js.scan_unsigned. rewrite Hinf.
  rewrite span_digits_stop by done.
  destruct s as [|c s]; [done|].
  destruct (Ascii.eqb_spec c ".") as [->|Hc]; [by destruct (Hpoint s)|].
  destruct c as [[] [] [] [] [] [] [] []]; done.
Qed.

(** What [scan_unsigned] consumes is a literal, and the literal alone
    scans to the same value. *)
Lemma scan_unsigned_sound s l r :
  Js.scan_unsigned s = Some (l, r) →
  ∃ c, s = c +:+ r ∧ StrUnsignedDecimalLiteral c ∧ Js.scan_unsigned c = Some (l, "").
Proof.
  intros H.
  destruct (Js.starts_with "Infinity" s) eqn:Hinf.
  { unfold Js.scan_unsigned in H. rewrite Hinf in H. injection H as <- <-.
    exists "Infinity". split; [by apply infinity_prefix|]. split; [constructor|done]. }
  destruct (span_digits_spec s) as (ip & s1 & _ & -> & Hip & Hs1).
  destruct (decide (ip = "")) as [->|Hne].
  - (* no integer part *)
    rewrite string_app_nil_l in *.
    destruct s1 as [|c s2]; [by rewrite no_literal_start in H|].
    destruct (Ascii.eqb_spec c ".") as [->|Hc];
      [|rewrite no_literal_start in H; [done..|by intros r' [= ->]|done]].
    destruct (span_digits_spec s2) as (fp & s3 & _ & -> & Hfp & Hs3).
    destruct (decide (fp = "")) as [->|Hfne].
    { rewrite string_app_nil_l in *. exfalso.
      unfold Js.scan_unsigned in H. rewrite Hinf in H.
      rewrite span_digits_point in H. cbv iota in H.
      by rewrite (span_digits_stop s3) in H. }
    change (String "." (fp +:+ s3)) with ("." +:+ fp +:+ s3) in *.
    rewrite scan_dot in H by done. injection H as <- <-.
    destruct (scan_exponent_sound s3) as [E|(e & He & E & Hr)].
    + rewrite E. cbn [fst snd]. exists ("." +:+ fp).
      split; [done|]. split; [by apply unsigned_mantissa, mantissa_dot|].
      rewrite <- (string_app_empty_r fp) at 1. by rewrite scan_dot.
    + exists ("." +:+ fp +:+ e). split; [|split].
      * by rewrite E at 1; rewrite !string_app_cons, !string_app_nil_l, string_app_assoc.
      * apply (unsigned_exponent ("." +:+ fp) e); [by apply mantissa_dot|done].
      * rewrite scan_dot by (done || by apply exponent_no_digit).
        by rewrite (exponent_alone e _ He Hr), <- E.
  - (* an integer part *)
    assert (DecimalDigits ip) as Hdip by done.
    assert ((∃ s2, s1 = String "." s2) ∨ ¬ ∃ s2, s1 = String "." s2) as [[s2 ->]|Hnp].
    { destruct s1 as [|c s2]; [by right; intros [? ?]|].
      destruct (Ascii.eqb_spec c ".") as [->|Hc]; [left; by eexists|].
      right. by intros [? [= ->]]. }
    + destruct (span_digits_spec s2) as (fp & s3 & _ & -> & Hfp & Hs3).
      change (ip +:+ String "." (fp +:+ s3)) with (ip +:+ "." +:+ fp +:+ s3) in *.
      rewrite scan_frac in H by done. injection H as <- <-.
      destruct (scan_exponent_sound s3) as [E|(e & He & E & Hr)].
      * rewrite E. cbn [fst snd]. exists (ip +:+ "." +:+ fp).
        split; [by rewrite !string_app_assoc|].
        split; [by apply unsigned_mantissa, mantissa_frac|].
        rewrite <- (string_app_empty_r fp) at 1. by rewrite scan_frac.
      * exists ((ip +:+ "." +:+ fp) +:+ e). split; [|split].
        -- rewrite E at 1. by rewrite !string_app_assoc.
        -- apply unsigned_exponent; [by apply mantissa_frac|done].
        -- rewrite !string_app_assoc.
           rewrite scan_frac by (done || by apply exponent_no_digit).
           by rewrite (exponent_alone e _ He Hr), <- E.
    + assert (ends_mantissa s1) as Hem.
      { destruct s1 as [|c s2]; [done|]. split; [done|].
        intros ->. apply Hnp. by eexists. }
      rewrite scan_int in H by done. injection H as <- <-.
      destruct (scan_exponent_sound s1) as [E|(e & He & E & Hr)].
      * rewrite E. cbn [fst snd]. exists ip.
        split; [done|]. split; [by apply unsigned_mantissa, mantissa_int|].
        rewrite <- (string_app_empty_r ip) at 1. by rewrite scan_int.
      * exists (ip +:+ e). split; [|split].
        -- rewrite E at 1. by rewrite !string_app_assoc.
        -- apply unsigned_exponent; [by apply mantissa_int|done].
        -- rewrite scan_int by (done || by apply exponent_ends_mantissa).
           by rewrite (exponent_alone e _ He Hr), <- E.
Qed.

Lemma digits_more ds more :
  DecimalDigits ds → is_digits more = true → DecimalDigits (ds +:+ more).
Proof.
  intros [Hne Hds] Hmore. split; [by destruct ds|].
  by rewrite is_digits_app, Hds, Hmore.
Qed.

(** A mantissa is consumed whole, whatever follows it. *)
Lemma scan_mantissa_covers m rest :
  Mantissa m →
  ∃ l r, Js.scan_unsigned (m +:+ rest) = Some (l, r) ∧
         (String.length r ≤ String.length rest)%nat.
Proof.
  intros Hm.
  destruct (span_digits_spec rest) as (more & r1 & _ & -> & Hmore & Hr1).
  pose proof (scan_exponent_length r1) as Hlen1.
  destruct Hm as [ip Hip|ip fp Hip Hfp|fp Hfp].
  - pose proof (digits_more ip more Hip Hmore) as Hip'.
    rewrite <- string_app_assoc.
    assert ((∃ s2, r1 = String "." s2) ∨ ends_mantissa r1) as [[s2 ->]|Hem].
    { destruct r1 as [|c s2]; [by right|].
      destruct (Ascii.eqb_spec c ".") as [->|Hc]; [left; by eexists|by right]. }
    + destruct (span_digits_spec s2) as (fp & s3 & _ & -> & Hfp & Hs3).
      change ((ip +:+ more) +:+ String "." (fp +:+ s3))
        with ((ip +:+ more) +:+ "." +:+ fp +:+ s3).
      rewrite scan_frac by done. eexists _, _. split; [done|].
      pose proof (scan_exponent_length s3).
      rewrite !string_length_app. cbn [String.length]. rewrite string_length_app. lia.
    + rewrite scan_int by done. eexists _, _. split; [done|].
      rewrite string_length_app. lia.
  - replace ((ip +:+ "." +:+ fp) +:+ more +:+ r1)
      with (ip +:+ "." +:+ (fp +:+ more) +:+ r1)
      by by rewrite !string_app_assoc.
    rewrite scan_frac; [|done|by rewrite is_digits_app, Hfp, Hmore|done].
    eexists _, _. split; [done|]. rewrite string_length_app. lia.
  - replace (("." +:+ fp) +:+ more +:+ r1) with ("." +:+ (fp +:+ more) +:+ r1)
      by by rewrite !string_app_assoc.
    rewrite scan_dot; [|by apply digits_more|done].
    eexists _, _. split; [done|]. rewrite string_length_app. lia.
Qed.

(** A literal is consumed whole, whatever follows it: [scan_unsigned] reads
    at least as far as any literal the text starts with. *)
Lemma scan_unsigned_covers u rest :
  StrUnsignedDecimalLiteral u →
  ∃ l r, Js.scan_unsigned (u +:+ rest) = Some (l, r) ∧
         (String.length r ≤ String.length rest)%nat.
Proof.
  intros [|m Hm|m e Hm He].
  - exists Js.LitInfinity, rest. split; [|done].
    unfold Js.scan_unsigned. by rewrite starts_with_app.
  - by apply scan_mantissa_covers.
  - pose proof (scan_exponent_covers e rest He) as Hlen.
    pose proof (exponent_tail e rest He) as Hem.
    assert (no_digit_ahead (e +:+ rest)) as Hnd.
    { destruct (e +:+ rest); [done|]. by destruct Hem. }
    rewrite string_app_assoc.
    destruct Hm as [ip Hip|ip fp Hip Hfp|fp Hfp].
    + rewrite scan_int by done. by eexists _, _.
    + rewrite !string_app_assoc. rewrite scan_frac by done. by eexists _, _.
    + rewrite !string_app_assoc. rewrite scan_dot by done. by eexists _, _.
Qed.

Lemma trim_blank blank s :
  is_blank blank = true → Js.trim_start (blank +:+ s) = Js.trim_start s.
Proof.
  intros Hb. induction blank as [|c blank IH]; string_simpl; [done|].
  cbn in Hb. apply andb_prop in Hb as [Hc Hb]. cbn [Js.trim_start]. rewrite Hc. by apply IH.
Qed.

Lemma literal_start_no_sign c : literal_start c → c ≠ "+"%char ∧ c ≠ "-"%char.
Proof. intros [H|[-> | ->]]; [|done..]. split; intros ->; discriminate H. Qed.

(** The sign of a literal is read off its first character. *)
Lemma scan_sign_literal sgn u rest :
  is_sign sgn → StrUnsignedDecimalLiteral u →
  Js.scan_sign (Js.trim_start (sgn +:+ u +:+ rest)) =
    (String.eqb sgn "-", u +:+ rest).
Proof.
  intros Hsgn Hu.
  destruct (unsigned_literal_head u rest Hu) as (c & r & -> & Hc).
  destruct (literal_start_plain c r Hc) as [Hw Hs].
  destruct Hsgn as [-> | [-> | ->]]; string_simpl; [|done..].
  cbn [Js.trim_start]. by rewrite Hw.
Qed.

Lemma sign_split sgn sgn' u u' rest rest' :
  is_sign sgn → is_sign sgn' →
  StrUnsignedDecimalLiteral u → StrUnsignedDecimalLiteral u' →
  sgn +:+ u +:+ rest = sgn' +:+ u' +:+ rest' →
  sgn = sgn' ∧ u +:+ rest = u' +:+ rest'.
Proof.
  intros Hsgn Hsgn' Hu Hu'.
  destruct (unsigned_literal_head u rest Hu) as (c & r & -> & Hc).
  destruct (unsigned_literal_head u' rest' Hu') as (c' & r' & -> & Hc').
  apply literal_start_no_sign in Hc as [? ?], Hc' as [? ?].
  destruct Hsgn as [-> | [-> | ->]], Hsgn' as [-> | [-> | ->]]; string_simpl;
    intros [= ]; subst; done.
Qed.

Lemma string_app_inv_r (a b r : string) : a +:+ r = b +:+ r → a = b.
Proof.
  revert b. induction a as [|c a IH]; intros [|c' b] H; string_simpl.
  - done.
  - apply (f_equal String.length) in H.
    rewrite string_app_nil_l, string_length_app in H. cbn in H. lia.
  - apply (f_equal String.length) in H.
    rewrite string_app_nil_l, string_length_app in H. cbn in H. lia.
  - rewrite !string_app_cons in H. injection H as -> H. f_equal. by apply IH.
Qed.

(** [parseFloat] skips leading white space and reads the longest decimal
    literal the text then starts with. *)
Lemma parseFloat_longest blank literal rest :
  is_blank blank = true → StrDecimalLiteral literal →
  ∃ longest tail,
    literal +:+ rest = longest +:+ tail ∧
    StrDecimalLiteral longest ∧
    (∀ l r, StrDecimalLiteral l → literal +:+ rest = l +:+ r →
       (String.length l ≤ String.length longest)%nat) ∧
    Js.parseFloat (blank +:+ literal +:+ rest) = Js.parseFloat longest ∧
    Js.isNaN (Js.parseFloat longest) = false ∧
    (ends_literal rest → longest = literal).
Proof.
  intros Hblank [sgn u Hsgn Hu].
  destruct (scan_unsigned_covers u rest Hu) as (l0 & r0 & Hscan & Hlen).
  destruct (scan_unsigned_sound _ _ _ Hscan) as (c & Ec & Hc & Hscan').
  exists (sgn +:+ c), r0.
  assert (Js.parseFloat (sgn +:+ c) = Js.literal_value (String.eqb sgn "-") l0) as Hval.
  { unfold Js.parseFloat.
    rewrite <- (string_app_empty_r c) at 1. rewrite scan_sign_literal by done.
    by rewrite string_app_empty_r, Hscan'. }
  split; [by rewrite !string_app_assoc, Ec|].
  split; [by constructor|]. split; [|split; [|split]].
  - intros l r [sgn' u' Hsgn' Hu'] E.
    rewrite !string_app_assoc in E.
    apply sign_split in E as [<- E]; [|done..].
    destruct (scan_unsigned_covers u' r Hu') as (l1 & r1 & Hscan1 & Hlen1).
    rewrite <- E, Hscan in Hscan1. injection Hscan1 as <- <-.
    apply (f_equal String.length) in E. rewrite Ec, !string_length_app in E.
    rewrite !string_length_app. lia.
  - unfold Js.parseFloat at 1. rewrite trim_blank by done.
    rewrite string_app_assoc, scan_sign_literal by done. by rewrite Hscan, Hval.
  - rewrite Hval. apply literal_value_not_nan. by eapply scan_unsigned_wf.
  - intros Hrest. destruct (scan_unsigned_literal u Hu) as (l' & Hl').
    rewrite (Hl' rest Hrest) in Hscan. injection Hscan as <- <-.
    f_equal. symmetry. by apply (string_app_inv_r u c rest).
Qed.

Lemma blank_not_punctuation blank literal rest :
  is_blank blank = true → StrDecimalLiteral literal →
  blank +:+ literal +:+ rest ≠ "" ∧ blank +:+ literal +:+ rest ≠ "{" ∧
  blank +:+ literal +:+ rest ≠ "}".
Proof.
  intros Hb Hlit. destruct blank as [|c blank]; string_simpl.
  - by apply literal_not_punctuation.
  - cbn in Hb. apply andb_prop in Hb as [Hc _].
    repeat split; intros [= -> _]; discriminate Hc.
Qed.

(** ** Token classification *)

Lemma parse_word (fuel : nat) (word : string) :
  word ≠ "" → word ≠ "{" → word ≠ "}" →
  parse fuel word =
    if Js.isNaN (Js.parseFloat word)
    then if Js.starts_with "/" word
         then eval fuel (Symbol (slice1 word))
         else eval fuel (Operator word)
    else eval fuel (Num (Js.parseFloat word)).
Proof.
  intros H1 H2 H3. unfold parse.
  apply String.eqb_neq in H1, H2, H3. rewrite H1, H2, H3.
  by destruct (Js.isNaN (Js.parseFloat word)).
Qed.

(** C10: [parse] classifies a word by [Number.parseFloat], which skips
    leading white space, reads the longest prefix that is a decimal literal
    and ignores the rest.  Every word that starts, after white space if
    there is any, with a decimal literal is evaluated as a Number, whatever
    follows the literal: as the Number of the longest literal the word
    starts with, which is the literal itself when what follows cannot
    extend it.  A word is a Symbol or an Operator only when [parseFloat]
    gives [NaN] for it, and then it starts with no decimal literal.
    [3abc] is the Number 3 and [1/2] the Number 1; so are [3em] and [1e],
    and [1.5.5] is the Number 1.5. *)
Theorem parse_reads_numeric_prefix (fuel : nat) (blank literal rest : string) :
  is_blank blank = true → StrDecimalLiteral literal →
  (∃ longest tail,
     literal +:+ rest = longest +:+ tail ∧
     StrDecimalLiteral longest ∧
     (∀ l r, StrDecimalLiteral l → literal +:+ rest = l +:+ r →
        (String.length l ≤ String.length longest)%nat) ∧
     Js.parseFloat (blank +:+ literal +:+ rest) = Js.parseFloat longest ∧
     Js.isNaN (Js.parseFloat longest) = false ∧
     parse fuel (blank +:+ literal +:+ rest) = eval fuel (Num (Js.parseFloat longest)) ∧
     (ends_literal rest → longest = literal)) ∧
  (∀ word, word ≠ "" → word ≠ "{" → word ≠ "}" →
     parse fuel word =
       if Js.isNaN (Js.parseFloat word)
       then if Js.starts_with "/" word
            then eval fuel (Symbol (slice1 word))
            else eval fuel (Operator word)
       else eval fuel (Num (Js.parseFloat word))) ∧
  (∀ word l r, Js.isNaN (Js.parseFloat word) = true →
     StrDecimalLiteral l → word ≠ l +:+ r) ∧
  Js.parseFloat "3abc" = Js.of_Z 3 ∧
  Js.parseFloat "1/2" = Js.of_Z 1 ∧
  Js.parseFloat "3em" = Js.of_Z 3 ∧
  Js.parseFloat "1e" = Js.of_Z 1 ∧
  Js.parseFloat "12e-" = Js.of_Z 12 ∧
  Js.parseFloat "1.5.5" = Js.parseFloat "1.5" ∧
  Js.parseFloat "1e5e5" = Js.of_Z 100000 ∧
  Js.parseFloat "5.e" = Js.of_Z 5 ∧
  Js.parseFloat "3E" = Js.of_Z 3 ∧
  Js.parseFloat "Infinity5" = Js.Infinity ∧
  (∀ k, final_stack (run (1 + k) "3abc 1/2 3em 1e5e5") =
          Some [lit 3; lit 1; lit 3; lit 100000]).
Proof.
  intros Hblank Hlit. split; [|split; [by apply parse_word|split]].
  - destruct (parseFloat_longest blank literal rest Hblank Hlit)
      as (longest & tail & Hcut & Hlongest & Hmax & Hval & Hnan & Hexact).
    exists longest, tail.
    destruct (blank_not_punctuation blank literal rest Hblank Hlit) as (H1 & H2 & H3).
    repeat (split; [done|]). split; [|done].
    rewrite parse_word by done. by rewrite Hval, Hnan.
  - intros word l r Hnan Hl ->.
    destruct (parseFloat_longest "" l r eq_refl Hl)
      as (longest & tail & _ & _ & _ & Hval & Hnan' & _).
    rewrite string_app_nil_l in Hval. by rewrite Hval, Hnan' in Hnan.
  - repeat (split; [by vm_compute|]).
    intros k. rewrite run_at_least by (by vm_compute). by vm_compute.
Qed.

Lemma parse_reads_numeric_prefix_witness :
  ∃ longest tail,
    "1.5" +:+ ".5" = longest +:+ tail ∧
    StrDecimalLiteral longest ∧
    Js.parseFloat ("" +:+ "1.5" +:+ ".5") = Js.parseFloat longest ∧
    parse 1 ("" +:+ "1.5" +:+ ".5") = eval 1 (Num (Js.parseFloat longest)).
Proof.
  destruct (parse_reads_numeric_prefix 1 "" "1.5" ".5")
    as [(longest & tail & H1 & H2 & _ & H3 & _ & H4 & _) _].
  - reflexivity.
  - apply (signed_literal "" "1.5"); [by left|].
    apply unsigned_mantissa, (mantissa_frac "1" "5"); [by split|done].
  - exists longest, tail. repeat split; assumption.
Defined.

(** ** Arithmetic programs *)

Lemma binary_native_run opname f st l r vs bs :
  ∃ evs, binary_native opname f (mkState (st ++ [Num l; Num r]) vs bs) =
           (evs, Returned tt (mkState (st ++ [Num (f l r)]) vs bs)).
Proof.
  replace (st ++ [Num l; Num r]) with ((st ++ [Num l]) ++ [Num r])
    by by rewrite <- app_assoc.
  unfold binary_native. gen_run. by eexists.
Qed.

Lemma literal_is_no_operator w : StrDecimalLiteral w → rpn_operator w = None.
Proof.
  intros [sgn u Hsgn Hu].
  destruct (unsigned_literal_head u "" Hu) as (c & r & E & Hc).
  rewrite string_app_empty_r in E. subst u.
  assert (∀ s, rpn_operator (String c s) = None) as Hc'.
  { intros s. destruct Hc as [H|[-> | ->]]; [|done..].
    destruct c as [[] [] [] [] [] [] [] []]; try discriminate H; done. }
  destruct Hsgn as [-> | [-> | ->]]; string_simpl; [done| |].
  - destruct Hc as [H|[-> | ->]]; [|done..].
    destruct c as [[] [] [] [] [] [] [] []]; try discriminate H; done.
  - destruct Hc as [H|[-> | ->]]; [|done..].
    destruct c as [[] [] [] [] [] [] [] []]; try discriminate H; done.
Qed.

Lemma rpn_step_run k w st st' :
  add_sub_mul_token w → rpn_step st w = Some st' →
  ∃ evs, parse (S k) w (mkState (Num <$> reverse st) [native_scope] []) =
           (evs, Returned tt (mkState (Num <$> reverse st') [native_scope] [])).
Proof.
  intros Htok Hstep.
  assert (∀ opname fn f,
            w = opname → opname ≠ "" → opname ≠ "{" → opname ≠ "}" →
            Js.isNaN (Js.parseFloat opname) = true →
            Js.starts_with "/" opname = false →
            findVar opname [native_scope] = Some (Native fn) →
            rpn_operator opname = Some f →
            call_native (eval k) fn = binary_native opname f →
            ∃ evs, parse (S k) w (mkState (Num <$> reverse st) [native_scope] []) =
              (evs, Returned tt (mkState (Num <$> reverse st') [native_scope] []))) as Hop.
  { intros opname fn f -> H1 H2 H3 Hnan Hslash Hfind Hrpn Hcall.
    unfold rpn_step in Hstep. rewrite Hrpn in Hstep.
    destruct st as [|r [|l st0]]; [done..|]. injection Hstep as <-.
    rewrite parse_word, Hnan, Hslash by done.
    rewrite eval_native_operator with (fn := fn) by done. rewrite Hcall.
    rewrite !reverse_cons, !fmap_app, <- !app_assoc. cbn [fmap list_fmap app].
    apply binary_native_run. }
  destruct Htok as [-> | [-> | [-> | Hlit]]].
  - by apply (Hop "+" FnAdd Js.num_add).
  - by apply (Hop "-" FnSub Js.num_sub).
  - by apply (Hop "*" FnMul Js.num_mul).
  - unfold rpn_step in Hstep. rewrite literal_is_no_operator in Hstep by done.
    injection Hstep as <-.
    destruct (parseFloat_prefix w "" Hlit I) as [_ Hnan].
    destruct (literal_not_punctuation w "" Hlit) as (H1 & H2 & H3).
    rewrite string_app_empty_r in H1, H2, H3.
    rewrite parse_word, Hnan by done.
    rewrite eval_data_run by done.
    rewrite reverse_cons, fmap_app. by eexists.
Qed.

Lemma rpn_run k ws st st' :
  Forall add_sub_mul_token ws → rpn ws st = Some st' →
  ∃ evs, for_each (parse (S k)) ws (mkState (Num <$> reverse st) [native_scope] []) =
           (evs, Returned tt (mkState (Num <$> reverse st') [native_scope] [])).
Proof.
  intros Hws. revert st. induction Hws as [|w ws Hw Hws IH]; intros st Hrpn.
  - injection Hrpn as <-. by eexists.
  - cbn [rpn] in Hrpn. destruct (rpn_step st w) as [st1|] eqn:Hstep; [|done].
    destruct (rpn_step_run k w st st1 Hw Hstep) as [evs1 E1].
    destruct (IH st1 Hrpn) as [evs2 E2].
    exists (evs1 ++ evs2). cbn [for_each].
    erewrite gen_bind_returned by exact E1. by rewrite E2.
Qed.

(** X15: without division, arithmetic programs agree with RPN evaluation: when
    every word of the program is a decimal literal or one of [+ - *] and
    RPN evaluation of the words succeeds with the stack [st'], the run
    returns, with any budget of at least 1, and its operand stack holds
    the Numbers of [st'], top last. *)
Theorem rpn_correct_without_division (program : string) (result : list Js.number) (k : nat) :
  Forall add_sub_mul_token (words program) →
  rpn (words program) [] = Some result →
  final_stack (run (1 + k) program) = Some (Num <$> reverse result).
Proof.
  intros Hws Hrpn. rewrite run_words.
  destruct (rpn_run k (words program) [] result Hws Hrpn) as [evs E].
  unfold final_stack, final_state. cbn [snd].
  change initial_state with (mkState (Num <$> reverse []) [native_scope] []).
  change (1 + k)%nat with (S k). by rewrite E.
Qed.

Lemma digits_literal ds : DecimalDigits ds → StrDecimalLiteral ds.
Proof.
  intros H. apply (signed_literal "" ds); [by left|].
  by apply unsigned_mantissa, mantissa_int.
Qed.

Lemma rpn_correct_without_division_witness :
  final_stack (run (1 + 0) "3 4 + 10 2 - *") = Some (Num <$> reverse [Js.of_Z 56]).
Proof.
  apply (rpn_correct_without_division "3 4 + 10 2 - *" [Js.of_Z 56] 0).
  - replace (words "3 4 + 10 2 - *") with ["3"; "4"; "+"; "10"; "2"; "-"; "*"]
      by (by vm_compute).
    repeat (apply List.Forall_cons;
            [first [ by left | by (right; left) | by (right; right; left)
                   | right; right; right; apply digits_literal; by split ]|]).
    apply List.Forall_nil.
  - by vm_compute.
Defined.

(** C1, at the input where the code departs from it: the word [/] starts
    with a slash, so [parse] makes it the Symbol with the empty name and
    pushes it, although the base scope binds [/] to the division native and
    RPN evaluation of [6 3 /] gives 2.  Addition and subtraction behave as
    claimed: [3 4 +] leaves 7 and [10 2 -] leaves 8. *)
Theorem division_word_is_a_symbol :
  (∀ fuel, parse fuel "/" = eval fuel (Symbol "")) ∧
  native_scope !! "/" = Some (Native FnDiv) ∧
  rpn (words "6 3 /") [] = Some [Js.of_Z 2] ∧
  (∀ k, final_stack (run (1 + k) "6 3 /") = Some [lit 6; lit 3; Symbol ""]) ∧
  (∀ k, final_stack (run (1 + k) "3 4 +") = Some [lit 7]) ∧
  (∀ k, final_stack (run (1 + k) "10 2 -") = Some [lit 8]).
Proof.
  split; [done|]. split; [by vm_compute|]. split; [by vm_compute|].
  repeat split; intros k; rewrite run_at_least by (by vm_compute); by vm_compute.
Qed.

(** ** Number rendering

    [serializeValue] writes a Number with [String], and [parse] reads a
    word with [parseFloat].  Every binary64 value other than negative zero
    and NaN is written as one word that is read back as the same value:
    the digit search of [Number::toString] ends with digits that round to
    the value, at the latest with the digits of its exact decimal
    expansion, and each layout of the digits is a decimal literal with the
    value of the digits. *)

Lemma number_same_eq a b : JsToString.number_same a b = true → a = b.
Proof.
  destruct a as [s1|s1| |s1 m1 e1], b as [s2|s2| |s2 m2 e2]; simpl; try done.
  - by intros ->%Bool.eqb_prop.
  - by intros ->%Bool.eqb_prop.
  - intros [[->%Bool.eqb_prop ->%Pos.eqb_eq]%andb_prop ->%Z.eqb_eq]%andb_prop. done.
Qed.

(** *** Numbers that are rounded to themselves *)

Section ExactRounding.

Local Open Scope Z_scope.

Lemma digits2_size p : digits2_pos p = Pos.size p.
Proof. induction p as [p IH|p IH|]; cbn; by rewrite ?IH. Qed.

Lemma digits2_bounds p :
  2 ^ (Zpos (digits2_pos p) - 1) ≤ Zpos p < 2 ^ Zpos (digits2_pos p).
Proof.
  rewrite digits2_size. split.
  - pose proof (Pos.size_le p) as H.
    assert (Zpos (2 ^ Pos.size p) ≤ Zpos (p~0)) as H' by lia.
    rewrite Pos2Z.inj_pow in H'.
    replace (Zpos (Pos.size p)) with (Zpos (Pos.size p) - 1 + 1) in H' by lia.
    rewrite Z.pow_add_r in H' by lia. lia.
  - pose proof (Pos.size_gt p) as H.
    assert (Zpos p < Zpos (2 ^ Pos.size p)) as H' by lia.
    by rewrite Pos2Z.inj_pow in H'.
Qed.

(** The number of binary digits is fixed by the powers of two around. *)
Lemma digits2_unique p d :
  2 ^ (d - 1) ≤ Zpos p < 2 ^ d → Zpos (digits2_pos p) = d.
Proof.
  intros [Hlo Hhi]. pose proof (digits2_bounds p) as [Hlo' Hhi'].
  assert (0 < d).
  { destruct (Z.lt_trichotomy 0 d) as [?|[<-|?]]; [done|cbn in Hhi; lia|].
    rewrite Z.pow_neg_r in Hhi by lia. lia. }
  assert (¬ Zpos (digits2_pos p) < d).
  { intros Hlt. assert (2 ^ Zpos (digits2_pos p) ≤ 2 ^ (d - 1))
      by (apply Z.pow_le_mono_r; lia). lia. }
  assert (¬ d < Zpos (digits2_pos p)).
  { intros Hlt. assert (2 ^ d ≤ 2 ^ (Zpos (digits2_pos p) - 1))
      by (apply Z.pow_le_mono_r; lia). lia. }
  lia.
Qed.

Lemma digits2_shift p a q :
  0 ≤ a → Zpos q = Zpos p * 2 ^ a →
  Zpos (digits2_pos q) = Zpos (digits2_pos p) + a.
Proof.
  intros Ha Hq. apply digits2_unique. rewrite Hq.
  pose proof (digits2_bounds p) as [Hlo Hhi].
  assert (0 < 2 ^ a) by (apply Z.pow_pos_nonneg; lia).
  replace (Zpos (digits2_pos p) + a - 1) with (Zpos (digits2_pos p) - 1 + a) by lia.
  rewrite !Z.pow_add_r by lia. nia.
Qed.

Lemma iter_pos_nat {A} (f : A → A) p x :
  SpecFloat.iter_pos f p x = Nat.iter (Pos.to_nat p) f x.
Proof.
  revert x. induction p as [p IH|p IH|]; intros x; cbn [SpecFloat.iter_pos].
  - rewrite !IH, Pos2Nat.inj_xI.
    replace (S (2 * Pos.to_nat p))%nat with (Pos.to_nat p + (Pos.to_nat p + 1))%nat by lia.
    rewrite !Nat.iter_add. done.
  - rewrite !IH, Pos2Nat.inj_xO.
    replace (2 * Pos.to_nat p)%nat with (Pos.to_nat p + Pos.to_nat p)%nat by lia.
    by rewrite Nat.iter_add.
  - done.
Qed.

(** Shifting out zero bits loses nothing. *)
Lemma shr_exact_nat (n : nat) (m : positive) :
  Nat.iter n shr_1 (Build_shr_record (Zpos m * 2 ^ Z.of_nat n) false false) =
    Build_shr_record (Zpos m) false false.
Proof.
  revert m. induction n as [|n IH]; intros m.
  - cbn. f_equal. lia.
  - rewrite Nat.iter_succ.
    replace (Zpos m * 2 ^ Z.of_nat (S n)) with (Zpos (m~0) * 2 ^ Z.of_nat n).
    + by rewrite IH.
    + rewrite Nat2Z.inj_succ, Z.pow_succ_r by lia. lia.
Qed.

Lemma shr_exact (m : positive) (e a : Z) :
  0 ≤ a →
  shr (Build_shr_record (Zpos m * 2 ^ a) false false) e a =
    (Build_shr_record (Zpos m) false false, e + a).
Proof.
  intros Ha. destruct a as [|a|a]; [|clear Ha|lia].
  - cbn [shr]. rewrite Z.mul_1_r, Z.add_0_r. done.
  - cbn [shr]. rewrite iter_pos_nat. f_equal.
    rewrite <- (positive_nat_Z a) at 1. apply shr_exact_nat.
Qed.

Lemma bounded_canonical m e :
  bounded Js.prec Js.emax m e = true →
  fexp Js.prec Js.emax (Zpos (digits2_pos m) + e) = e ∧ e ≤ Js.emax - Js.prec ∧
  Zpos (digits2_pos m) ≤ Js.prec.
Proof.
  unfold bounded, canonical_mantissa. intros [H1 H2]%andb_prop.
  apply Z.eqb_eq in H1. apply Z.leb_le in H2.
  split; [done|]. split; [done|].
  unfold fexp in H1. lia.
Qed.

(** A binary64 value, handed to the rounding with trailing zero bits, is
    rounded to itself. *)
Lemma binary_round_aux_exact sx m e a :
  bounded Js.prec Js.emax m e = true → 0 ≤ a →
  binary_round_aux Js.prec Js.emax sx (Zpos m * 2 ^ a) (e - a) loc_Exact =
    S754_finite sx m e.
Proof.
  intros (Hcan & Hmax & _)%bounded_canonical Ha.
  assert (0 < Zpos m * 2 ^ a) as Hpos.
  { assert (0 < 2 ^ a) by (apply Z.pow_pos_nonneg; lia). lia. }
  destruct (Zpos m * 2 ^ a) as [|q|q] eqn:Hq; [lia| |lia].
  unfold binary_round_aux, shr_fexp.
  assert (Zdigits2 (Zpos q) + (e - a) = Zpos (digits2_pos m) + e) as ->.
  { cbn [Zdigits2]. rewrite (digits2_shift m a q) by done. lia. }
  rewrite Hcan. replace (e - (e - a)) with a by lia.
  cbn [shr_record_of_loc]. rewrite <- Hq, shr_exact by done.
  cbn [shr_m loc_of_shr_record round_nearest_even].
  replace (e - a + a) with e by lia.
  cbn [Zdigits2]. rewrite Hcan, Z.sub_diag. cbn [shr shr_record_of_loc shr_m].
  apply Z.leb_le in Hmax. by rewrite Hmax.
Qed.

Lemma iter_xO_pow p d : Zpos (Pos.iter xO p d) = Zpos p * 2 ^ Zpos d.
Proof.
  induction d as [|d IH] using Pos.peano_ind.
  - cbn. lia.
  - rewrite Pos.iter_succ, Pos2Z.inj_xO, IH, Pos2Z.inj_succ, Z.pow_succ_r by lia. lia.
Qed.

Lemma binary_round_exact sx z m e :
  bounded Js.prec Js.emax m e = true →
  Zpos z * 2 ^ Z.max 0 (- e) = Zpos m * 2 ^ Z.max 0 e →
  binary_round Js.prec Js.emax sx z 0 = S754_finite sx m e.
Proof.
  intros Hb Hval. pose proof (bounded_canonical m e Hb) as (Hcan & _ & _).
  unfold binary_round, shl_align.
  destruct (Z.le_gt_cases 0 e) as [He|He].
  - rewrite Z.max_l, (Z.max_r 0 e), Z.pow_0_r, Z.mul_1_r in Hval by lia.
    rewrite (digits2_shift m e z) by done.
    rewrite Z.add_0_r, Hcan, Z.sub_0_r.
    assert (binary_round_aux Js.prec Js.emax sx (Zpos z) 0 loc_Exact = S754_finite sx m e)
      as Hr.
    { rewrite Hval. replace 0 with (e - e) at 1 by lia. by apply binary_round_aux_exact. }
    by destruct e.
  - rewrite (Z.max_r 0 (- e)), (Z.max_l 0 e), Z.pow_0_r, Z.mul_1_r in Hval by lia.
    assert (Zpos (digits2_pos m) = Zpos (digits2_pos z) + - e) as Hd
      by (apply digits2_shift; lia).
    replace (Zpos (digits2_pos z) + 0) with (Zpos (digits2_pos m) + e) by lia.
    rewrite Hcan, Z.sub_0_r.
    destruct e as [|e|e]; [lia..|].
    assert (Pos.iter xO z e = m) as ->.
    { apply Pos2Z.inj. rewrite iter_xO_pow. by rewrite <- Hval. }
    replace (Zpos m) with (Zpos m * 2 ^ 0) by (rewrite Z.pow_0_r; lia).
    replace (Zneg e) with (Zneg e - 0) at 1 by lia.
    by apply binary_round_aux_exact.
Qed.

Lemma div_eucl_div_mod a b : Z.div_eucl a b = (a / b, a mod b).
Proof. unfold Z.div, Z.modulo. by destruct (Z.div_eucl a b). Qed.

Lemma new_location_exact d : new_location d 0 = loc_Exact.
Proof. unfold new_location, new_location_even, new_location_odd. by destruct (Z.even d). Qed.

(** A decimal that denotes a binary64 value exactly is read as that
    value. *)
Lemma decimal_to_number_exact neg s t m e :
  0 < s → bounded Js.prec Js.emax m e = true → same_value s t m e →
  Js.decimal_to_number neg s t = S754_finite neg m e.
Proof.
  intros Hs Hb Hval. unfold Js.decimal_to_number, same_value in *.
  destruct (Z.eqb_spec s 0) as [?|_]; [lia|].
  destruct (Z.leb_spec 0 t) as [Ht|Ht].
  - rewrite (Z.max_l 0 (- t)), (Z.max_r 0 t), Z.pow_0_r, Z.mul_1_r in Hval by lia.
    assert (0 < s * 10 ^ t) as Hpos.
    { assert (0 < 10 ^ t) by (apply Z.pow_pos_nonneg; lia). lia. }
    destruct (s * 10 ^ t) as [|z|z] eqn:Hz; [lia| |lia].
    destruct neg; cbn [cond_Zopp Z.opp binary_normalize];
      by apply binary_round_exact.
  - rewrite (Z.max_r 0 (- t)), (Z.max_l 0 t), Z.pow_0_r, Z.mul_1_r in Hval by lia.
    set (d := 10 ^ (- t)) in *.
    assert (0 < d) as Hd by (apply Z.pow_pos_nonneg; lia).
    set (sh := Z.max 0 (Js.prec + 2 + Zdigits2 d - Zdigits2 s)).
    pose proof (bounded_canonical m e Hb) as (_ & _ & Hprec).
    pose proof (digits2_bounds m) as [_ Hm].
    assert (Zpos m < 2 ^ Js.prec) as Hm'.
    { eapply Z.lt_le_trans; [exact Hm|]. apply Z.pow_le_mono_r; lia. }
    assert (2 ^ (Js.prec + 1) * d < s * 2 ^ sh) as Hbig.
    { destruct s as [|sp|sp]; [lia| |lia]. destruct d as [|dp|dp] eqn:Ed; [lia| |lia].
      cbn [Zdigits2] in sh.
      pose proof (digits2_bounds sp) as [Hslo _].
      pose proof (digits2_bounds dp) as [_ Hdhi].
      assert (2 ^ (Js.prec + 1 + Zpos (digits2_pos dp))
              ≤ 2 ^ (Zpos (digits2_pos sp) - 1 + sh)) as Hle
        by (apply Z.pow_le_mono_r; lia).
      rewrite !Z.pow_add_r in Hle by lia.
      assert (0 < 2 ^ sh) by (apply Z.pow_pos_nonneg; lia).
      assert (0 < 2 ^ (Js.prec + 1)) by (apply Z.pow_pos_nonneg; unfold Js.prec; lia).
      rewrite Z.pow_add_r by (unfold Js.prec; lia). nia. }
    assert (0 ≤ sh) as Hsh by lia.
    assert (0 ≤ e + sh) as Ha.
    { destruct (Z.le_gt_cases 0 (e + sh)) as [?|Hneg]; [done|]. exfalso.
      rewrite (Z.max_r 0 (- e)), (Z.max_l 0 e), Z.pow_0_r, Z.mul_1_r in Hval by lia.
      replace (- e) with (sh + (- e - sh)) in Hval by lia.
      rewrite Z.pow_add_r in Hval by lia.
      assert (2 ≤ 2 ^ (- e - sh)).
      { replace 2 with (2 ^ 1) at 1 by done. apply Z.pow_le_mono_r; lia. }
      assert (0 < 2 ^ sh) by (apply Z.pow_pos_nonneg; lia).
      rewrite Z.pow_add_r in Hbig by (unfold Js.prec; lia). nia. }
    assert (Z.shiftl s sh = Zpos m * 2 ^ (e + sh) * d) as Hshift.
    { rewrite Z.shiftl_mul_pow2 by done.
      destruct (Z.le_gt_cases 0 e) as [He|He].
      - rewrite (Z.max_l 0 (- e)), (Z.max_r 0 e), Z.pow_0_r, Z.mul_1_r in Hval by lia.
        rewrite Hval, Z.pow_add_r by lia. ring.
      - rewrite (Z.max_r 0 (- e)), (Z.max_l 0 e), Z.pow_0_r, Z.mul_1_r in Hval by lia.
        replace sh with (- e + (e + sh)) at 1 by lia.
        rewrite Z.pow_add_r, Z.mul_assoc, Hval by lia. ring. }
    rewrite div_eucl_div_mod, Hshift, Z.div_mul, Z.mod_mul by lia.
    rewrite new_location_exact.
    replace (- sh) with (e - (e + sh)) by lia.
    by apply binary_round_aux_exact.
Qed.

End ExactRounding.

(** *** The decimal exponent *)

Section DecimalExponent.

Local Open Scope Z_scope.

Variables p q : Z.
Hypothesis p_pos : 0 < p.
Hypothesis q_pos : 0 < q.

Lemma below_pow10_spec j :
  JsToString.below_pow10 p q j = true ↔
  p * 10 ^ Z.max 0 (- j) < q * 10 ^ Z.max 0 j.
Proof.
  unfold JsToString.below_pow10. destruct (Z.leb_spec 0 j).
  - rewrite (Z.max_l 0 (- j)), (Z.max_r 0 j), Z.pow_0_r, Z.mul_1_r by lia.
    apply Z.ltb_lt.
  - rewrite (Z.max_r 0 (- j)), (Z.max_l 0 j), Z.pow_0_r, Z.mul_1_r by lia.
    apply Z.ltb_lt.
Qed.

Lemma below_pow10_mono j j' :
  j ≤ j' → JsToString.below_pow10 p q j = true → JsToString.below_pow10 p q j' = true.
Proof.
  rewrite !below_pow10_spec. intros Hj H.
  assert (10 ^ Z.max 0 (- j') ≤ 10 ^ Z.max 0 (- j)) by (apply Z.pow_le_mono_r; lia).
  assert (10 ^ Z.max 0 j ≤ 10 ^ Z.max 0 j') by (apply Z.pow_le_mono_r; lia).
  assert (0 < 10 ^ Z.max 0 (- j')) by (apply Z.pow_pos_nonneg; lia).
  assert (0 < 10 ^ Z.max 0 j) by (apply Z.pow_pos_nonneg; lia).
  nia.
Qed.

Lemma adjust_exponent_spec fuel : ∀ n L U,
  L ≤ n ≤ U →
  JsToString.below_pow10 p q (L - 1) = false →
  JsToString.below_pow10 p q U = true →
  U - L ≤ Z.of_nat fuel →
  is_decimal_exponent p q (JsToString.adjust_exponent fuel p q n).
Proof.
  induction fuel as [|fuel IH]; intros n L U Hn HL HU Hfuel.
  - cbn. assert (n = L ∧ n = U) as [-> <-] by lia. by split.
  - cbn [JsToString.adjust_exponent].
    destruct (JsToString.below_pow10 p q (n - 1)) eqn:H1.
    + apply (IH (n - 1) L (n - 1)); [|done|done|lia].
      split; [|lia].
      destruct (Z.le_gt_cases L (n - 1)) as [?|Hlt]; [done|].
      rewrite (below_pow10_mono (n - 1) (L - 1)) in HL by (done || lia). done.
    + destruct (JsToString.below_pow10 p q n) eqn:H2; [by split|].
      apply (IH (n + 1) (n + 1) U); [| |done|lia].
      * split; [lia|].
        destruct (Z.le_gt_cases (n + 1) U) as [?|Hlt]; [done|].
        rewrite (below_pow10_mono U n) in H2 by (done || lia). done.
      * by replace (n + 1 - 1) with n by lia.
Qed.

Lemma pow2_le_pow10 x : 0 ≤ x → 2 ^ x ≤ 10 ^ x.
Proof. intros. apply Z.pow_le_mono_l. lia. Qed.

Lemma decimal_exponent_spec :
  is_decimal_exponent p q (JsToString.decimal_exponent p q).
Proof.
  unfold JsToString.decimal_exponent.
  pose proof (Z.log2_spec p p_pos) as [Hp1 Hp2].
  pose proof (Z.log2_spec q q_pos) as [Hq1 Hq2].
  pose proof (Z.log2_nonneg p) as Hlp. pose proof (Z.log2_nonneg q) as Hlq.
  set (lp := Z.log2 p) in *. set (lq := Z.log2 q) in *.
  set (n0 := (lp - lq) * 30103 / 100000).
  destruct (Z.le_gt_cases lq lp) as [HD|HD].
  - apply (adjust_exponent_spec _ n0 0 (lp - lq + 1)).
    + subst n0. split.
      * apply Z.div_pos; lia.
      * assert ((lp - lq) * 30103 / 100000 ≤ (lp - lq) * 100000 / 100000)
          by (apply Z.div_le_mono; lia).
        rewrite Z.div_mul in H by lia. lia.
    + apply not_true_is_false. rewrite below_pow10_spec.
      replace (Z.max 0 (- (0 - 1))) with 1 by lia.
      replace (Z.max 0 (0 - 1)) with 0 by lia.
      rewrite Z.pow_0_r, Z.pow_1_r, Z.mul_1_r.
      assert (2 ^ Z.succ lq ≤ 2 ^ Z.succ lp) by (apply Z.pow_le_mono_r; lia).
      rewrite !Z.pow_succ_r in * by lia. lia.
    + rewrite below_pow10_spec.
      rewrite (Z.max_l 0 (- _)), (Z.max_r 0 (lp - lq + 1)), Z.pow_0_r, Z.mul_1_r by lia.
      pose proof (pow2_le_pow10 (lp - lq + 1) ltac:(lia)).
      assert (2 ^ Z.succ lp = 2 ^ (lp - lq + 1) * 2 ^ lq) as E.
      { rewrite <- Z.pow_add_r by lia. f_equal. lia. }
      assert (0 < 2 ^ (lp - lq + 1)) by (apply Z.pow_pos_nonneg; lia).
      nia.
    + lia.
  - apply (adjust_exponent_spec _ n0 (lp - lq) 0).
    + subst n0. split.
      * assert ((lp - lq) * 100000 / 100000 ≤ (lp - lq) * 30103 / 100000)
          by (apply Z.div_le_mono; lia).
        rewrite Z.div_mul in H by lia. lia.
      * assert ((lp - lq) * 30103 / 100000 < 0); [|lia].
        apply Z.div_lt_upper_bound; lia.
    + apply not_true_is_false. rewrite below_pow10_spec.
      rewrite (Z.max_r 0 (- _)), (Z.max_l 0 (lp - lq - 1)), Z.pow_0_r, Z.mul_1_r by lia.
      pose proof (pow2_le_pow10 (- (lp - lq - 1)) ltac:(lia)).
      assert (2 ^ Z.succ lq = 2 ^ lp * 2 ^ (- (lp - lq - 1))) as E.
      { rewrite <- Z.pow_add_r by lia. f_equal. lia. }
      assert (0 < 2 ^ lp) by (apply Z.pow_pos_nonneg; lia).
      nia.
    + rewrite below_pow10_spec.
      change (Z.max 0 (- 0)) with 0. change (Z.max 0 0) with 0.
      rewrite Z.pow_0_r.
      assert (2 ^ Z.succ lp ≤ 2 ^ lq) by (apply Z.pow_le_mono_r; lia).
      lia.
    + lia.
Qed.

End DecimalExponent.

(** *** The digits of a Number *)

Section Digits.

Local Open Scope Z_scope.

Lemma candidates_unfold p q n k :
  JsToString.candidates p q n k =
    let j := k - n in
    let P := if 0 <=? j then p * 10 ^ j else p in
    let Q := if 0 <=? j then q else q * 10 ^ (- j) in
    let s := P / Q in
    let lo := (s, n) in
    let hi := if s + 1 =? 10 ^ k then (10 ^ (k - 1), n + 1) else (s + 1, n) in
    match 2 * (P mod Q) ?= Q with
    | Lt => [lo; hi]
    | Gt => [hi; lo]
    | Eq => if Z.even s then [lo; hi] else [hi; lo]
    end.
Proof.
  unfold JsToString.candidates. cbv zeta.
  destruct (0 <=? k - n); by rewrite div_eucl_div_mod.
Qed.

(** The candidates for [k] digits have [k] digits. *)
Lemma candidates_digits p q n k s n' :
  0 < p → 0 < q → is_decimal_exponent p q n → 1 ≤ k →
  In (s, n') (JsToString.candidates p q n k) →
  10 ^ (k - 1) ≤ s < 10 ^ k.
Proof.
  intros Hp Hq [Hlt Hge] Hk Hin.
  apply (below_pow10_spec p q) in Hlt.
  assert (¬ p * 10 ^ Z.max 0 (- (n - 1)) < q * 10 ^ Z.max 0 (n - 1)) as Hge'.
  { rewrite <- (below_pow10_spec p q). by rewrite Hge. }
  clear Hge. rewrite candidates_unfold in Hin. cbv zeta in Hin.
  set (P := if 0 <=? k - n then p * 10 ^ (k - n) else p) in *.
  set (Q := if 0 <=? k - n then q else q * 10 ^ (- (k - n))) in *.
  assert (0 < 10 ^ (k - 1)) as H10 by (apply Z.pow_pos_nonneg; lia).
  assert (10 ^ (k - 1) < 10 ^ k) as H10' by (apply Z.pow_lt_mono_r; lia).
  assert (0 < Q ∧ Q * 10 ^ (k - 1) ≤ P ∧ P < Q * 10 ^ k) as (HQ & Hlo & Hhi).
  { subst P Q. destruct (Z.leb_spec 0 (k - n)) as [Hj|Hj].
    - split; [done|]. destruct (Z.le_gt_cases 1 n) as [Hn|Hn].
      + rewrite (Z.max_l 0 (- n)), (Z.max_r 0 n), Z.pow_0_r, Z.mul_1_r in Hlt by lia.
        rewrite (Z.max_l 0 (- _)), (Z.max_r 0 (n - 1)), Z.pow_0_r, Z.mul_1_r in Hge' by lia.
        assert (0 < 10 ^ (k - n)) by (apply Z.pow_pos_nonneg; lia).
        assert (10 ^ k = 10 ^ n * 10 ^ (k - n)) as ->
          by (rewrite <- Z.pow_add_r by lia; f_equal; lia).
        assert (10 ^ (k - 1) = 10 ^ (n - 1) * 10 ^ (k - n)) as ->
          by (rewrite <- Z.pow_add_r by lia; f_equal; lia).
        rewrite !Z.mul_assoc. split.
        * apply Z.mul_le_mono_nonneg_r; lia.
        * apply Z.mul_lt_mono_pos_r; lia.
      + rewrite (Z.max_r 0 (- n)), (Z.max_l 0 n), Z.pow_0_r, Z.mul_1_r in Hlt by lia.
        rewrite (Z.max_r 0 (- _)), (Z.max_l 0 (n - 1)), Z.pow_0_r, Z.mul_1_r in Hge' by lia.
        assert (0 < 10 ^ k) by (apply Z.pow_pos_nonneg; lia).
        assert (10 ^ (k - n) = 10 ^ (- n) * 10 ^ k) as E1
          by (rewrite <- Z.pow_add_r by lia; f_equal; lia).
        assert (10 ^ (k - n) = 10 ^ (- (n - 1)) * 10 ^ (k - 1)) as E2
          by (rewrite <- Z.pow_add_r by lia; f_equal; lia).
        split.
        * rewrite E2, Z.mul_assoc. apply Z.mul_le_mono_nonneg_r; lia.
        * rewrite E1, Z.mul_assoc. apply Z.mul_lt_mono_pos_r; lia.
    - rewrite (Z.max_l 0 (- n)), (Z.max_r 0 n), Z.pow_0_r, Z.mul_1_r in Hlt by lia.
      rewrite (Z.max_l 0 (- _)), (Z.max_r 0 (n - 1)), Z.pow_0_r, Z.mul_1_r in Hge' by lia.
      assert (0 < 10 ^ (- (k - n))) by (apply Z.pow_pos_nonneg; lia).
      split; [lia|].
      assert (10 ^ n = 10 ^ (- (k - n)) * 10 ^ k) as E1
        by (rewrite <- Z.pow_add_r by lia; f_equal; lia).
      assert (10 ^ (n - 1) = 10 ^ (- (k - n)) * 10 ^ (k - 1)) as E2
        by (rewrite <- Z.pow_add_r by lia; f_equal; lia).
      rewrite E1 in Hlt. rewrite E2 in Hge'. rewrite <- !Z.mul_assoc. lia. }
  assert (10 ^ (k - 1) ≤ P / Q < 10 ^ k) as [Hs1 Hs2].
  { split; [apply Z.div_le_lower_bound; lia|apply Z.div_lt_upper_bound; lia]. }
  assert ((s, n') = (P / Q, n) ∨
          (s, n') = (if P / Q + 1 =? 10 ^ k then (10 ^ (k - 1), n + 1) else (P / Q + 1, n)))
    as [[= -> ->]|Hhi'].
  { destruct (2 * (P mod Q) ?= Q); [destruct (Z.even (P / Q))| |];
      destruct Hin as [Hin|[Hin|[]]]; rewrite <- Hin; auto. }
  - done.
  - destruct (Z.eqb_spec (P / Q + 1) (10 ^ k)); injection Hhi' as -> ->; lia.
Qed.

Lemma number_same_refl x : JsToString.number_same x x = true.
Proof.
  destruct x as [| | |sx m e]; cbn; rewrite ?Bool.eqb_reflx; try done.
  by rewrite Pos.eqb_refl, Z.eqb_refl.
Qed.

(** The digits of the exact decimal expansion of a binary64 value are
    among the candidates, and they read back as the value. *)
Lemma candidates_exact m e p q n :
  bounded Js.prec Js.emax m e = true →
  (p, q) = (if 0 <=? e then (Zpos m * 2 ^ e, 1) else (Zpos m, 2 ^ (- e))) →
  is_decimal_exponent p q n →
  1 ≤ n + Z.max 0 (- e) ∧
  ∃ c, List.find (λ '(s, n'), JsToString.number_same
                                (Js.decimal_to_number false s (n' - (n + Z.max 0 (- e))))
                                (S754_finite false m e))
         (JsToString.candidates p q n (n + Z.max 0 (- e))) = Some c.
Proof.
  intros Hb Hpq [Hlt Hge].
  set (K := n + Z.max 0 (- e)).
  assert (0 < p ∧ 0 < q) as [Hp Hq].
  { destruct (Z.leb_spec 0 e); injection Hpq as -> ->; split;
      try lia; try (apply Z.pow_pos_nonneg; lia);
      try (apply Z.mul_pos_pos; [lia|apply Z.pow_pos_nonneg; lia]). }
  apply (below_pow10_spec p q) in Hlt.
  assert (p * 10 ^ (K - n) = (p * 10 ^ (K - n) / q) * q ∧ 0 < p * 10 ^ (K - n) / q)
    as [Hexact Hs].
  { subst K. replace (n + Z.max 0 (- e) - n) with (Z.max 0 (- e)) by lia.
    destruct (Z.leb_spec 0 e); injection Hpq as -> ->.
    - rewrite Z.div_1_r, Z.mul_1_r. split; [done|].
      rewrite Z.max_l, Z.pow_0_r by lia.
      assert (0 < 2 ^ e) by (apply Z.pow_pos_nonneg; lia). lia.
    - rewrite Z.max_r by lia.
      replace 10 with (5 * 2) by done. rewrite Z.pow_mul_l, Z.mul_assoc.
      assert (0 < 2 ^ (- e)) by (apply Z.pow_pos_nonneg; lia).
      assert (0 < 5 ^ (- e)) by (apply Z.pow_pos_nonneg; lia).
      rewrite Z.div_mul by lia. split; [done|]. lia. }
  assert (1 ≤ K) as HK.
  { destruct (Z.le_gt_cases 1 K) as [|HK]; [done|exfalso].
    assert (0 ≤ K - n) by (subst K; lia).
    assert (0 < 10 ^ (K - n)) by (apply Z.pow_pos_nonneg; lia).
    assert (n ≤ 0) by (subst K; lia).
    rewrite (Z.max_r 0 (- n)), (Z.max_l 0 n), Z.pow_0_r, Z.mul_1_r in Hlt by lia.
    assert (10 ^ (K - n) ≤ 10 ^ (- n)) by (apply Z.pow_le_mono_r; lia).
    assert (q ≤ p * 10 ^ (K - n)); [|nia].
    rewrite Hexact.
    apply Z.le_trans with (1 * q); [lia|]. apply Z.mul_le_mono_nonneg_r; lia. }
  split; [done|].
  rewrite candidates_unfold. cbv zeta.
  assert ((0 <=? K - n) = true) as -> by (apply Z.leb_le; subst K; lia).
  set (P := p * 10 ^ (K - n)) in *.
  assert (P mod q = 0) as -> by (rewrite Hexact; apply Z.mod_mul; lia).
  assert ((2 * 0 ?= q) = Lt) as -> by (by apply Z.compare_lt_iff).
  eexists. cbn [find].
  rewrite (decimal_to_number_exact) with (m := m) (e := e); [by rewrite number_same_refl|done|done|].
  unfold same_value. replace (n - K) with (- Z.max 0 (- e)) by (subst K; lia).
  subst P K. replace (n + Z.max 0 (- e) - n) with (Z.max 0 (- e)) in * by lia.
  destruct (Z.leb_spec 0 e); injection Hpq as -> ->.
  - rewrite !(Z.max_l 0 (- e)) in * by lia. change (- 0) with 0.
    rewrite (Z.max_r 0 e) by lia. change (Z.max 0 0) with 0.
    rewrite Z.pow_0_r, Z.div_1_r.
    replace (Z.max 0 (- 0)) with 0 by done. rewrite !Z.pow_0_r. ring.
  - rewrite !(Z.max_r 0 (- e)) in * by lia. rewrite Z.opp_involutive.
    rewrite (Z.max_l 0 e) by lia. rewrite (Z.max_r 0 (- e)) by lia.
    rewrite !Z.pow_0_r, !Z.mul_1_r. by rewrite <- Hexact.
Qed.

(** The search of [shortest_digits] ends, at the latest at [K] digits
    when a candidate for [K] digits reads back as [x], with a candidate
    that reads back as [x]. *)
Lemma shortest_digits_found x p q n K c : ∀ fuel k,
  k ≤ K ≤ k + Z.of_nat fuel →
  List.find (λ '(s, n'), JsToString.number_same (Js.decimal_to_number false s (n' - K)) x)
            (JsToString.candidates p q n K) = Some c →
  ∃ s n' k', JsToString.shortest_digits fuel x p q n k = (s, n', k') ∧
             k ≤ k' ≤ K ∧
             In (s, n') (JsToString.candidates p q n k') ∧
             Js.decimal_to_number false s (n' - k') = x.
Proof.
  intros fuel. induction fuel as [|fuel IH]; intros k HK Hfind.
  - assert (K = k) as -> by lia. cbn [JsToString.shortest_digits].
    rewrite Hfind. destruct c as [s n']. exists s, n', k.
    apply find_some in Hfind as [Hin Hsame].
    repeat split; [lia|lia|done|by apply number_same_eq].
  - cbn [JsToString.shortest_digits].
    destruct (find _ (JsToString.candidates p q n k)) as [[s n']|] eqn:Hk.
    + exists s, n', k. apply find_some in Hk as [Hin Hsame].
      repeat split; [lia|lia|done|by apply number_same_eq].
    + assert (K ≠ k) by (intros ->; congruence).
      destruct (IH (k + 1)) as (s & n' & k' & ? & ? & ? & ?); [lia|done|].
      exists s, n', k'. repeat split; [done|lia|lia|done|done].
Qed.

End Digits.

(** *** The rendering of a Number, read back *)

Section Rendering.

Local Open Scope Z_scope.

Lemma digit_char_spec d :
  0 ≤ d < 10 →
  Js.is_digit (JsToString.digit_char d) = true ∧
  Js.digit_value (JsToString.digit_char d) = d.
Proof.
  intros Hd.
  assert (In d [0; 1; 2; 3; 4; 5; 6; 7; 8; 9]) as Hin by (cbn; lia).
  repeat (destruct Hin as [<-|Hin]; [by vm_compute|]). destruct Hin.
Qed.

Lemma decimal_digits_go_spec fuel : ∀ z acc,
  0 ≤ z < 10 ^ Z.of_nat fuel → (1 ≤ fuel)%nat →
  ∃ ds, JsToString.decimal_digits_go fuel z acc = ds +:+ acc ∧
        DecimalDigits ds ∧
        (∀ a, Js.digits_value a ds = a * 10 ^ Z.of_nat (String.length ds) + z) ∧
        z < 10 ^ Z.of_nat (String.length ds) ∧
        (String.length ds = 1%nat ∨ 10 ^ (Z.of_nat (String.length ds) - 1) ≤ z).
Proof.
  induction fuel as [|fuel IH]; intros z acc Hz Hfuel; [lia|].
  cbn [JsToString.decimal_digits_go].
  destruct (Z.ltb_spec z 10) as [Hlt|Hge].
  - exists (String (JsToString.digit_char (z mod 10)) "").
    rewrite Z.mod_small by lia.
    destruct (digit_char_spec z) as [Hd Hv]; [lia|].
    change (String.length (String (JsToString.digit_char z) "")) with 1%nat.
    change (Z.of_nat 1) with 1.
    split; [done|]. split; [split; [done|by cbn; rewrite Hd]|].
    split; [intros a; cbn [Js.digits_value]; rewrite Hv; lia|].
    split; [lia|by left].
  - destruct fuel as [|fuel'].
    { change (10 ^ Z.of_nat 1) with 10 in Hz. lia. }
    destruct (IH (z / 10) (String (JsToString.digit_char (z mod 10)) acc))
      as (ds & Hgo & [Hne Hds] & Hval & Hup & Hlow).
    { split; [apply Z.div_pos; lia|]. apply Z.div_lt_upper_bound; [lia|].
      rewrite (Nat2Z.inj_succ (S fuel')), Z.pow_succ_r in Hz by lia. lia. }
    { lia. }
    exists (ds +:+ String (JsToString.digit_char (z mod 10)) "").
    destruct (digit_char_spec (z mod 10)) as [Hd Hv]; [apply Z.mod_pos_bound; lia|].
    rewrite Hgo. split; [by rewrite string_app_assoc|].
    rewrite string_length_app. cbn [String.length].
    replace (Z.of_nat (String.length ds + 1)) with (Z.of_nat (String.length ds) + 1) by lia.
    rewrite Z.pow_add_r, Z.pow_1_r by lia.
    pose proof (Z.div_mod z 10 ltac:(lia)) as Hdm.
    pose proof (Z.mod_pos_bound z 10 ltac:(lia)) as Hmod.
    split; [split; [by destruct ds|rewrite is_digits_app, Hds; cbn; by rewrite Hd]|].
    split.
    { intros a. rewrite digits_value_app, Hval. cbn [Js.digits_value]. rewrite Hv. lia. }
    split; [lia|]. right.
    replace (Z.of_nat (String.length ds) + 1 - 1) with (Z.of_nat (String.length ds)) by lia.
    destruct Hlow as [->|Hlow]; [change (10 ^ Z.of_nat 1) with 10; lia|].
    assert (10 ^ Z.of_nat (String.length ds) = 10 * 10 ^ (Z.of_nat (String.length ds) - 1)) as ->.
    { rewrite <- Z.pow_succ_r by (destruct ds; [done|cbn [String.length]; lia]).
      f_equal. lia. }
    lia.
Qed.

(** [decimal_digits z] is the decimal numeral of [z], without leading
    zeros. *)
Lemma decimal_digits_value z :
  0 ≤ z →
  DecimalDigits (JsToString.decimal_digits z) ∧
  (∀ a, Js.digits_value a (JsToString.decimal_digits z) =
          a * 10 ^ Z.of_nat (String.length (JsToString.decimal_digits z)) + z) ∧
  z < 10 ^ Z.of_nat (String.length (JsToString.decimal_digits z)) ∧
  (String.length (JsToString.decimal_digits z) = 1%nat ∨
   10 ^ (Z.of_nat (String.length (JsToString.decimal_digits z)) - 1) ≤ z).
Proof.
  intros Hz. unfold JsToString.decimal_digits.
  destruct (decimal_digits_go_spec (S (Z.to_nat (Z.log2 z))) z "") as (ds & Hgo & H).
  - split; [done|]. rewrite Nat2Z.inj_succ, Z2Nat.id by apply Z.log2_nonneg.
    destruct (Z.eq_dec z 0) as [->|]; [done|].
    apply Z.lt_le_trans with (2 ^ Z.succ (Z.log2 z)); [apply Z.log2_spec; lia|].
    apply pow2_le_pow10. pose proof (Z.log2_nonneg z). lia.
  - lia.
  - rewrite Hgo, string_app_empty_r. done.
Qed.

Lemma decimal_digits_length z k :
  1 ≤ k → 10 ^ (k - 1) ≤ z < 10 ^ k →
  Z.of_nat (String.length (JsToString.decimal_digits z)) = k.
Proof.
  intros Hk [Hlo Hhi].
  assert (0 < 10 ^ (k - 1)) by (apply Z.pow_pos_nonneg; lia).
  destruct (decimal_digits_value z) as (Hd & _ & Hup & Hlow); [lia|].
  assert (1 ≤ Z.of_nat (String.length (JsToString.decimal_digits z))) as Hlen.
  { destruct Hd as [Hne _]. destruct (JsToString.decimal_digits z); [done|].
    cbn [String.length]. lia. }
  set (len := Z.of_nat _) in *.
  destruct (Z.lt_trichotomy len k) as [Hc|[Hc|Hc]]; [exfalso|done|exfalso].
  - assert (10 ^ len ≤ 10 ^ (k - 1)) by (apply Z.pow_le_mono_r; lia). lia.
  - destruct Hlow as [Hl|Hl]; [subst len; lia|].
    assert (10 ^ k ≤ 10 ^ (len - 1)) by (apply Z.pow_le_mono_r; lia). lia.
Qed.

Lemma zeros_digits j : is_digits (JsToString.zeros j) = true.
Proof. induction j as [|j IH]; [done|]. cbn [JsToString.zeros is_digits]. by rewrite IH. Qed.

Lemma zeros_length j : String.length (JsToString.zeros j) = j.
Proof. induction j as [|j IH]; [done|]. cbn [JsToString.zeros String.length]. by rewrite IH. Qed.

Lemma digits_value_zeros a j :
  Js.digits_value a (JsToString.zeros j) = a * 10 ^ Z.of_nat j.
Proof.
  revert a. induction j as [|j IH]; intros a.
  - cbn. lia.
  - cbn [JsToString.zeros Js.digits_value]. rewrite IH.
    change (Js.digit_value "0") with 0.
    rewrite Nat2Z.inj_succ, Z.pow_succ_r by lia. lia.
Qed.

Lemma substring_all s : String.substring 0 (String.length s) s = s.
Proof. induction s as [|c s IH]; [done|]. cbn. by rewrite IH. Qed.

Lemma substring_split a : ∀ s,
  (a ≤ String.length s)%nat →
  ∃ x y, s = x +:+ y ∧ String.length x = a ∧
         String.substring 0 a s = x ∧
         String.substring a (String.length s - a) s = y.
Proof.
  induction a as [|a IH]; intros s Ha.
  - exists "", s. rewrite Nat.sub_0_r, substring_all. repeat split; by destruct s.
  - destruct s as [|c s]; [cbn in Ha; lia|]. cbn [String.length] in Ha.
    destruct (IH s) as (x & y & Hs & Hx & H1 & H2); [lia|].
    exists (String c x), y. cbn [String.length]. rewrite Nat.sub_succ.
    repeat split.
    + by rewrite string_app_cons, <- Hs.
    + by rewrite Hx.
    + cbn. by rewrite H1.
    + cbn. by rewrite H2.
Qed.

Lemma is_word_app a b : is_word (a +:+ b) = is_word a && is_word b.
Proof.
  induction a as [|c a IH]; [done|]. rewrite string_app_cons. cbn [is_word].
  by rewrite IH, andb_assoc.
Qed.

Lemma digits_word ds : is_digits ds = true → is_word ds = true.
Proof.
  induction ds as [|c ds IH]; [done|]. cbn [is_digits is_word].
  intros [Hc Hds]%andb_prop. rewrite IH by done.
  unfold is_separator.
  destruct (Ascii.eqb_spec c newline) as [->|]; [by vm_compute in Hc|].
  destruct (Ascii.eqb_spec c space) as [->|]; [by vm_compute in Hc|]. done.
Qed.

Lemma scan_exponent_rendered e :
  Js.scan_exponent
    ("e" +:+ (if e <? 0 then "-" else "+") +:+ JsToString.decimal_digits (Z.abs e)) = (e, "") ∧
  is_word ("e" +:+ (if e <? 0 then "-" else "+") +:+ JsToString.decimal_digits (Z.abs e)) = true.
Proof.
  destruct (decimal_digits_value (Z.abs e)) as ([Hne Hds] & Hval & _); [lia|].
  set (eds := JsToString.decimal_digits (Z.abs e)) in *.
  specialize (Hval 0). rewrite Z.mul_0_l, Z.add_0_l in Hval.
  assert (Js.span_digits eds = (eds, "")) as Hspan.
  { rewrite <- (string_app_empty_r eds) at 1. by apply span_digits_app. }
  assert (is_word eds = true) as Hw by by apply digits_word.
  destruct (Z.ltb_spec e 0); string_simpl; (split; [|by cbn [is_word]; rewrite Hw]);
    cbn [Js.scan_exponent Js.scan_sign Ascii.eqb Bool.eqb orb];
    rewrite Hspan; (destruct eds as [|c eds']; [done|]);
    rewrite Hval; cbn [cond_Zopp]; f_equal; lia.
Qed.

Lemma parseFloat_rendered (neg : bool) c u l r :
  Js.is_digit c = true → Js.scan_unsigned (String c u) = Some (l, r) →
  Js.parseFloat ((if neg then "-" else "") +:+ String c u) = Js.literal_value neg l.
Proof.
  intros Hc Hscan. unfold Js.parseFloat.
  assert (Js.is_white_space c = false ∧ Js.scan_sign (String c u) = (false, String c u))
    as [Hw Hs] by (apply literal_start_plain; by left).
  destruct neg; string_simpl.
  - change (Js.trim_start (String "-" (String c u))) with (String "-" (String c u)).
    change (Js.scan_sign (String "-" (String c u))) with (true, String c u).
    cbv iota beta. by rewrite Hscan.
  - cbn [Js.trim_start]. by rewrite Hw, Hs, Hscan.
Qed.

Lemma sign_word (neg : bool) text :
  is_word text = true → is_word ((if neg then "-" else "") +:+ text) = true.
Proof. intros Hw. rewrite is_word_app, Hw. by destruct neg. Qed.

(** Digits, then nothing or an exponent part. *)
Lemma rendered_int (neg : bool) ip tail z :
  DecimalDigits ip → ends_mantissa tail → Js.scan_exponent tail = (z, "") →
  is_word tail = true →
  is_word ((if neg then "-" else "") +:+ ip +:+ tail) = true ∧
  Js.parseFloat ((if neg then "-" else "") +:+ ip +:+ tail) =
    Js.decimal_to_number neg (Js.digits_value 0 ip) z.
Proof.
  intros Hip Htail Hexp Hw.
  pose proof (scan_int ip tail Hip Htail) as Hscan. rewrite Hexp in Hscan.
  split.
  - apply sign_word. rewrite is_word_app, Hw, digits_word; [done|apply Hip].
  - destruct (digits_head ip Hip) as (c & ip' & -> & Hc).
    rewrite string_app_cons in *.
    by rewrite (parseFloat_rendered neg c _ _ _ Hc Hscan).
Qed.

(** Digits, a point, digits, then nothing or an exponent part. *)
Lemma rendered_frac (neg : bool) ip fp tail z :
  DecimalDigits ip → is_digits fp = true → no_digit_ahead tail →
  Js.scan_exponent tail = (z, "") → is_word tail = true →
  is_word ((if neg then "-" else "") +:+ ip +:+ "." +:+ fp +:+ tail) = true ∧
  Js.parseFloat ((if neg then "-" else "") +:+ ip +:+ "." +:+ fp +:+ tail) =
    Js.decimal_to_number neg (Js.digits_value 0 (ip +:+ fp))
                         (z - Z.of_nat (String.length fp)).
Proof.
  intros Hip Hfp Htail Hexp Hw.
  pose proof (scan_frac ip fp tail Hip Hfp Htail) as Hscan. rewrite Hexp in Hscan.
  split.
  - apply sign_word. rewrite !is_word_app, Hw.
    rewrite (digits_word ip) by apply Hip. by rewrite (digits_word fp) by done.
  - destruct (digits_head ip Hip) as (c & ip' & -> & Hc).
    rewrite string_app_cons in *.
    by rewrite (parseFloat_rendered neg c _ _ _ Hc Hscan).
Qed.

(** The sign of a literal only sets the sign of its value. *)
Lemma binary_round_aux_sign sx mx ex lx m e :
  binary_round_aux Js.prec Js.emax false mx ex lx = S754_finite false m e →
  binary_round_aux Js.prec Js.emax sx mx ex lx = S754_finite sx m e.
Proof.
  unfold binary_round_aux.
  destruct (shr_fexp _ _ mx ex lx) as [mrs' e'].
  destruct (shr_fexp _ _ _ e' loc_Exact) as [mrs'' e''].
  destruct (shr_m mrs''); [done| |done].
  destruct (e'' <=? Js.emax - Js.prec); [|done]. by intros [= -> ->].
Qed.

Lemma decimal_to_number_sign neg s t m e :
  0 < s →
  Js.decimal_to_number false s t = S754_finite false m e →
  Js.decimal_to_number neg s t = S754_finite neg m e.
Proof.
  intros Hs. unfold Js.decimal_to_number.
  destruct (Z.eqb_spec s 0); [lia|].
  destruct (Z.leb_spec 0 t).
  - assert (0 < s * 10 ^ t) as Hpos.
    { apply Z.mul_pos_pos; [done|]. apply Z.pow_pos_nonneg; lia. }
    destruct (s * 10 ^ t) as [|z|z]; [lia| |lia].
    destruct neg; [|done].
    change (cond_Zopp true (Z.pos z)) with (Z.neg z).
    change (cond_Zopp false (Z.pos z)) with (Z.pos z).
    unfold binary_normalize, binary_round.
    destruct (shl_align z 0 _) as [mz ez]. apply binary_round_aux_sign.
  - destruct (Z.div_eucl _ _) as [q r]. apply binary_round_aux_sign.
Qed.

Lemma decimal_to_number_zeros neg s j :
  0 < s → 0 ≤ j →
  Js.decimal_to_number neg (s * 10 ^ j) 0 = Js.decimal_to_number neg s j.
Proof.
  intros Hs Hj. unfold Js.decimal_to_number.
  assert (0 < s * 10 ^ j) as Hpos.
  { apply Z.mul_pos_pos; [done|]. apply Z.pow_pos_nonneg; lia. }
  destruct (Z.eqb_spec (s * 10 ^ j) 0); [lia|].
  destruct (Z.eqb_spec s 0); [lia|].
  destruct (Z.leb_spec 0 j); [|lia].
  change (0 <=? 0) with true. cbv iota. by rewrite Z.pow_0_r, Z.mul_1_r.
Qed.

(** The exponent layouts: [d e±x] and [d.ddd e±x]. *)
Lemma exponent_layout_reads_back (neg : bool) s n k :
  1 ≤ k → 10 ^ (k - 1) ≤ s < 10 ^ k →
  let ds := JsToString.decimal_digits s in
  let exponent :=
    (if n - 1 <? 0 then "-" else "+") +:+ JsToString.decimal_digits (Z.abs (n - 1)) in
  let text :=
    if k =? 1 then ds +:+ "e" +:+ exponent
    else String.substring 0 1 ds +:+ "." +:+
         String.substring 1 (Z.to_nat (k - 1)) ds +:+ "e" +:+ exponent in
  is_word ((if neg then "-" else "") +:+ text) = true ∧
  Js.parseFloat ((if neg then "-" else "") +:+ text) = Js.decimal_to_number neg s (n - k).
Proof.
  intros Hk Hs.
  destruct (decimal_digits_value s) as (Hds & Hval & _).
  { assert (0 < 10 ^ (k - 1)) by (apply Z.pow_pos_nonneg; lia). lia. }
  pose proof (decimal_digits_length s k Hk Hs) as Hlen.
  pose proof (Hval 0) as Hval0. rewrite Z.mul_0_l, Z.add_0_l in Hval0.
  destruct (scan_exponent_rendered (n - 1)) as [Hexp Hwe].
  cbv zeta. set (ds := JsToString.decimal_digits s) in *.
  set (tail := "e" +:+ (if n - 1 <? 0 then "-" else "+") +:+
               JsToString.decimal_digits (Z.abs (n - 1))) in *.
  assert (ends_mantissa tail ∧ no_digit_ahead tail) as [Hem Hnd].
  { subst tail. rewrite string_app_cons. by cbn. }
  destruct (Z.eqb_spec k 1) as [->|Hk1].
  - destruct (rendered_int neg ds tail (n - 1)) as [Hw Hpf]; [done..|].
    split; [done|]. by rewrite Hpf, Hval0.
  - destruct (substring_split 1 ds) as (x & y & Hxy & Hx & -> & Hy); [lia|].
    replace (Z.to_nat (k - 1)) with (String.length ds - 1)%nat by lia.
    rewrite Hy.
    assert (is_digits x = true ∧ is_digits y = true) as [Hdx Hdy].
    { destruct Hds as [_ Hds]. rewrite Hxy, is_digits_app in Hds.
      by apply andb_prop in Hds. }
    assert (Z.of_nat (String.length y) = k - 1) as Hly.
    { rewrite Hxy, string_length_app in Hlen. lia. }
    destruct (rendered_frac neg x y tail (n - 1)) as [Hw Hpf]; [|done..|].
    { split; [|done]. by intros ->. }
    split; [done|]. rewrite Hpf, <- Hxy, Hval0, Hly. f_equal. lia.
Qed.

(** What [format_digits] writes for the [k] digits [s] and the exponent
    [n] is one word, and [parseFloat] reads it as [s * 10 ^ (n - k)]. *)
Lemma format_digits_reads_back (neg : bool) s n k :
  1 ≤ k → 10 ^ (k - 1) ≤ s < 10 ^ k →
  is_word ((if neg then "-" else "") +:+ JsToString.format_digits s n k) = true ∧
  Js.parseFloat ((if neg then "-" else "") +:+ JsToString.format_digits s n k) =
    Js.decimal_to_number neg s (n - k).
Proof.
  intros Hk Hs.
  assert (0 < s) as Hpos.
  { assert (0 < 10 ^ (k - 1)) by (apply Z.pow_pos_nonneg; lia). lia. }
  destruct (decimal_digits_value s) as (Hds & Hval & _); [lia|].
  pose proof (decimal_digits_length s k Hk Hs) as Hlen.
  pose proof (Hval 0) as Hval0. rewrite Z.mul_0_l, Z.add_0_l in Hval0.
  pose proof (exponent_layout_reads_back neg s n k Hk Hs) as Hexp. cbv zeta in Hexp.
  unfold JsToString.format_digits. cbv zeta.
  set (ds := JsToString.decimal_digits s) in *.
  destruct ((k <=? n) && (n <=? 21)) eqn:E1;
    [|destruct ((0 <? n) && (n <=? 21)) eqn:E2;
      [|destruct ((-6 <? n) && (n <=? 0)) eqn:E3; [|exact Hexp]]];
    clear Hexp;
    rewrite ?andb_true_iff, ?andb_false_iff, ?Z.leb_le, ?Z.leb_gt, ?Z.ltb_lt, ?Z.ltb_ge in *.
  - (* digits and zeros *)
    rewrite <- (string_app_empty_r (ds +:+ _)), string_app_assoc.
    destruct (rendered_int neg (ds +:+ JsToString.zeros (Z.to_nat (n - k))) "" 0)
      as [Hw Hpf]; [|done|done|done|].
    { apply digits_more; [done|apply zeros_digits]. }
    rewrite string_app_assoc in Hw, Hpf.
    split; [done|]. rewrite Hpf, digits_value_app, Hval0, digits_value_zeros.
    rewrite Z2Nat.id by lia. apply decimal_to_number_zeros; lia.
  - (* a point inside the digits *)
    destruct (substring_split (Z.to_nat n) ds) as (x & y & Hxy & Hx & -> & Hy); [lia|].
    replace (Z.to_nat (k - n)) with (String.length ds - Z.to_nat n)%nat by lia.
    rewrite Hy.
    assert (is_digits x = true ∧ is_digits y = true) as [Hdx Hdy].
    { destruct Hds as [_ Hds]. rewrite Hxy, is_digits_app in Hds.
      by apply andb_prop in Hds. }
    assert (Z.of_nat (String.length y) = k - n) as Hly.
    { rewrite Hxy, string_length_app in Hlen. lia. }
    rewrite <- (string_app_empty_r y).
    destruct (rendered_frac neg x y "" 0) as [Hw Hpf]; [|done|done|done|done|].
    { split; [|done]. intros ->. cbn in Hx. lia. }
    split; [done|]. rewrite Hpf, <- Hxy, Hval0, Hly. f_equal. lia.
  - (* zeros after the point *)
    change ("0." +:+ JsToString.zeros (Z.to_nat (- n)) +:+ ds)
      with ("0" +:+ "." +:+ JsToString.zeros (Z.to_nat (- n)) +:+ ds).
    rewrite <- (string_app_empty_r ds) at 1 2.
    rewrite <- (string_app_assoc (JsToString.zeros _) ds "").
    destruct (rendered_frac neg "0" (JsToString.zeros (Z.to_nat (- n)) +:+ ds) "" 0)
      as [Hw Hpf]; [done| |done|done|done|].
    { rewrite is_digits_app, zeros_digits. apply Hds. }
    split; [done|]. rewrite Hpf.
    change ("0" +:+ JsToString.zeros (Z.to_nat (- n)) +:+ ds)
      with (JsToString.zeros (S (Z.to_nat (- n))) +:+ ds).
    rewrite digits_value_app, digits_value_zeros, Z.mul_0_l, Hval0.
    rewrite string_length_app, zeros_length. f_equal. lia.
Qed.

End Rendering.

(** *** Every Number but negative zero and NaN reads back *)

Section ReadBack.

Local Open Scope Z_scope.

Lemma finite_reads_back neg m e :
  bounded Js.prec Js.emax m e = true →
  number_reads_back (S754_finite neg m e) = true.
Proof.
  intros Hb. unfold number_reads_back, JsToString.number_to_string.
  destruct (if 0 <=? e then (Z.pos m * 2 ^ e, 1) else (Z.pos m, 2 ^ (- e)))
    as [p q] eqn:Hpq.
  assert (0 < p ∧ 0 < q) as [Hp Hq].
  { destruct (Z.leb_spec 0 e); injection Hpq as <- <-; split;
      try lia; try (apply Z.pow_pos_nonneg; lia);
      try (apply Z.mul_pos_pos; [lia|apply Z.pow_pos_nonneg; lia]). }
  pose proof (decimal_exponent_spec p q Hp Hq) as Hn.
  set (n := JsToString.decimal_exponent p q) in *.
  destruct (candidates_exact m e p q n Hb (eq_sym Hpq) Hn) as [HK [c Hc]].
  destruct (shortest_digits_found (S754_finite false m e) p q n (n + Z.max 0 (- e)) c
              (Z.to_nat (n + Z.max 0 (- e))) 1)
    as (s & n' & k & -> & Hk & Hin & Hval); [lia|done|].
  pose proof (candidates_digits p q n k s n' Hp Hq Hn ltac:(lia) Hin) as Hs.
  destruct (format_digits_reads_back neg s n' k ltac:(lia) Hs) as [-> ->].
  rewrite (decimal_to_number_sign neg s (n' - k) m e), number_same_refl; [done| |done].
  assert (0 < 10 ^ (k - 1)) by (apply Z.pow_pos_nonneg; lia). lia.
Qed.

Lemma plain_number_reads_back x :
  plain_number x = true → number_reads_back x = true.
Proof.
  destruct x as [[]|[]| |neg m e]; try done.
  unfold plain_number. cbn [valid_binary]. rewrite !andb_true_r.
  apply finite_reads_back.
Qed.

End ReadBack.

(** *** What [parseFloat] returns is a binary64 value *)

Section Validity.

Local Open Scope Z_scope.

Lemma shr_1_half mrs : 0 ≤ shr_m mrs → shr_m (shr_1 mrs) = shr_m mrs / 2.
Proof.
  destruct mrs as [[|[p|p|]|p] r s]; cbn [shr_m shr_1]; intros H; try done.
  - apply (Z.div_unique _ _ _ 1); lia.
  - apply (Z.div_unique _ _ _ 0); lia.
Qed.

Lemma iter_shr_1_div (n : nat) mrs :
  0 ≤ shr_m mrs → shr_m (Nat.iter n shr_1 mrs) = shr_m mrs / 2 ^ Z.of_nat n.
Proof.
  intros Hm. induction n as [|n IH].
  - cbn. by rewrite Z.div_1_r.
  - rewrite Nat.iter_succ, shr_1_half, IH.
    + rewrite Nat2Z.inj_succ, Z.pow_succ_r, (Z.mul_comm 2), Z.div_div by lia. done.
    + rewrite IH. apply Z.div_pos; [done|]. apply Z.pow_pos_nonneg; lia.
Qed.

Lemma shr_record_of_loc_m m l : shr_m (shr_record_of_loc m l) = m.
Proof. by destruct l as [|[]]. Qed.

(** [shr_fexp] divides the mantissa by a power of two, or leaves it. *)
Lemma shr_fexp_spec m e l mrs e' :
  0 ≤ m → shr_fexp Js.prec Js.emax m e l = (mrs, e') →
  let n := fexp Js.prec Js.emax (Zdigits2 m + e) - e in
  (n ≤ 0 ∧ shr_m mrs = m ∧ e' = e) ∨
  (0 < n ∧ shr_m mrs = m / 2 ^ n ∧ e' = e + n).
Proof.
  intros Hm. unfold shr_fexp, shr. cbv zeta.
  destruct (fexp Js.prec Js.emax (Zdigits2 m + e) - e) as [|n|n] eqn:Hn;
    intros [= <- <-].
  - left. by rewrite shr_record_of_loc_m.
  - right. rewrite iter_pos_nat, iter_shr_1_div, shr_record_of_loc_m, positive_nat_Z;
      [done|by rewrite shr_record_of_loc_m].
  - left. rewrite shr_record_of_loc_m. split; [lia|done].
Qed.

Lemma Zdigits2_bounds m :
  0 < m → 2 ^ (Zdigits2 m - 1) ≤ m < 2 ^ Zdigits2 m.
Proof. destruct m as [|p|p]; [lia| |lia]. intros _. apply digits2_bounds. Qed.

Lemma Zdigits2_unique m d : 2 ^ (d - 1) ≤ m < 2 ^ d → 0 < m → Zdigits2 m = d.
Proof. destruct m as [|p|p]; [lia| |lia]. intros H _. by apply digits2_unique. Qed.

Lemma Zdigits2_pos m : 0 < m → 0 < Zdigits2 m.
Proof. by destruct m. Qed.

Lemma Zdigits2_mono a b : 0 < a → a ≤ b → Zdigits2 a ≤ Zdigits2 b.
Proof.
  intros Ha Hab.
  pose proof (Zdigits2_bounds a Ha) as [Hlo _].
  pose proof (Zdigits2_bounds b ltac:(lia)) as [_ Hhi].
  destruct (Z.le_gt_cases (Zdigits2 a) (Zdigits2 b)) as [|Hlt]; [done|].
  assert (2 ^ Zdigits2 b ≤ 2 ^ (Zdigits2 a - 1)) by (apply Z.pow_le_mono_r; lia).
  lia.
Qed.

Lemma Zdigits2_div m n :
  0 < m → 0 ≤ n → 0 < m / 2 ^ n → Zdigits2 (m / 2 ^ n) = Zdigits2 m - n.
Proof.
  intros Hm Hn Hq.
  pose proof (Zdigits2_bounds m Hm) as [Hlo Hhi].
  assert (0 < 2 ^ n) by (apply Z.pow_pos_nonneg; lia).
  assert (n < Zdigits2 m) as Hlt.
  { destruct (Z.lt_ge_cases n (Zdigits2 m)) as [|Hge]; [done|].
    assert (2 ^ Zdigits2 m ≤ 2 ^ n) by (apply Z.pow_le_mono_r; lia).
    rewrite Z.div_small in Hq by lia. lia. }
  apply Zdigits2_unique; [|done]. split.
  - apply Z.div_le_lower_bound; [done|].
    rewrite <- Z.pow_add_r by lia.
    by replace (n + (Zdigits2 m - n - 1)) with (Zdigits2 m - 1) by lia.
  - apply Z.div_lt_upper_bound; [done|].
    rewrite <- Z.pow_add_r by lia.
    by replace (n + (Zdigits2 m - n)) with (Zdigits2 m) by lia.
Qed.

Lemma fexp_mono a b :
  a ≤ b → fexp Js.prec Js.emax a ≤ fexp Js.prec Js.emax b.
Proof. unfold fexp. lia. Qed.

(** After [shr_fexp] on a mantissa with enough digits, the exponent is the
    one the format gives to the value. *)
Lemma shr_fexp_canonical m e l mrs e' :
  0 < m → e ≤ fexp Js.prec Js.emax (Zdigits2 m + e) →
  shr_fexp Js.prec Js.emax m e l = (mrs, e') →
  0 ≤ shr_m mrs ∧ e' = fexp Js.prec Js.emax (Zdigits2 m + e) ∧
  (0 < shr_m mrs → Zdigits2 (shr_m mrs) + e' = Zdigits2 m + e) ∧
  (shr_m mrs = 0 → e' = emin Js.prec Js.emax).
Proof.
  intros Hm He Hshr.
  destruct (shr_fexp_spec m e l mrs e' ltac:(lia) Hshr) as [(Hn & -> & ->)|(Hn & -> & ->)].
  - repeat split; lia.
  - set (n := fexp Js.prec Js.emax (Zdigits2 m + e) - e) in *.
    assert (0 < 2 ^ n) by (apply Z.pow_pos_nonneg; lia).
    split; [apply Z.div_pos; lia|]. split; [lia|]. split.
    + intros Hq. rewrite Zdigits2_div by lia. lia.
    + intros Hq. apply Z.div_small_iff in Hq as [Hq|Hq]; [|lia|lia].
      pose proof (Zdigits2_bounds m Hm) as [Hlo _].
      assert (Zdigits2 m ≤ n) as Hd.
      { destruct (Z.le_gt_cases (Zdigits2 m) n) as [|Hgt]; [done|].
        assert (2 ^ n ≤ 2 ^ (Zdigits2 m - 1)) by (apply Z.pow_le_mono_r; lia). lia. }
      subst n. unfold fexp in *. unfold Js.prec in *. lia.
Qed.

Lemma round_nearest_even_cases m l :
  round_nearest_even m l = m ∨ round_nearest_even m l = m + 1.
Proof. destruct l as [|[]]; cbn; try destruct (Z.even m); auto. Qed.

(** Rounding a mantissa with enough digits gives a binary64 value. *)
Lemma binary_round_aux_valid sx mx ex lx :
  0 < mx → ex ≤ fexp Js.prec Js.emax (Zdigits2 mx + ex) →
  valid_binary Js.prec Js.emax (binary_round_aux Js.prec Js.emax sx mx ex lx) = true.
Proof.
  intros Hm He. unfold binary_round_aux.
  destruct (shr_fexp _ _ mx ex lx) as [mrs' e'] eqn:H1.
  destruct (shr_fexp_canonical mx ex lx mrs' e' Hm He H1) as (Hm' & He' & Hd' & Hz').
  set (m'' := round_nearest_even (shr_m mrs') (loc_of_shr_record mrs')) in *.
  assert (shr_m mrs' ≤ m'' ≤ shr_m mrs' + 1) as Hm''.
  { subst m''. destruct (round_nearest_even_cases (shr_m mrs') (loc_of_shr_record mrs'))
      as [->| ->]; lia. }
  destruct (shr_fexp _ _ m'' e' loc_Exact) as [mrs'' e''] eqn:H2.
  destruct (Z.eq_dec m'' 0) as [Hz|Hnz].
  - rewrite Hz in H2.
    destruct (shr_fexp_spec 0 e' loc_Exact mrs'' e'' ltac:(lia) H2)
      as [(_ & -> & _)|(Hn & -> & _)]; [done|].
    by rewrite Z.div_0_l by (apply Z.pow_nonzero; lia).
  - assert (e' ≤ fexp Js.prec Js.emax (Zdigits2 m'' + e')) as He''.
    { destruct (Z.eq_dec (shr_m mrs') 0) as [Hz|Hpos].
      - rewrite (Hz' Hz). unfold fexp. lia.
      - rewrite He' at 1. rewrite <- Hd' by lia. apply fexp_mono.
        pose proof (Zdigits2_mono (shr_m mrs') m'' ltac:(lia) ltac:(lia)). lia. }
    destruct (shr_fexp_canonical m'' e' loc_Exact mrs'' e'' ltac:(lia) He'' H2)
      as (Hm3 & He3 & Hd3 & _).
    destruct (shr_m mrs'') as [|m|m] eqn:Hm4; [done| |done].
    destruct (Z.leb_spec e'' (Js.emax - Js.prec)) as [Hle|]; [|done].
    cbn [valid_binary]. unfold bounded, canonical_mantissa.
    apply andb_true_intro. split; [|by apply Z.leb_le].
    apply Z.eqb_eq. change (Z.pos (digits2_pos m)) with (Zdigits2 (Z.pos m)).
    rewrite Hd3 by lia. done.
Qed.

Lemma binary_round_valid sx mx ex :
  valid_binary Js.prec Js.emax (binary_round Js.prec Js.emax sx mx ex) = true.
Proof.
  unfold binary_round, shl_align.
  set (E := Z.pos (digits2_pos mx) + ex).
  destruct (fexp Js.prec Js.emax E - ex) as [|d|d] eqn:Hd.
  - apply binary_round_aux_valid; [done|]. cbn [Zdigits2]. fold E. lia.
  - apply binary_round_aux_valid; [done|]. cbn [Zdigits2]. fold E. lia.
  - apply binary_round_aux_valid; [done|]. cbn [Zdigits2].
    rewrite (digits2_shift mx (Z.pos d) (Pos.iter xO mx d)) by (by rewrite ?iter_xO_pow).
    replace (Z.pos (digits2_pos mx) + Z.pos d + fexp Js.prec Js.emax E) with E; [done|].
    subst E. lia.
Qed.

Lemma binary_normalize_valid m e szero :
  valid_binary Js.prec Js.emax (binary_normalize Js.prec Js.emax m e szero) = true.
Proof. destruct m; [done|apply binary_round_valid..]. Qed.

Lemma decimal_to_number_valid neg m e10 :
  0 ≤ m → valid_binary Js.prec Js.emax (Js.decimal_to_number neg m e10) = true.
Proof.
  intros Hm. unfold Js.decimal_to_number.
  destruct (Z.eqb_spec m 0) as [|Hnz]; [done|].
  destruct (Z.leb_spec 0 e10) as [|He]; [apply binary_normalize_valid|].
  set (d := 10 ^ (- e10)).
  set (s := Z.max 0 (Js.prec + 2 + Zdigits2 d - Zdigits2 m)).
  rewrite div_eucl_div_mod. rewrite Z.shiftl_mul_pow2 by lia.
  assert (0 < d) as Hd by (apply Z.pow_pos_nonneg; lia).
  pose proof (Zdigits2_bounds m ltac:(lia)) as [Hmlo _].
  pose proof (Zdigits2_bounds d Hd) as [_ Hdhi].
  assert (0 < 2 ^ s) by (apply Z.pow_pos_nonneg; lia).
  assert (2 ^ (Js.prec + 1) ≤ m * 2 ^ s / d) as Hq.
  { apply Z.div_le_lower_bound; [done|].
    apply Z.le_trans with (2 ^ Zdigits2 d * 2 ^ (Js.prec + 1)).
    - apply Z.mul_le_mono_nonneg_r; [|lia]. apply Z.pow_nonneg. lia.
    - rewrite <- Z.pow_add_r by (pose proof (Zdigits2_pos d Hd); unfold Js.prec; lia).
      apply Z.le_trans with (2 ^ (Zdigits2 m - 1) * 2 ^ s).
      + rewrite <- Z.pow_add_r by (pose proof (Zdigits2_pos m ltac:(lia)); lia).
        apply Z.pow_le_mono_r; lia.
      + apply Z.mul_le_mono_nonneg_r; lia. }
  assert (0 < 2 ^ (Js.prec + 1)) by (apply Z.pow_pos_nonneg; unfold Js.prec; lia).
  apply binary_round_aux_valid; [lia|].
  set (q := m * 2 ^ s / d) in *.
  pose proof (Zdigits2_bounds q ltac:(lia)) as [_ Hqhi].
  assert (Js.prec + 1 < Zdigits2 q).
  { destruct (Z.lt_ge_cases (Js.prec + 1) (Zdigits2 q)) as [|Hge]; [done|].
    assert (2 ^ Zdigits2 q ≤ 2 ^ (Js.prec + 1)).
    { apply Z.pow_le_mono_r; [lia|done]. }
    lia. }
  unfold fexp. lia.
Qed.

Lemma literal_value_valid neg l :
  literal_wf l → valid_binary Js.prec Js.emax (Js.literal_value neg l) = true.
Proof. destruct l; [done|]. apply decimal_to_number_valid. Qed.

Lemma parseFloat_valid w : valid_binary Js.prec Js.emax (Js.parseFloat w) = true.
Proof.
  unfold Js.parseFloat. destruct (Js.scan_sign _) as [neg u].
  destruct (Js.scan_unsigned u) as [[l r]|] eqn:Hscan; [|done].
  apply literal_value_valid. by eapply scan_unsigned_wf.
Qed.

End Validity.

(** ** Round trips through [serializeValue] *)

(** Induction on values, through the values a Block holds. *)
Lemma Value_nested_ind (P : Value → Prop) :
  (∀ n, P (Num n)) → (∀ op, P (Operator op)) → (∀ sym, P (Symbol sym)) →
  (∀ values, Forall P values → P (Block values)) →
  (∀ fn, P (Native fn)) → (∀ key, P (ProtoMember key)) →
  ∀ v, P v.
Proof.
  intros HNum HOp HSym HBlock HNative HProto.
  fix IH 1.
  intros [n|op|sym|values|fn|key];
    [apply HNum|apply HOp|apply HSym| |apply HNative|apply HProto].
  apply HBlock. induction values as [|v values IHvalues].
  - apply List.Forall_nil.
  - apply List.Forall_cons; [apply IH|exact IHvalues].
Qed.

Lemma words_word w : is_word w = true → words w = [w].
Proof.
  induction w as [|c w IH]; [done|]. cbn [is_word].
  intros [Hc Hw]%andb_prop. rewrite words_cons.
  apply negb_true_iff in Hc. rewrite Hc. by rewrite IH.
Qed.

Lemma words_join (l : list string) :
  l ≠ [] → words (join " " l) = concat (words <$> l).
Proof.
  induction l as [|x l IH]; [done|]. intros _.
  destruct l as [|y l].
  - cbn. by rewrite app_nil_r.
  - change (join " " (x :: y :: l)) with (x +:+ String space (join " " (y :: l))).
    rewrite words_app_separator by done. rewrite IH by done. done.
Qed.

Lemma render_block values :
  render (Block values) =
    "{" +:+ String space (join " " (List.map render values) +:+ String space "}").
Proof. reflexivity. Qed.

Lemma words_render v : reparsable v = true → words (render v) = tokens_of v.
Proof.
  induction v as [n|op|sym|values IH|fn|key] using Value_nested_ind;
    cbn [reparsable]; try done.
  - intros Hn%plain_number_reads_back. unfold number_reads_back in Hn.
    apply andb_prop in Hn as [[Hw _]%andb_prop _]. by apply words_word.
  - unfold operator_word.
    intros [[[[[Hw _]%andb_prop _]%andb_prop _]%andb_prop _]%andb_prop _]%andb_prop.
    by apply words_word.
  - intros Hall. rewrite render_block.
    rewrite !words_app_separator by done.
    cbn [tokens_of]. change (words "{") with ["{"]. change (words "}") with ["}"].
    cbn [app]. f_equal. f_equal.
    destruct values as [|v values]; [done|].
    rewrite words_join by done.
    remember (v :: values) as l eqn:El. clear El v values.
    induction IH as [|v l Hv _ IHl]; [done|].
    cbn [forallb] in Hall. apply andb_prop in Hall as [Hv' Hl].
    cbn. by rewrite Hv, IHl.
Qed.

Lemma number_reads_back_word k n st vs bs :
  number_reads_back n = true →
  parse (S k) (JsToString.number_to_string n) (mkState st vs bs)
    = eval (S k) (Num n) (mkState st vs bs).
Proof.
  unfold number_reads_back.
  intros [[_ Hsame%number_same_eq]%andb_prop Hnan%negb_true_iff]%andb_prop.
  set (t := JsToString.number_to_string n) in *.
  assert (Js.isNaN (Js.parseFloat t) = false) as Hnan' by by rewrite Hsame.
  rewrite parse_word.
  - by rewrite Hnan', Hsame.
  - intros E. by rewrite E in Hnan'.
  - intros E. by rewrite E in Hnan'.
  - intros E. by rewrite E in Hnan'.
Qed.

Lemma operator_word_parse k op st vs bs :
  operator_word op = true →
  parse (S k) op (mkState st vs bs) = eval (S k) (Operator op) (mkState st vs bs).
Proof.
  unfold operator_word.
  intros [[[[[_ H1]%andb_prop H2]%andb_prop H3]%andb_prop Hnan]%andb_prop Hs]%andb_prop.
  apply negb_true_iff in H1, H2, H3, Hs. apply String.eqb_neq in H1, H2, H3.
  rewrite parse_word by done. by rewrite Hnan, Hs.
Qed.

Lemma captures_all k (values : list Value) st vs bs cur :
  Forall (captures k) values →
  ∃ evs, for_each (parse (S k))
           match values with
           | [] => [EmptyString]
           | _ => concat (List.map tokens_of values)
           end (mkState st vs (bs ++ [cur])) =
         (evs, Returned tt (mkState st vs (bs ++ [cur ++ values]))).
Proof.
  intros Hall. destruct values as [|v0 values0].
  { rewrite app_nil_r. by eexists. }
  remember (v0 :: values0) as values eqn:E. clear E v0 values0.
  revert cur. induction Hall as [|v values Hv _ IH]; intros cur.
  - rewrite app_nil_r. by eexists.
  - cbn [List.map concat]. destruct (Hv st vs bs cur) as [evs1 E1].
    destruct (IH (cur ++ [v])) as [evs2 E2].
    exists (evs1 ++ evs2). rewrite for_each_app.
    erewrite gen_bind_returned by exact E1. rewrite E2.
    by rewrite <- app_assoc.
Qed.

Lemma reparsable_captures k v : reparsable v = true → captures k v.
Proof.
  induction v as [n|op|sym|values IH|fn|key] using Value_nested_ind;
    cbn [reparsable]; try done.
  - intros Hn st vs bs cur. cbn [tokens_of for_each]. unfold render. cbn.
    erewrite gen_bind_returned;
      [|rewrite number_reads_back_word by (by apply plain_number_reads_back);
        apply eval_capture_run].
    by eexists.
  - intros Hop st vs bs cur. cbn [tokens_of for_each]. unfold render. cbn.
    erewrite gen_bind_returned;
      [|rewrite operator_word_parse by done; apply eval_capture_run].
    by eexists.
  - intros Hall st vs bs cur.
    assert (Forall (captures k) values) as Hcap.
    { clear -IH Hall. induction IH as [|v l Hv _ IHl]; [done|].
      cbn [forallb] in Hall. apply andb_prop in Hall as [? ?]. auto. }
    destruct (captures_all k values st vs (bs ++ [cur]) [] Hcap) as [evs E].
    cbn [tokens_of for_each].
    change (parse (S k) "{") with (blocks_push ;; yield stateEvent).
    rewrite gen_bind_assoc. gen_run. rewrite for_each_app.
    erewrite gen_bind_returned by exact E.
    cbn [for_each].
    change (parse (S k) "}")
      with (values ← blocks_pop; yield stateEvent ;;
            match values with
            | None => throw BlockStackUnderflow
            | Some vs => eval (S k) (Block vs)
            end).
    rewrite !gen_bind_assoc. gen_run.
    by eexists.
Qed.

Lemma reparsable_block_runs k values :
  forallb reparsable values = true →
  final_stack (for_each (parse (S k)) (tokens_of (Block values)) initial_state)
    = Some [Block values].
Proof.
  intros Hall.
  assert (Forall (captures k) values) as Hcap.
  { induction values as [|v l IHl]; [done|].
    cbn [forallb] in Hall. apply andb_prop in Hall as [? ?].
    constructor; [by apply reparsable_captures|auto]. }
  destruct (captures_all k values [] [native_scope] [] [] Hcap) as [evs E].
  cbn [tokens_of for_each].
  change (parse (S k) "{") with (blocks_push ;; yield stateEvent).
  rewrite gen_bind_assoc. unfold initial_state. gen_run. rewrite for_each_app.
  change ([] ++ [[]]) with ([] ++ [[] : list Value]).
  erewrite gen_bind_returned by exact E.
  cbn [for_each].
  change (parse (S k) "}")
    with (values ← blocks_pop; yield stateEvent ;;
          match values with
          | None => throw BlockStackUnderflow
          | Some vs => eval (S k) (Block vs)
          end).
  rewrite !gen_bind_assoc. gen_run.
  reflexivity.
Qed.

(** C9, as the claim states it, fails: the Block that [{ /x }] captures
    holds the Symbol [x]; [serializeValue] prints a Symbol without its
    slash, so the text is [{ x }], and that text is re-parsed as a Block
    holding the Operator [x]. *)
Lemma symbol_round_trip_counterexample :
  ¬ ∀ values, captured_from_source (Block values) → round_trips (Block values).
Proof.
  intros H. destruct (H [Symbol "x"]) as (text & Htext & fuel & Hrun).
  - exists "{ /x }", 1%nat. by vm_compute.
  - vm_compute in Htext. injection Htext as <-.
    unfold final_stack, final_state in Hrun.
    destruct (run_any_fuel 1 fuel "{ x }") as [E|E].
    + by vm_compute.
    + by rewrite E in Hrun.
    + rewrite E in Hrun. vm_compute in Hrun. discriminate.
Qed.

(** Negative zero is rendered as [0], which reads back as positive zero:
    the Block that [{ -0 }] captures does not round-trip either. *)
Lemma negative_zero_does_not_read_back :
  number_reads_back (S754_zero true) = false ∧
  final_stack (run 1 "{ -0 }") = Some [Block [Num (S754_zero true)]] ∧
  serializeValue (Block [Num (S754_zero true)]) = Some "{ 0 }" ∧
  final_stack (run 1 "{ 0 }") = Some [Block [Num (S754_zero false)]].
Proof. repeat split; by vm_compute. Qed.

Lemma negative_zero_block_does_not_round_trip :
  captured_from_source (Block [Num (S754_zero true)]) ∧
  ¬ round_trips (Block [Num (S754_zero true)]).
Proof.
  split.
  - exists "{ -0 }", 1%nat. by vm_compute.
  - intros (text & Htext & fuel & Hrun).
    vm_compute in Htext. injection Htext as <-.
    unfold final_stack, final_state in Hrun.
    destruct (run_any_fuel 1 fuel "{ 0 }") as [E|E].
    + by vm_compute.
    + by rewrite E in Hrun.
    + rewrite E in Hrun. vm_compute in Hrun. discriminate.
Qed.

(** Number::toString on a few Numbers: integers, fractions, the switch to
    exponent notation at 1e21 and below 1e-6, the extremes. *)
Example number_to_string_samples :
  (λ s, JsToString.number_to_string (Js.parseFloat s)) <$>
    [ "10"; "300"; "0.1"; "1.50"; "0.30000000000000004"; "123456789012345680000";
      "1e21"; "0.000001"; "1e-7"; "-12.5e3"; "5e-324"; "1.7976931348623157e308";
      "1e400"; "-0" ]
  = [ "10"; "300"; "0.1"; "1.5"; "0.30000000000000004"; "123456789012345680000";
      "1e+21"; "0.000001"; "1e-7"; "-12500"; "5e-324"; "1.7976931348623157e+308";
      "Infinity"; "0" ].
Proof. by vm_compute. Qed.

(** [parseFloat] on a few words: what it reads, and that the rest is
    ignored. *)
Example parseFloat_samples :
  Js.parseFloat "7" = Js.of_Z 7 ∧
  Js.parseFloat "0.1" = S754_finite false 7205759403792794 (-56) ∧
  Js.parseFloat "1e3" = Js.of_Z 1000 ∧
  Js.parseFloat "-2.5e1x" = Js.of_Z (-25) ∧
  Js.parseFloat ".5" = Js.parseFloat "0.5" ∧
  Js.parseFloat "5.e" = Js.of_Z 5 ∧
  Js.parseFloat "Infinityy" = Js.Infinity ∧
  Js.isNaN (Js.parseFloat "+") = true ∧
  Js.isNaN (Js.parseFloat "/x") = true ∧
  Js.isNaN (Js.parseFloat "e5") = true ∧
  Js.isNaN (Js.parseFloat ".") = true.
Proof. repeat split; by vm_compute. Qed.

(** The sample program of the visualiser: [xy] computes 10 + 20, [x]
    pushes 10, [*] multiplies and [puts] pops the 300 and reports it. *)
Example sample_program_puts_300 (k : nat) :
  let r := run (3 + k) "/x 10 def
/y { 20 } def
/xy { x y + } def

xy x *
puts
" in
  final_stack r = Some [] ∧ outputs r.1 = [lit 300].
Proof.
  intros r. subst r. rewrite run_at_least by (by vm_compute). by vm_compute.
Qed.

(** * Further properties of the machine *)

(** ** Variable lookup *)

Lemma findVar_snoc word scopes top :
  findVar word (scopes ++ [top]) =
    match scope_get top word with
    | Some v => Some v
    | None => findVar word scopes
    end.
Proof.
  unfold findVar. rewrite reverse_snoc. cbn [mbind list_bind].
  by destruct (scope_get top word).
Qed.

Lemma findVar_None word scopes :
  findVar word scopes = None ↔ Forall (λ m, scope_get m word = None) scopes.
Proof.
  induction scopes as [|top scopes IH] using rev_ind.
  - split; [constructor|done].
  - rewrite findVar_snoc, Forall_app, Forall_singleton.
    destruct (scope_get top word); [|by rewrite IH; intuition].
    split; [done|]. by intros [_ ?].
Qed.

(** X1: [findVar] returns what the innermost scope that gives the word a
    value gives it, however the scopes outside it bind the word; it finds
    nothing exactly when no scope of the chain gives the word a value. *)
Theorem findVar_innermost_wins
    (word : string) (outer inner : list (gmap string Value))
    (m : gmap string Value) (v : Value) :
  scope_get m word = Some v →
  Forall (λ m', scope_get m' word = None) inner →
  findVar word (outer ++ m :: inner) = Some v ∧
  (∀ scopes, findVar word scopes = None ↔
             Forall (λ m', scope_get m' word = None) scopes).
Proof.
  intros Hm Hinner. split; [|apply findVar_None].
  revert Hinner. induction inner as [|top inner IH] using rev_ind; intros Hinner.
  - by rewrite findVar_snoc, Hm.
  - apply Forall_app in Hinner as [Hinner Htop].
    apply Forall_inv in Htop.
    change (outer ++ m :: inner ++ [top]) with (outer ++ (m :: inner) ++ [top]).
    rewrite app_assoc, findVar_snoc, Htop. by apply IH.
Qed.

Lemma findVar_innermost_wins_witness :
  findVar "x" ([native_scope] ++ <["x" := lit 2]> ∅ :: [∅]) = Some (lit 2).
Proof.
  apply (findVar_innermost_wins "x" [native_scope] [∅] (<["x" := lit 2]> ∅) (lit 2)).
  - reflexivity.
  - repeat constructor.
Defined.

(** ** Defining and looking up *)

Lemma scope_get_insert_eq (top : gmap string Value) sym v :
  scope_get (<[sym := v]> top) sym = Some v.
Proof. unfold scope_get. by rewrite lookup_insert_eq. Qed.

Lemma scope_get_insert_ne (top : gmap string Value) sym other v :
  other ≠ sym → scope_get (<[sym := v]> top) other = scope_get top other.
Proof. intros H. unfold scope_get. by rewrite lookup_insert_ne. Qed.

Lemma eval_bound_data (fuel : nat) (op : string) (v : Value) st vs :
  findVar op vs = Some v →
  (∀ values, v ≠ Block values) → (∀ fn, v ≠ Native fn) →
  eval (S fuel) (Operator op) (mkState st vs []) =
    ([StateEvent (mkState (st ++ [v]) vs [])], Returned tt (mkState (st ++ [v]) vs [])).
Proof.
  intros Hfind Hblock Hnative. cbn [eval]. unfold eval_body.
  rewrite get_state_bind. cbn [blocks vars]. rewrite Hfind.
  destruct v as [n|o|x|values|fn|key]; try done.
  - by destruct (Hblock values).
  - by destruct (Hnative fn).
Qed.

(** X2: a [def] of a name that the topmost scope gives no value binds it
    there: afterwards [findVar] gives the defined value for that name,
    whatever the outer scopes bind it to, and every other name resolves as
    before; when the value is neither a Block nor a Native, evaluating the
    name as an Operator pushes the value. *)
Theorem def_then_lookup
    (fuel : nat) (rest : list Value) (sym : string) (v : Value)
    (pre : list (gmap string Value)) (top : gmap string Value) :
  (∀ op, v ≠ Operator op) →
  scope_get top sym = None →
  let s := mkState (rest ++ [Symbol sym; v]) (pre ++ [top]) [] in
  let s' := mkState rest (pre ++ [<[sym := v]> top]) [] in
  final_state (opDef (eval (S fuel)) s) = Some s' ∧
  findVar sym (vars s') = Some v ∧
  (∀ other, other ≠ sym → findVar other (vars s') = findVar other (vars s)) ∧
  ((∀ values, v ≠ Block values) → (∀ fn, v ≠ Native fn) →
   final_stack (eval (S fuel) (Operator sym) s') = Some (rest ++ [v])).
Proof.
  intros Hdata Hfree s s'. subst s s'. cbn [vars].
  split; [|split; [|split]].
  - replace (rest ++ [Symbol sym; v]) with ((rest ++ [Symbol sym]) ++ [v])
      by by rewrite <- app_assoc.
    unfold opDef. gen_run. unfold scope_define. by rewrite Hfree.
  - by rewrite findVar_snoc, scope_get_insert_eq.
  - intros other Hother. by rewrite !findVar_snoc, scope_get_insert_ne.
  - intros Hblock Hnative. rewrite (eval_bound_data fuel sym v); [done| |done..].
    by rewrite findVar_snoc, scope_get_insert_eq.
Qed.

Lemma def_then_lookup_witness :
  final_state (opDef (eval 1)
                 (mkState ([] ++ [Symbol "+"; lit 1]) ([native_scope] ++ [∅]) []))
    = Some (mkState [] ([native_scope] ++ [<["+" := lit 1]> ∅]) []) ∧
  findVar "+" ([native_scope] ++ [<["+" := lit 1]> ∅]) = Some (lit 1) ∧
  final_stack (eval 1 (Operator "+")
                 (mkState [] ([native_scope] ++ [<["+" := lit 1]> ∅]) []))
    = Some ([] ++ [lit 1]).
Proof.
  destruct (def_then_lookup 0 [] "+" (lit 1) [native_scope] ∅) as (H1 & H2 & _ & H4).
  - intros op. discriminate.
  - reflexivity.
  - split; [exact H1|]. split; [exact H2|]. apply H4; intros ?; discriminate.
Defined.

(** ** The tokenizer *)

Lemma words_are_words p : Forall (λ w, is_word w = true) (words p).
Proof.
  induction p as [|c p IH]; [by repeat constructor|].
  rewrite words_cons. destruct (is_separator c) eqn:Hc; [by constructor|].
  destruct (words p) as [|w ws]; [by repeat constructor; cbn; rewrite Hc|].
  apply Forall_cons in IH as [Hw Hws]. constructor; [|done].
  cbn. by rewrite Hc, Hw.
Qed.

(** X6: the driver cuts a program at every space and every line break: a
    text with [n] separators gives [n + 1] words (consecutive separators
    give empty words, the empty text gives one empty word), and no word
    holds a separator. *)
Theorem words_count (p : string) :
  length (words p) = S (count_separators p) ∧
  Forall (λ w, is_word w = true) (words p).
Proof.
  split; [|apply words_are_words].
  induction p as [|c p IH]; [done|].
  rewrite words_cons. cbn [count_separators].
  destruct (is_separator c); [by cbn; rewrite IH|].
  destruct (words p) as [|w ws] eqn:E; [by apply words_nonempty in E|].
  cbn in *. by rewrite IH.
Qed.

(** X7: joining words with single spaces, as [serializeValue] does for the
    values of a Block, and cutting the text again, as the driver does, gives
    the words back; the join of no words is the empty text, which is cut
    into one empty word. *)
Theorem words_of_join (ws : list string) :
  Forall (λ w, is_word w = true) ws → ws ≠ [] →
  words (join " " ws) = ws ∧ words (join " " []) = [EmptyString].
Proof.
  intros Hws Hne. split; [|done].
  rewrite words_join by done. clear Hne.
  induction Hws as [|w ws Hw _ IH]; [done|].
  cbn. by rewrite words_word, IH.
Qed.

Lemma words_of_join_witness :
  words (join " " ["{"; "1"; "+"; "}"]) = ["{"; "1"; "+"; "}"] ∧
  words (join " " []) = [EmptyString].
Proof.
  apply (words_of_join ["{"; "1"; "+"; "}"]).
  - repeat constructor.
  - discriminate.
Defined.

(** ** Every step shows *)

Lemma emits_bind_l {A B} (m : Gen A) (f : A → Gen B) : emits m → emits (m ≫= f).
Proof.
  intros Hm s evs b s' H. unfold mbind, gen_mbind, gen_bind in H.
  destruct (m s) as [evs1 [a s1| |]] eqn:E; [|done..].
  destruct (f a s1) as [evs2 c]. injection H as <- _.
  apply Hm in E. by destruct evs1.
Qed.

Lemma emits_bind_r {A B} (m : Gen A) (f : A → Gen B) :
  (∀ a, emits (f a)) → emits (m ≫= f).
Proof.
  intros Hf s evs b s' H. unfold mbind, gen_mbind, gen_bind in H.
  destruct (m s) as [evs1 [a s1| |]] eqn:E; [|done..].
  destruct (f a s1) as [evs2 c] eqn:E2. injection H as <- ->.
  apply Hf in E2. intros [_ ?]%app_eq_nil. done.
Qed.

Lemma emits_yield e : emits (yield e).
Proof. by intros s evs [] s' [= <- _]. Qed.

Lemma emits_yield_stackPopEvent v : emits (yield_stackPopEvent v).
Proof. destruct v; [|done]. by intros s evs [] s' [= <- _]. Qed.

Lemma emits_throw {A} e : emits (@throw A e).
Proof. by intros s evs a s'. Qed.

Lemma emits_call_native ev fn : emits (call_native ev fn).
Proof.
  destruct fn; cbn [call_native];
    unfold add, sub, mul, div, lt, binary_native, puts, opIf, opDef, opExch;
    apply emits_bind_r; intros ?; apply emits_bind_l, emits_yield_stackPopEvent.
Qed.

Lemma emits_eval fuel code : emits (eval fuel code).
Proof.
  destruct fuel as [|fuel]; [done|]. cbn [eval]. unfold eval_body.
  apply emits_bind_r. intros s.
  destruct (blocks s).
  - destruct code;
      try (apply emits_bind_r; intros ?; apply emits_yield).
    destruct (findVar op (vars s)) as [[]|];
      try (apply emits_bind_r; intros ?; apply emits_yield).
    + apply emits_bind_r; intros ?. apply emits_bind_l, emits_yield.
    + apply emits_call_native.
    + apply emits_throw.
  - apply emits_bind_r; intros ?; apply emits_yield.
Qed.

Lemma emits_parse fuel word : emits (parse fuel word).
Proof.
  unfold parse.
  destruct (String.eqb word ""); [apply emits_yield|].
  destruct (String.eqb word "{"); [apply emits_bind_r; intros ?; apply emits_yield|].
  destruct (String.eqb word "}").
  { apply emits_bind_r; intros ?. apply emits_bind_l, emits_yield. }
  destruct (negb _); [apply emits_eval|].
  destruct (Js.starts_with "/" word); apply emits_eval.
Qed.

Lemma for_each_emits {A} (f : A → Gen unit) (l : list A) s evs s' :
  (∀ x, emits (f x)) → for_each f l s = (evs, Returned tt s') →
  (length l ≤ length evs)%nat.
Proof.
  intros Hf. revert s evs. induction l as [|x l IH]; intros s evs H; cbn in *.
  - lia.
  - unfold mbind, gen_mbind, gen_bind in H.
    destruct (f x s) as [evs1 [[] s1| |]] eqn:E; [|done..].
    destruct (for_each f l s1) as [evs2 c] eqn:E2. injection H as <- ->.
    apply Hf in E. apply IH in E2. rewrite length_app.
    destruct evs1; [done|]. cbn. lia.
Qed.

(** X8: every step is observable.  Whenever [parse] returns for a word --
    an empty word, a brace, a literal or an operator -- it has yielded at
    least one event, and so has every returning [eval]; a run that returns
    has therefore yielded, after its opening snapshot, at least one event
    per word of the program. *)
Theorem every_word_shows_a_step
    (fuel : nat) (program : string) (evs : list VmEvent) (s : VmState) :
  run fuel program = (evs, Returned tt s) →
  (1 + length (words program) ≤ length evs)%nat ∧
  head evs = Some (StateEvent initial_state) ∧
  (∀ word, emits (parse fuel word)) ∧
  (∀ code, emits (eval fuel code)).
Proof.
  intros Hrun. rewrite run_words in Hrun.
  split; [|split; [|split; [apply emits_parse|apply emits_eval]]].
  - destruct (for_each (parse fuel) (words program) initial_state)
      as [evs' [[] s'| |]] eqn:E; [|done..].
    injection Hrun as <- _. cbn.
    apply for_each_emits in E; [lia|apply emits_parse].
  - by injection Hrun as <- _.
Qed.

Lemma every_word_shows_a_step_witness :
  (1 + length (words "1  2 +") ≤ length (run 1 "1  2 +").1)%nat.
Proof.
  destruct (every_word_shows_a_step 1 "1  2 +" (run 1 "1  2 +").1
              (mkState [lit 3] [native_scope] [])) as [H _].
  - vm_compute. reflexivity.
  - exact H.
Defined.

(** ** Arithmetic *)

Lemma binary_native_short opname f s :
  (length (stack s) < 2)%nat →
  thrown (binary_native opname f s) = Some StackPopError.
Proof.
  destruct s as [st vs bs]. cbn [stack]. intros Hlen.
  destruct (snoc_or_nil st) as [->|(st' & r & ->)]; [done|].
  destruct (snoc_or_nil st') as [->|(st'' & l & ->)]; [done|].
  rewrite !length_app in Hlen. cbn in Hlen. lia.
Qed.

Lemma binary_native_mismatch opname f st l r vs bs :
  (∀ a b, (l, r) ≠ (Num a, Num b)) →
  binary_native opname f (mkState (st ++ [l; r]) vs bs) =
    ([StackPopEvent (mkState (st ++ [l]) vs bs) r; StackPopEvent (mkState st vs bs) l],
     Thrown (ExpectNumNum opname)).
Proof.
  intros Hne.
  replace (st ++ [l; r]) with ((st ++ [l]) ++ [r]) by by rewrite <- app_assoc.
  unfold binary_native. gen_run.
  destruct r as [b| | | | |]; try done.
  destruct l as [a| | | | |]; try done.
  by destruct (Hne a b).
Qed.

(** X3: the arithmetic natives [+], [-], [*], [/] and [<].  With fewer than
    two operands each fails with the stack-pop error.  With two Numbers on
    top it replaces them by the result of its operation on (second, top)
    and touches neither the scopes nor the open blocks.  With two operands
    that are not both Numbers it fails with its type error only after both
    have been popped, as the two pop events show; the type error of [<]
    carries the operator name of [/]. *)
Theorem arithmetic_outcomes
    (m : Gen unit) (name : string) (f : Js.number → Js.number → Js.number)
    (s : VmState) :
  (m, (name, f)) ∈ arithmetic_natives →
  ((length (stack s) < 2)%nat → thrown (m s) = Some StackPopError) ∧
  (∀ st a b, stack s = st ++ [Num a; Num b] →
     final_state (m s) = Some (mkState (st ++ [Num (f a b)]) (vars s) (blocks s))) ∧
  (∀ st l r, stack s = st ++ [l; r] → (∀ a b, (l, r) ≠ (Num a, Num b)) →
     thrown (m s) = Some (ExpectNumNum name) ∧
     stacks_seen (m s).1 = [st ++ [l]; st]) ∧
  (∀ s', thrown (lt s') = thrown (div s')).
Proof.
  intros Hin.
  assert (m = binary_native name f) as ->.
  { unfold arithmetic_natives in Hin. set_unfold in Hin.
    destruct Hin as [H|[H|[H|[H|[H|[]]]]]]; by injection H as -> -> ->. }
  split; [apply binary_native_short|]. split; [|split].
  - intros st a b Hst. destruct s as [st0 vs bs]. cbn in Hst. subst st0.
    destruct (binary_native_run name f st a b vs bs) as [evs ->]. done.
  - intros st l r Hst Hne. destruct s as [st0 vs bs]. cbn in Hst. subst st0.
    by rewrite binary_native_mismatch.
  - intros [st0 vs bs]. unfold lt, div.
    destruct (snoc_or_nil st0) as [->|(st' & r & ->)]; [done|].
    destruct (snoc_or_nil st') as [->|(st & l & ->)]; [done|].
    rewrite <- !app_assoc. cbn [app].
    destruct l as [a| | | | |], r as [b| | | | |];
      try (rewrite !binary_native_mismatch; [done|intros ? ? ?; discriminate..]).
    destruct (binary_native_run "/" Js.num_div st a b vs bs) as [evs ->].
    by destruct (binary_native_run "/"
                   (λ l r, if Js.num_lt l r then Js.of_Z 1 else Js.of_Z 0)
                   st a b vs bs) as [evs' ->].
Qed.

Lemma arithmetic_outcomes_witness :
  final_state (sub (mkState ([lit 7] ++ [Num (Js.of_Z 5); Num (Js.of_Z 3)]) [native_scope] []))
    = Some (mkState ([lit 7] ++ [Num (Js.num_sub (Js.of_Z 5) (Js.of_Z 3))]) [native_scope] []).
Proof.
  destruct (arithmetic_outcomes sub "-" Js.num_sub
              (mkState ([lit 7] ++ [Num (Js.of_Z 5); Num (Js.of_Z 3)]) [native_scope] []))
    as (_ & H & _).
  - unfold arithmetic_natives. set_solver.
  - exact (H [lit 7] (Js.of_Z 5) (Js.of_Z 3) eq_refl).
Defined.

(** ** The errors of a run *)

Lemma sound_bind {A B} n n1 n2 (m : Gen A) (f : A → Gen B) :
  sound n n1 m → (∀ a, sound n1 n2 (f a)) → sound n n2 (m ≫= f).
Proof.
  intros Hm Hf s Hs. specialize (Hm s Hs).
  unfold mbind, gen_mbind, gen_bind.
  destruct (m s) as [evs [a s1| |]]; cbn in *; [|done..].
  specialize (Hf a s1 Hm). by destruct (f a s1) as [evs' c].
Qed.

Lemma sound_ret {A} n (a : A) : sound n n (gen_ret a).
Proof. by intros s Hs. Qed.

Lemma sound_throw {A} n n' e : reachable_error e = true → sound n n' (@throw A e).
Proof. by intros He s Hs. Qed.

Lemma sound_yield n e : sound n n (yield e).
Proof. by intros s Hs. Qed.

Lemma sound_stack_push n v : sound n n (stack_push v).
Proof. by intros s Hs. Qed.

Lemma sound_vars_push n : sound n (S n) vars_push.
Proof. intros s Hs. cbn. rewrite length_app. cbn. lia. Qed.

Lemma sound_vars_pop n : sound (S n) n vars_pop.
Proof.
  intros s Hs. unfold vars_pop.
  destruct (array_pop (vars s)) as [[rest top]|] eqn:E.
  - apply array_pop_Some in E. rewrite E, length_app in Hs. cbn in *. lia.
  - apply array_pop_nil_iff in E. by rewrite E in Hs.
Qed.

Lemma sound_vars_define n sym v : sound n n (vars_define sym v).
Proof.
  intros s Hs. unfold vars_define.
  destruct (array_pop (vars s)) as [[rest top]|] eqn:E.
  - apply array_pop_Some in E. rewrite E in Hs. cbn. by rewrite length_app in *.
  - apply array_pop_nil_iff in E. by rewrite E in Hs.
Qed.

Lemma sound_blocks_push n : sound n n blocks_push.
Proof. by intros s Hs. Qed.

Lemma sound_blocks_pop n : sound n n blocks_pop.
Proof. intros s Hs. unfold blocks_pop. by destruct (array_pop (blocks s)) as [[]|]. Qed.

(** A popped value is reported before it is looked at: what follows the
    report runs with a value. *)
Lemma sound_popped {B} n n' (k : option Value → Gen B) :
  (∀ v, sound n n' (k (Some v))) →
  sound n n' (value ← stack_pop; yield_stackPopEvent value ;; k value).
Proof.
  intros Hk s Hs. unfold mbind, gen_mbind, gen_bind, stack_pop.
  destruct (array_pop (stack s)) as [[rest v]|]; [|done].
  cbn. specialize (Hk v (mkState rest (vars s) (blocks s)) Hs).
  by destruct (k (Some v) _) as [evs c].
Qed.

Lemma sound_for_each {A} n (f : A → Gen unit) (l : list A) :
  (∀ x, sound n n (f x)) → sound n n (for_each f l).
Proof.
  intros Hf. induction l as [|x l IH]; [apply sound_ret|].
  cbn [for_each]. apply (sound_bind n n n); [apply Hf|]. by intros _.
Qed.

Ltac sound_step :=
  first
    [ apply sound_popped; intros ?
    | apply sound_yield | apply sound_stack_push | apply sound_vars_define
    | apply sound_blocks_push | apply sound_ret
    | by apply sound_throw
    | eapply sound_bind; [|intros ?] ].

Section Sound.

Variable ev : Value → Gen unit.

Hypothesis ev_sound : ∀ n code, sound n n (ev code).

Lemma call_native_sound n fn : sound n n (call_native ev fn).
Proof.
  destruct fn; cbn [call_native];
    unfold add, sub, mul, div, lt, binary_native, puts, opIf, opDef, opExch;
    repeat first
      [ apply ev_sound
      | apply sound_for_each; intros ?
      | sound_step
      | match goal with
        | |- sound _ _ (match ?x with _ => _ end) => destruct x
        | |- sound _ _ (if ?x then _ else _) => destruct x
        end ].
Qed.

Lemma push_sound n v : sound n n (stack_push v ;; yield stateEvent).
Proof. apply (sound_bind n n n); [apply sound_stack_push|intros ?; apply sound_yield]. Qed.

Lemma invoke_sound n values :
  sound n n (vars_push ;; yield stateEvent ;; for_each ev values ;;
             vars_pop ;; yield stateEvent).
Proof.
  apply (sound_bind n (S n) n); [apply sound_vars_push|intros _].
  apply (sound_bind _ (S n) n); [apply sound_yield|intros _].
  apply (sound_bind _ (S n) n); [by apply sound_for_each|intros _].
  apply (sound_bind _ n n); [apply sound_vars_pop|intros _].
  apply sound_yield.
Qed.

Lemma eval_body_sound n code : sound n n (eval_body ev code).
Proof.
  intros s Hs. unfold eval_body. rewrite get_state_bind.
  destruct (blocks s) as [|b bs] eqn:Hb.
  - destruct code as [num|op|sym|values|fn|key]; try apply (push_sound n _ s Hs).
    destruct (findVar op (vars s)) as [[num|op'|sym|values|fn|key]|];
      try apply (push_sound n _ s Hs).
    + apply (invoke_sound n values s Hs).
    + apply (call_native_sound n fn s Hs).
    + done.
  - unfold mbind, gen_mbind, gen_bind, blocks_append. rewrite Hb.
    destruct (array_pop (b :: bs)) as [[rest vs]|] eqn:E; [done|].
    by apply array_pop_nil_iff in E.
Qed.

End Sound.

Lemma eval_sound fuel n code : sound n n (eval fuel code).
Proof.
  revert n code. induction fuel as [|fuel IH]; intros n code; [done|].
  by apply eval_body_sound.
Qed.

Lemma parse_sound fuel n word : sound n n (parse fuel word).
Proof.
  unfold parse.
  destruct (String.eqb word ""); [apply sound_yield|].
  destruct (String.eqb word "{").
  { apply (sound_bind n n n); [apply sound_blocks_push|intros _; apply sound_yield]. }
  destruct (String.eqb word "}").
  { apply (sound_bind n n n); [apply sound_blocks_pop|intros values].
    apply (sound_bind n n n); [apply sound_yield|intros _].
    destruct values; [apply eval_sound|by apply sound_throw]. }
  destruct (negb _); [apply eval_sound|].
  destruct (Js.starts_with "/" word); apply eval_sound.
Qed.

Lemma eval_out_of_fuel_bind {B} (m : Gen unit) (f : unit → Gen B) s :
  (m s).2 = OutOfFuel → ((m ≫= f) s).2 = OutOfFuel.
Proof.
  intros H. unfold mbind, gen_mbind, gen_bind.
  destruct (m s) as [evs [[] s'| |]]; done.
Qed.

(** A block that invokes itself goes deeper than any call stack. *)
Lemma self_invocation_exhausts (depth : nat) st vs :
  findVar "f" vs = Some (Block [Operator "f"]) →
  (eval depth (Operator "f") (mkState st vs [])).2 = OutOfFuel.
Proof.
  revert vs. induction depth as [|depth IH]; intros vs Hf; [done|].
  rewrite (eval_block_operator depth "f" [Operator "f"]) by done.
  rewrite (gen_bind_returned _ _ _ [] tt (mkState st (vs ++ [∅]) [])) by done.
  rewrite (gen_bind_returned _ _ _ _ tt (mkState st (vs ++ [∅]) []))
    by apply yield_run.
  cbn [fst snd app]. apply eval_out_of_fuel_bind. cbn [for_each].
  apply eval_out_of_fuel_bind. apply IH.
  by rewrite findVar_snoc.
Qed.

Lemma self_invoking_program_range_error (depth : nat) :
  run_end depth "/f { f } def f" = RangeError.
Proof.
  unfold run_end.
  destruct depth as [|[|depth]]; [by vm_compute..|].
  change "/f { f } def f" with ("/f { f } def" +:+ String space "f").
  rewrite run_words, words_app_separator by done.
  rewrite for_each_app.
  pose proof (run_at_least 2 depth "/f { f } def" ltac:(by vm_compute)) as Hrun.
  change (2 + depth)%nat with (S (S depth)) in Hrun.
  rewrite (run_words (S (S depth))) in Hrun.
  remember (run 2 "/f { f } def") as r eqn:Er. vm_compute in Er. subst r.
  apply (f_equal snd) in Hrun. cbn [snd] in Hrun.
  destruct (for_each (parse (S (S depth))) (words "/f { f } def") initial_state)
    as [evs c] eqn:E. cbn [snd] in Hrun. subst c.
  rewrite (gen_bind_returned _ _ _ _ _ _ E). cbn [fst snd].
  replace (words "f") with ["f"] by by vm_compute.
  cbn [for_each]. rewrite (eval_out_of_fuel_bind _ _ _); [done|].
  rewrite (operator_word_parse (S depth) "f") by by vm_compute.
  apply self_invocation_exhausts. by vm_compute.
Qed.

(** X4: how a run can end, and three errors of the source that no run ends
    with.  Whatever room the call stack of the engine has, a run returns,
    or the engine raises its [RangeError] because the recursion is deeper
    than the call stack -- as it is, for every depth, in [/f { f } def f]
    -- or one of the machine's own [throw] statements raises its error.  In
    the last case the error is never [Expect value but got undefined] nor
    [stack under-run], because a missing operand has already raised the
    stack-pop error when it was reported, and it is never the error of
    reading the last scope or the last open block where there is none: it
    is the stack-pop error, block stack underflow, an undefined operation,
    a type error naming [+], [-], [*] or [/], an expected Block, an expected
    Number or an expected Symbol -- and each of these is the end of some
    run. *)
Theorem run_throws_reachable_errors (depth : nat) (program : string) :
  match run_end depth program with
  | Raises e => reachable_error e = true
  | Returns _ | RangeError => True
  end ∧
  (∀ depth', run_end depth' "/f { f } def f" = RangeError) ∧
  Forall (λ pe, run_end 2 pe.1 = Raises pe.2 ∧ reachable_error pe.2 = true)
         failing_programs.
Proof.
  split; [|split; [apply self_invoking_program_range_error|]].
  2: { unfold failing_programs.
       repeat (apply List.Forall_cons; [split; [by vm_compute|done]|]).
       apply List.Forall_nil. }
  unfold run_end. rewrite run_words. cbn [snd].
  pose proof (sound_for_each 0 (parse depth) (words program)
                (parse_sound depth 0) initial_state eq_refl) as H.
  by destruct (for_each (parse depth) (words program) initial_state) as [evs [| |]].
Qed.

(** ** The kinds of values in the machine *)

Lemma forallb_true {A} (f : A → bool) (l : list A) :
  forallb f l = true ↔ Forall (λ x, f x = true) l.
Proof.
  induction l as [|x l IH]; cbn; [by split; [constructor|]|].
  rewrite andb_true_iff, IH. split.
  - intros [? ?]. by constructor.
  - intros [? ?]%Forall_cons. done.
Qed.

Lemma evaluable_stack v : stack_value v = true → evaluable v = true.
Proof. unfold evaluable. intros ->. apply orb_true_r. Qed.

Lemma evaluable_source v : source_value v = true → evaluable v = true.
Proof. unfold evaluable. by intros ->. Qed.

Lemma evaluable_data v :
  evaluable v = true → (∀ op, v ≠ Operator op) → stack_value v = true.
Proof.
  unfold evaluable. intros [H|H]%orb_true_iff Hop; [|done].
  destruct v; try done. by destruct (Hop op).
Qed.

Lemma scope_get_wf (m : gmap string Value) word v :
  map_Forall (λ _ v, scope_value v = true) m →
  scope_get m word = Some v → scope_value v = true.
Proof.
  intros Hm. unfold scope_get. destruct (m !! word) as [x|] eqn:E.
  - intros [= <-]. by apply (Hm word).
  - destruct (inherited word); [by intros [= <-]|done].
Qed.

Lemma findVar_wf word scopes v :
  Forall (map_Forall (λ _ v, scope_value v = true)) scopes →
  findVar word scopes = Some v → scope_value v = true.
Proof.
  induction scopes as [|top scopes IH] using rev_ind; [done|].
  intros [Hscopes Htop%Forall_inv]%Forall_app. rewrite findVar_snoc.
  destruct (scope_get top word) as [x|] eqn:E; [|by apply IH].
  intros [= <-]. by eapply scope_get_wf.
Qed.

Lemma scope_define_wf (m : gmap string Value) sym v :
  map_Forall (λ _ v, scope_value v = true) m → stack_value v = true →
  map_Forall (λ _ v, scope_value v = true) (scope_define m sym v).
Proof.
  intros Hm Hv. unfold scope_define. destruct (scope_get m sym); [done|].
  apply map_Forall_insert_2; [|done]. by destruct v.
Qed.

Lemma native_scope_wf : map_Forall (λ _ v, scope_value v = true) native_scope.
Proof. unfold native_scope. by repeat (apply map_Forall_insert_2; [done|]). Qed.

Ltac wf_destruct :=
  repeat match goal with
         | s : VmState |- _ => destruct s as [? ? ?]
         end;
  cbn [stack vars blocks] in *;
  repeat match goal with
         | H : closed_wf _ |- _ => destruct H as [(? & ? & ?) ?]
         | H : well_formed _ |- _ => destruct H as (? & ? & ?)
         end;
  cbn [stack vars blocks] in *; subst;
  repeat match goal with
         | H : Forall _ (_ ++ _) |- _ => apply Forall_app in H as [? ?]
         | H : Forall _ (_ :: _) |- _ => apply Forall_cons in H as [? ?]
         end.

Ltac wf_solve :=
  wf_destruct; unfold closed_wf, well_formed; cbn [stack vars blocks];
  repeat first
    [ assumption | done
    | apply Forall_app_2 | apply List.Forall_cons | apply List.Forall_nil
    | match goal with
      | |- map_Forall _ (scope_define _ _ _) => apply scope_define_wf
      | |- map_Forall _ ∅ => apply map_Forall_empty
      end
    | apply evaluable_stack; assumption
    | apply evaluable_source; assumption
    | split ].

Section WellFormed.

Variable ev : Value → Gen unit.

Hypothesis ev_wf : ∀ code s, evaluable code = true → closed_wf s →
  gen_spec closed_wf (λ _, closed_wf) (ev code s).

Lemma for_each_wf (values : list Value) s :
  forallb source_value values = true → closed_wf s →
  gen_spec closed_wf (λ _, closed_wf) (for_each ev values s).
Proof.
  revert s. induction values as [|v values IH]; intros s Hvs Hs; cbn [for_each].
  - by apply spec_ret.
  - cbn in Hvs. apply andb_true_iff in Hvs as [Hv Hvs].
    apply gen_spec_bind. eapply gen_spec_mono; [done| |by apply ev_wf, Hs; apply evaluable_source].
    intros [] s' Hs'. by apply IH.
Qed.

Ltac wf_tac :=
  repeat first
    [ match goal with
      | |- gen_spec _ _ (ev _ _) =>
          eapply gen_spec_mono; [| |apply ev_wf]; cbv beta;
          [by auto|intros [] ? ?|by wf_solve|by wf_solve]
      | |- gen_spec _ _ (for_each ev _ _) =>
          eapply gen_spec_mono; [| |apply for_each_wf]; cbv beta;
          [by auto|intros [] ? ?|by wf_solve|by wf_solve]
      | |- gen_spec _ _ (yield_stackPopEvent None _) => by split; [constructor|]
      | |- gen_spec _ _ _ => spec_step
      end
    | by wf_solve ].

Lemma call_native_wf fn s :
  closed_wf s → gen_spec closed_wf (λ _, closed_wf) (call_native ev fn s).
Proof.
  intros Hs.
  destruct fn; cbn [call_native];
    unfold add, sub, mul, div, lt, binary_native, puts, opIf, opDef, opExch;
    wf_tac.
Qed.

Lemma eval_body_wf code s :
  evaluable code = true → closed_wf s →
  gen_spec closed_wf (λ _, closed_wf) (eval_body ev code s).
Proof.
  intros Hcode Hs. unfold eval_body.
  spec_step. spec_step. rewrite (proj2 Hs).
  assert (∀ v, stack_value v = true →
            gen_spec closed_wf (λ _, closed_wf) ((stack_push v ;; yield stateEvent) s))
    as Hpush by (intros v Hv; wf_tac).
  destruct code as [num|op|sym|values|fn|key];
    try (by apply Hpush, evaluable_data).
  destruct (findVar op (vars s)) as [v|] eqn:Hf; [|apply spec_throw].
  assert (scope_value v = true) as Hv by (eapply findVar_wf; [apply Hs|done]).
  destruct v as [num|op'|sym|values|fn|key]; try (by apply Hpush).
  - wf_tac.
  - by apply call_native_wf.
Qed.

End WellFormed.

Lemma eval_closed_wf (fuel : nat) code s :
  evaluable code = true → closed_wf s →
  gen_spec closed_wf (λ _, closed_wf) (eval fuel code s).
Proof.
  revert code s. induction fuel as [|fuel IH]; intros code s Hcode Hs.
  - apply spec_out_of_fuel.
  - by apply eval_body_wf.
Qed.

Lemma eval_wf (fuel : nat) code s :
  source_value code = true → well_formed s →
  gen_spec well_formed (λ _, well_formed) (eval fuel code s).
Proof.
  intros Hcode Hs. destruct (blocks s) as [|b bs] eqn:Hb.
  - eapply gen_spec_mono; [| |apply eval_closed_wf; [by apply evaluable_source|done]].
    + by intros ? [? _].
    + by intros _ ? [? _].
  - destruct fuel as [|fuel]; [apply spec_out_of_fuel|].
    rewrite eval_open_block by by rewrite Hb.
    clear Hb. repeat first [spec_step | by wf_solve].
Qed.

Lemma parse_wf (fuel : nat) word s :
  well_formed s → gen_spec well_formed (λ _, well_formed) (parse fuel word s).
Proof.
  intros Hs. unfold parse.
  destruct (String.eqb word ""); [by repeat spec_step|].
  destruct (String.eqb word "{"); [repeat first [spec_step | by wf_solve]|].
  destruct (String.eqb word "}").
  { spec_step. spec_step.
    - spec_step. spec_step; [by wf_solve|]. apply eval_wf; [|by wf_solve].
      wf_destruct. cbn. by apply forallb_true.
    - spec_step. spec_step; [done|]. apply spec_throw. }
  destruct (negb _); [by apply eval_wf|].
  destruct (Js.starts_with "/" word); by apply eval_wf.
Qed.

Lemma initial_state_wf : well_formed initial_state.
Proof.
  split; [constructor|]. split; [|constructor].
  constructor; [apply native_scope_wf|constructor].
Qed.

(** X5: Operators are code and natives are built in: neither is ever data.
    In every state a run shows and in the state it returns, the operand
    stack holds only Numbers, Symbols, Blocks of source values and values
    inherited from the prototype of a scope object -- never an Operator and
    never a Native; the scopes bind names to such data or to natives, never
    to an Operator; and the open blocks hold only values built from the
    words of the program. *)
Theorem run_keeps_values_apart (fuel : nat) (program : string) :
  gen_spec well_formed (λ _, well_formed) (run fuel program).
Proof.
  unfold run. rewrite run_from_words.
  spec_step. spec_step; [apply initial_state_wf|].
  apply (spec_for_each well_formed); [|apply initial_state_wf].
  intros word s Hs. by apply parse_wf.
Qed.

(** ** Braces *)

Lemma eval_blocks_length (fuel : nat) code s :
  gen_spec (λ _, True) (λ _ s', length (blocks s') = length (blocks s))
           (eval fuel code s).
Proof.
  destruct (blocks s) as [|b bs] eqn:Hb.
  - eapply gen_spec_mono; [| |by apply eval_closed]; [done|].
    by intros _ s' ->.
  - destruct fuel as [|fuel]; [apply spec_out_of_fuel|].
    rewrite eval_open_block by by rewrite Hb.
    spec_step. spec_step. spec_step; [exact I|].
    by rewrite <- Hb, H, !length_app.
Qed.

Lemma parse_blocks_length (fuel : nat) word s :
  gen_spec (λ _, True)
    (λ _ s', (length (blocks s') + (if String.eqb word "}" then 1 else 0) =
              length (blocks s) + (if String.eqb word "{" then 1 else 0))%nat)
    (parse fuel word s).
Proof.
  assert (∀ code, word ≠ "{" → word ≠ "}" →
            gen_spec (λ _, True)
              (λ _ s', (length (blocks s') + (if String.eqb word "}" then 1 else 0) =
                        length (blocks s) + (if String.eqb word "{" then 1 else 0))%nat)
              (eval fuel code s)) as Heval.
  { intros code H1%String.eqb_neq H2%String.eqb_neq. rewrite H1, H2.
    eapply gen_spec_mono; [| |apply eval_blocks_length]; [done|].
    intros _ s' ->. done. }
  unfold parse.
  destruct (String.eqb_spec word "") as [->|H0]; [by repeat spec_step|].
  destruct (String.eqb_spec word "{") as [->|H1].
  { repeat spec_step; [done|]. rewrite length_app. cbn. lia. }
  destruct (String.eqb_spec word "}") as [->|H2].
  { spec_step. spec_step.
    - spec_step. spec_step; [done|].
      eapply gen_spec_mono; [| |apply eval_blocks_length]; [done|].
      intros _ s' ->. cbn. rewrite H, length_app. cbn. lia.
    - spec_step. spec_step; [done|]. apply spec_throw. }
  destruct (negb _); [by apply Heval|].
  destruct (Js.starts_with "/" word); by apply Heval.
Qed.

Lemma for_each_blocks_length (fuel : nat) ws s :
  gen_spec (λ _, True)
    (λ _ s', (length (blocks s') + count_word "}" ws =
              length (blocks s) + count_word "{" ws)%nat)
    (for_each (parse fuel) ws s).
Proof.
  revert s. induction ws as [|w ws IH]; intros s; cbn [for_each count_word].
  - apply spec_ret. lia.
  - apply gen_spec_bind.
    eapply gen_spec_mono; [| |apply parse_blocks_length]; [done|].
    cbv beta. intros _ s1 H1.
    eapply gen_spec_mono; [| |apply IH]; [done|].
    cbv beta. intros _ s2 H2. lia.
Qed.

(** X9: braces are counted, not matched up in advance.  A run that returns
    has met at least as many opening as closing braces, and ends with as
    many blocks open as opening braces are left unmatched: an unbalanced
    program is not an error, its last blocks simply stay open. *)
Theorem run_block_depth (fuel : nat) (program : string) (s : VmState) :
  final_state (run fuel program) = Some s →
  (length (blocks s) + count_word "}" (words program) =
   count_word "{" (words program))%nat.
Proof.
  intros Hs. rewrite run_words in Hs. unfold final_state in Hs. cbn in Hs.
  pose proof (for_each_blocks_length fuel (words program) initial_state) as [_ H].
  destruct (for_each (parse fuel) (words program) initial_state) as [evs [[] s'| |]];
    cbn in *; try done.
  injection Hs as <-. done.
Qed.

Lemma run_block_depth_witness :
  (length (blocks (mkState [] [native_scope] [[Block [lit 1]; Operator "+"]]))
   + count_word "}" (words "{ { 1 } +")
   = count_word "{" (words "{ { 1 } +"))%nat.
Proof.
  apply (run_block_depth 1 "{ { 1 } +").
  vm_compute. reflexivity.
Defined.

Lemma parse_in_open_block (k : nat) word st vs bs cur :
  word ≠ "}" →
  ∃ bs' cur',
    parse (S k) word (mkState st vs (bs ++ [cur])) =
      ([StateEvent (mkState st vs (bs' ++ [cur']))],
       Returned tt (mkState st vs (bs' ++ [cur']))).
Proof.
  intros H2.
  destruct (decide (word = "")) as [->|H0]; [by exists bs, cur|].
  destruct (decide (word = "{")) as [->|H1].
  { exists (bs ++ [cur]), []. unfold parse. cbn [String.eqb Ascii.eqb Bool.eqb].
    by rewrite (gen_bind_returned _ _ _ _ _ _ (blocks_push_run st vs (bs ++ [cur]))). }
  exists bs, (cur ++ [classify word]).
  rewrite parse_word by done. unfold classify.
  destruct (Js.isNaN (Js.parseFloat word)); cbn [negb];
    [destruct (Js.starts_with "/" word)|]; apply eval_capture_run.
Qed.

Lemma for_each_parse_open (k : nat) ws : ∀ st vs bs cur,
  "}" ∉ ws →
  ∃ evs bs' cur',
    for_each (parse (S k)) ws (mkState st vs (bs ++ [cur])) =
      (evs, Returned tt (mkState st vs (bs' ++ [cur']))) ∧
    Forall (λ e, event_kind e = "state") evs.
Proof.
  induction ws as [|w ws IH]; intros st vs bs cur Hws.
  - exists [], bs, cur. by split; [|constructor].
  - apply not_elem_of_cons in Hws as [Hw Hws].
    destruct (parse_in_open_block k w st vs bs cur) as (bs1 & cur1 & E1); [done|].
    destruct (IH st vs bs1 cur1 Hws) as (evs & bs2 & cur2 & E2 & Hevs).
    exists (StateEvent (mkState st vs (bs1 ++ [cur1])) :: evs), bs2, cur2.
    cbn [for_each]. rewrite (gen_bind_returned _ _ _ _ _ _ E1), E2.
    split; [done|]. by constructor.
Qed.

Lemma outputs_state_events evs :
  Forall (λ e, event_kind e = "state") evs → outputs evs = [].
Proof.
  induction 1 as [|e evs He _ IH]; [done|].
  by destruct e.
Qed.

(** X10: an opening brace that is never closed swallows the rest of the
    program.  When a program has left a block open, whatever words follow
    that are not a closing brace -- unknown operators, [puts], operators
    without operands -- are captured and not run: the longer program returns
    with the same operand stack and scopes, a block still open, nothing more
    output, and only state snapshots for the additional words. *)
Theorem unclosed_block_swallows_the_rest
    (k : nat) (p0 p : string) (s0 : VmState) :
  final_state (run (S k) p0) = Some s0 →
  blocks s0 ≠ [] →
  "}" ∉ words p →
  ∃ s' evs,
    run (S k) (p0 +:+ " " +:+ p) = ((run (S k) p0).1 ++ evs, Returned tt s') ∧
    stack s' = stack s0 ∧ vars s' = vars s0 ∧ blocks s' ≠ [] ∧
    Forall (λ e, event_kind e = "state") evs ∧
    outputs (run (S k) (p0 +:+ " " +:+ p)).1 = outputs (run (S k) p0).1.
Proof.
  intros Hs0 Hopen Hp.
  assert (words (p0 +:+ " " +:+ p) = words p0 ++ words p) as Hwords.
  { by rewrite <- (words_app_separator p0 " " p). }
  rewrite !run_words in *. rewrite Hwords.
  unfold final_state in Hs0. cbn [fst snd] in *.
  destruct (for_each (parse (S k)) (words p0) initial_state)
    as [evs0 [[] s0'| |]] eqn:E0; cbn in Hs0; try done.
  injection Hs0 as ->.
  destruct s0 as [st vs bs]. cbn [blocks stack vars] in *.
  destruct (snoc_or_nil bs) as [->|(bs0 & cur & ->)]; [done|].
  destruct (for_each_parse_open k (words p) st vs bs0 cur Hp)
    as (evs & bs' & cur' & E & Hevs).
  exists (mkState st vs (bs' ++ [cur'])), evs.
  rewrite for_each_app, (gen_bind_returned _ _ _ _ _ _ E0), E. cbn [fst snd].
  split; [done|]. split; [done|]. split; [done|].
  split; [by destruct bs'|]. split; [done|].
  change (StateEvent initial_state :: evs0 ++ evs)
    with ((StateEvent initial_state :: evs0) ++ evs).
  unfold outputs. rewrite omap_app. fold (outputs evs).
  by rewrite (outputs_state_events evs), app_nil_r.
Qed.

Lemma unclosed_block_swallows_the_rest_witness :
  ∃ s' evs,
    run 1 ("1 {" +:+ " " +:+ "nonsense puts +") = ((run 1 "1 {").1 ++ evs, Returned tt s') ∧
    stack s' = [lit 1] ∧ vars s' = [native_scope] ∧ blocks s' ≠ [] ∧
    Forall (λ e, event_kind e = "state") evs ∧
    outputs (run 1 ("1 {" +:+ " " +:+ "nonsense puts +")).1 = outputs (run 1 "1 {").1.
Proof.
  apply (unclosed_block_swallows_the_rest 0 "1 {" "nonsense puts +"
           (mkState [lit 1] [native_scope] [[]])).
  - vm_compute. reflexivity.
  - discriminate.
  - vm_compute. intros H. repeat (apply elem_of_cons in H as [H|H]; [discriminate|]).
    by apply elem_of_nil in H.
Defined.

(** ** The conditional *)

(** X11: [if] takes, from the top, the false branch, the true branch and
    the condition, three Blocks.  It evaluates the condition in place, on
    what the stack holds below the three Blocks, and pops what the condition
    left on top; when that is a Number it evaluates the true branch if the
    Number [!== 0] and the false branch otherwise, from the state the
    condition left, and ends as that branch ends; when it is not a Number it
    throws the expect-num error.  Since the test is [!== 0], [NaN] selects
    the true branch and negative zero the false branch. *)
Theorem if_selects_by_condition
    (fuel : nat) (st st1 cond t f : list Value) (v : Value)
    (vs : list (gmap string Value)) (bs : list (list Value))
    (evs : list VmEvent) (s1 : VmState) :
  for_each (eval fuel) cond (mkState st vs bs) = (evs, Returned tt s1) →
  stack s1 = st1 ++ [v] →
  let s := mkState (st ++ [Block cond; Block t; Block f]) vs bs in
  let s2 := mkState st1 (vars s1) (blocks s1) in
  let pops :=
    [ StackPopEvent (mkState (st ++ [Block cond; Block t]) vs bs) (Block f);
      StackPopEvent (mkState (st ++ [Block cond]) vs bs) (Block t);
      StackPopEvent (mkState st vs bs) (Block cond) ] in
  match v with
  | Num n =>
      let r := for_each (eval fuel)
                 (if Js.num_neq n (Js.of_Z 0) then t else f) s2 in
      opIf (eval fuel) s = (pops ++ evs ++ StackPopEvent s2 v :: r.1, r.2)
  | _ =>
      opIf (eval fuel) s = (pops ++ evs ++ [StackPopEvent s2 v], Thrown ExpectNum)
  end ∧
  Js.num_neq Js.NaN (Js.of_Z 0) = true ∧
  Js.num_neq (S754_zero true) (Js.of_Z 0) = false.
Proof.
  intros Hcond Hv s s2 pops. split; [|done].
  destruct s1 as [st1' vs1 bs1]. cbn [stack vars blocks] in *. subst st1' s s2 pops.
  replace (st ++ [Block cond; Block t; Block f])
    with (((st ++ [Block cond]) ++ [Block t]) ++ [Block f])
    by by rewrite <- !app_assoc.
  replace (st ++ [Block cond; Block t]) with ((st ++ [Block cond]) ++ [Block t])
    by by rewrite <- !app_assoc.
  unfold opIf. gen_run.
  rewrite (gen_bind_returned _ _ _ _ _ _ Hcond). gen_run.
  destruct v as [n| | | | |]; try reflexivity.
  by destruct (Js.num_neq n (Js.of_Z 0)).
Qed.

Lemma if_selects_by_condition_witness :
  opIf (eval 1) (mkState ([lit 7] ++ [Block [lit 0]; Block [lit 2]; Block [lit 3]])
                   [native_scope] []) =
    ([ StackPopEvent (mkState ([lit 7] ++ [Block [lit 0]; Block [lit 2]])
                        [native_scope] []) (Block [lit 3]);
       StackPopEvent (mkState ([lit 7] ++ [Block [lit 0]]) [native_scope] [])
                     (Block [lit 2]);
       StackPopEvent (mkState [lit 7] [native_scope] []) (Block [lit 0]) ]
     ++ [StateEvent (mkState [lit 7; lit 0] [native_scope] [])]
     ++ StackPopEvent (mkState [lit 7] [native_scope] []) (lit 0)
        :: [StateEvent (mkState [lit 7; lit 3] [native_scope] [])],
     Returned tt (mkState [lit 7; lit 3] [native_scope] [])).
Proof.
  destruct (if_selects_by_condition 1 [lit 7] [lit 7] [lit 0] [lit 2] [lit 3] (lit 0)
              [native_scope] []
              [StateEvent (mkState [lit 7; lit 0] [native_scope] [])]
              (mkState [lit 7; lit 0] [native_scope] [])) as [H _].
  - reflexivity.
  - reflexivity.
  - exact H.
Defined.

(** ** Blank words *)

Lemma outputs_app evs1 evs2 : outputs (evs1 ++ evs2) = outputs evs1 ++ outputs evs2.
Proof. apply omap_app. Qed.

Lemma for_each_skip_blank (fuel : nat) ws s :
  (for_each (parse fuel) ws s).2 =
    (for_each (parse fuel) (filter (λ w, w ≠ EmptyString) ws) s).2 ∧
  outputs (for_each (parse fuel) ws s).1 =
    outputs (for_each (parse fuel) (filter (λ w, w ≠ EmptyString) ws) s).1.
Proof.
  revert s. induction ws as [|w ws IH]; intros s; [done|].
  destruct (decide (w = EmptyString)) as [->|Hw].
  - rewrite filter_cons_False by (by intros ?). cbn [for_each].
    rewrite (gen_bind_returned _ _ s [StateEvent s] tt s) by done.
    cbn [fst snd]. apply IH.
  - rewrite filter_cons_True by done. cbn [for_each].
    unfold mbind, gen_mbind, gen_bind.
    destruct (parse fuel w s) as [evs1 [[] s1| |]]; [|done..].
    destruct (IH s1) as [IH1 IH2].
    destruct (for_each (parse fuel) ws s1) as [evs2 c2].
    destruct (for_each (parse fuel) (filter _ ws) s1) as [evs3 c3].
    cbn [fst snd] in *. split; [done|]. by rewrite !outputs_app, IH2.
Qed.

(** X12: only the words count.  Empty words -- what the driver finds
    between two consecutive separators, before a leading and after a
    trailing one -- change nothing but the number of state snapshots: two
    programs with the same non-empty words, however they are laid out in
    spaces and lines, end the same way (same final state or same error) and
    output the same values. *)
Theorem layout_is_irrelevant (fuel : nat) (p1 p2 : string) :
  nonblank_words p1 = nonblank_words p2 →
  (run fuel p1).2 = (run fuel p2).2 ∧
  outputs (run fuel p1).1 = outputs (run fuel p2).1.
Proof.
  unfold nonblank_words. intros Hwords. rewrite !run_words. cbn [fst snd].
  destruct (for_each_skip_blank fuel (words p1) initial_state) as [H1 H1'].
  destruct (for_each_skip_blank fuel (words p2) initial_state) as [H2 H2'].
  split.
  - by rewrite H1, H2, Hwords.
  - change (outputs (for_each (parse fuel) (words p1) initial_state).1 =
            outputs (for_each (parse fuel) (words p2) initial_state).1).
    by rewrite H1', H2', Hwords.
Qed.

Lemma layout_is_irrelevant_witness :
  (run 2 "  /x 4 def
x  x *
   puts ").2 = (run 2 "/x 4 def x x * puts").2 ∧
  outputs (run 2 "  /x 4 def
x  x *
   puts ").1 = outputs (run 2 "/x 4 def x x * puts").1.
Proof.
  apply (layout_is_irrelevant 2). vm_compute. reflexivity.
Defined.

(** ** The last state shown *)

Lemma settles_bind_r {A} (m : Gen A) (f : A → Gen unit) :
  (∀ a, settles (f a)) → settles (m ≫= f).
Proof.
  intros Hf s evs s' H. unfold mbind, gen_mbind, gen_bind in H.
  destruct (m s) as [evs1 [a s1| |]]; [|done..].
  destruct (f a s1) as [evs2 c] eqn:E2. injection H as <- ->.
  apply Hf in E2. rewrite omap_app.
  destruct (omap event_state evs2) as [|x l] eqn:E; [done|].
  by rewrite last_app, E2.
Qed.

Lemma settles_yield_state : settles (yield stateEvent).
Proof. by intros s evs s' [= <- <-]. Qed.

Lemma settles_throw e : settles (throw e).
Proof. by intros s evs s'. Qed.

Lemma for_each_settles {A} (f : A → Gen unit) (l : list A) s evs s' :
  (∀ x, settles (f x)) →
  for_each f l s = (evs, Returned tt s') →
  (evs = [] ∧ s' = s) ∨ last (omap event_state evs) = Some s'.
Proof.
  intros Hf. revert s evs. induction l as [|x l IH]; intros s evs H.
  - left. by injection H as <- <-.
  - right. cbn [for_each] in H. unfold mbind, gen_mbind, gen_bind in H.
    destruct (f x s) as [evs1 [[] s1| |]] eqn:E1; [|done..].
    destruct (for_each f l s1) as [evs2 c] eqn:E2. injection H as <- ->.
    apply Hf in E1. destruct (IH _ _ E2) as [[-> ->]|H2].
    + by rewrite app_nil_r.
    + rewrite omap_app.
      destruct (omap event_state evs2) as [|y l'] eqn:E; [done|].
      by rewrite last_app, H2.
Qed.

Lemma settles_popped_for_each {A} (f : A → Gen unit) (l : list A) v :
  (∀ x, settles (f x)) → settles (yield_stackPopEvent v ;; for_each f l).
Proof.
  intros Hf s evs s' H. destruct v as [v|]; [|done].
  rewrite (gen_bind_returned _ _ _ _ _ _ (yield_stackPopEvent_run v s)) in H.
  destruct (for_each f l s) as [evs2 c] eqn:E2. cbn in H. injection H as <- ->.
  destruct (for_each_settles f l s evs2 s' Hf E2) as [[-> ->]|H2]; [done|].
  cbn. destruct (omap event_state evs2) as [|y l'] eqn:E; [done|].
  by rewrite last_cons, H2.
Qed.

Section Settles.

Variable ev : Value → Gen unit.

Hypothesis ev_settles : ∀ code, settles (ev code).

Ltac settles_tac :=
  repeat first
    [ apply settles_yield_state
    | apply settles_throw
    | apply ev_settles
    | apply settles_bind_r; intros ?
    | match goal with
      | |- settles (match ?x with _ => _ end) => destruct x
      end ].

Lemma opIf_settles : settles (opIf ev).
Proof.
  unfold opIf.
  apply settles_bind_r; intros fb. apply settles_bind_r; intros _.
  destruct fb as [[| | |falseValues| |]|]; try (by settles_tac).
  apply settles_bind_r; intros tb. apply settles_bind_r; intros _.
  destruct tb as [[| | |trueValues| |]|]; try (by settles_tac).
  apply settles_bind_r; intros cb. apply settles_bind_r; intros _.
  destruct cb as [[| | |condValues| |]|]; try (by settles_tac).
  apply settles_bind_r; intros _. apply settles_bind_r; intros cr.
  destruct cr as [[n| | | | |]|];
    try (by apply settles_bind_r; intros ?; apply settles_throw).
  destruct (Js.num_neq n (Js.of_Z 0)); by apply settles_popped_for_each.
Qed.

Lemma puts_settles : settles puts.
Proof.
  unfold puts. apply settles_bind_r. intros [v|]; [|by settles_tac].
  by intros s evs s' [= <- <-].
Qed.

Lemma call_native_settles fn : settles (call_native ev fn).
Proof.
  destruct fn; cbn [call_native];
    [unfold add, binary_native|unfold sub, binary_native|unfold mul, binary_native
    |unfold div, binary_native|unfold lt, binary_native
    |apply opIf_settles|unfold opDef|unfold opExch|apply puts_settles];
    by settles_tac.
Qed.

Lemma eval_body_settles code : settles (eval_body ev code).
Proof.
  unfold eval_body. apply settles_bind_r. intros s0.
  destruct (blocks s0); [|by settles_tac].
  destruct code as [num|op|sym|values|fn|key]; try (by settles_tac).
  destruct (findVar op (vars s0)) as [[num|op'|sym|values|fn|key]|];
    try (by settles_tac).
  apply call_native_settles.
Qed.

End Settles.

Lemma eval_settles fuel code : settles (eval fuel code).
Proof.
  revert code. induction fuel as [|fuel IH]; intros code; [done|].
  by apply eval_body_settles.
Qed.

Lemma parse_settles fuel word : settles (parse fuel word).
Proof.
  unfold parse.
  destruct (String.eqb word ""); [apply settles_yield_state|].
  destruct (String.eqb word "{");
    [apply settles_bind_r; intros ?; apply settles_yield_state|].
  destruct (String.eqb word "}").
  { do 2 (apply settles_bind_r; intros ?).
    destruct a; [apply eval_settles|apply settles_throw]. }
  destruct (negb _); [apply eval_settles|].
  destruct (Js.starts_with "/" word); apply eval_settles.
Qed.

Lemma run_settles fuel program s :
  final_state (run fuel program) = Some s →
  last (omap event_state (run fuel program).1) = Some s.
Proof.
  intros Hs. rewrite run_words in *. unfold final_state in Hs. cbn [fst snd] in *.
  destruct (for_each (parse fuel) (words program) initial_state)
    as [evs [[] s'| |]] eqn:E; cbn in Hs; try done.
  injection Hs as ->. cbn [fst].
  destruct (for_each_settles _ _ _ _ _ (parse_settles fuel) E) as [[-> ->]|H]; [done|].
  cbn. destruct (omap event_state evs) as [|y l] eqn:E'; [done|].
  by rewrite last_cons, H.
Qed.

(** X13: the last snapshot is the final state.  Whenever a run returns, the
    state shown by its last event that shows one (a state or a pop event)
    is the state the machine is left in: nothing changes the machine after
    its last report.  The same holds for every returning [parse] and
    [eval]. *)
Theorem last_event_shows_final_state (fuel : nat) (program : string) (s : VmState) :
  final_state (run fuel program) = Some s →
  last (omap event_state (run fuel program).1) = Some s ∧
  (∀ word, settles (parse fuel word)) ∧
  (∀ code, settles (eval fuel code)).
Proof.
  intros Hs. split; [by apply run_settles|].
  split; [apply parse_settles|apply eval_settles].
Qed.

Lemma last_event_shows_final_state_witness :
  last (omap event_state (run 1 "1 2 + puts").1) = Some (mkState [] [native_scope] []).
Proof.
  destruct (last_event_shows_final_state 1 "1 2 + puts" (mkState [] [native_scope] []))
    as [H _].
  - vm_compute. reflexivity.
  - exact H.
Defined.

(** ** The visualiser *)

Lemma take_app_take {A} (n : nat) (l1 l2 : list A) :
  take n (l1 ++ take n l2) = take n (l1 ++ l2).
Proof.
  rewrite !take_app, take_take. do 2 f_equal. lia.
Qed.

Lemma foldl_show_event_outputs evs : ∀ p,
  (length (panel_outputs p) ≤ 5)%nat →
  panel_outputs (foldl show_event p evs) =
    take 5 (reverse (omap output_line evs) ++ panel_outputs p).
Proof.
  induction evs as [|e evs IH]; intros p Hp.
  - cbn. by rewrite take_ge.
  - cbn [foldl]. rewrite IH.
    + destruct e as [s|v|s v]; cbn [show_event panel_outputs omap list_omap output_line];
        [done| |].
      all: rewrite reverse_cons, <- app_assoc, take_app_take; done.
    + destruct e; cbn; [done|rewrite length_take; lia..].
Qed.

Lemma foldl_show_event_state evs : ∀ p,
  vmState (foldl show_event p evs) =
    default (vmState p) (last (omap event_state evs)).
Proof.
  induction evs as [|e evs IH]; intros p; [done|].
  cbn [foldl]. rewrite IH.
  destruct e as [s|v|s v]; cbn; rewrite ?last_cons; try done;
    by destruct (last _).
Qed.

(** X14: what the visualiser ends up showing.  After the events of a run,
    started with at most five lines in the output panel, the panel holds the
    five most recent lines, newest first: one [pop] line per value popped and
    one [puts] line per value output, then what was there before.  When the
    run has returned, the state displayed is the final state of the
    machine. *)
Theorem panel_shows_latest_five (fuel : nat) (input : string) (p : Panel) :
  (length (panel_outputs p) ≤ 5)%nat →
  let p' := handleClickRun fuel input p in
  panel_outputs p' =
    take 5 (reverse (omap output_line (run fuel input).1) ++ panel_outputs p) ∧
  (length (panel_outputs p') ≤ 5)%nat ∧
  (∀ s, final_state (run fuel input) = Some s → vmState p' = s).
Proof.
  intros Hp p'. subst p'. unfold handleClickRun.
  rewrite foldl_show_event_outputs by done.
  split; [done|]. split; [rewrite length_take; lia|].
  intros s Hs. by rewrite foldl_show_event_state, (run_settles _ _ _ Hs).
Qed.

Lemma panel_shows_latest_five_witness :
  panel_outputs (handleClickRun 1 "1 2 + puts" (mkPanel initial_state ["puts 9"])) =
    ["puts 3"; "pop 3"; "pop 1"; "pop 2"; "puts 9"] ∧
  vmState (handleClickRun 1 "1 2 + puts" (mkPanel initial_state ["puts 9"])) =
    mkState [] [native_scope] [].
Proof.
  destruct (panel_shows_latest_five 1 "1 2 + puts" (mkPanel initial_state ["puts 9"]))
    as (H1 & _ & H3).
  - cbn. lia.
  - split.
    + rewrite H1. vm_compute. reflexivity.
    + apply H3. vm_compute. reflexivity.
Defined.

(** ** The events trace the operand stack *)

Lemma explained_app b evs1 evs2 :
  explained b (evs1 ++ evs2) ↔ explained b evs1 ∧ explained (foldl shown b evs1) evs2.
Proof.
  revert b. induction evs1 as [|e evs1 IH]; intros b; cbn; [tauto|].
  rewrite IH. tauto.
Qed.

Lemma traced_bind {A B} (m : Gen A) (f : A → Gen B) :
  traced m → (∀ a, traced (f a)) → traced (m ≫= f).
Proof.
  intros Hm Hf s. specialize (Hm s). unfold mbind, gen_mbind, gen_bind.
  destruct (m s) as [evs1 [a s1| |]]; cbn [fst snd] in *; [|done..].
  destruct Hm as [H1 E1]. specialize (Hf a s1).
  destruct (f a s1) as [evs2 c]; cbn [fst snd] in *.
  rewrite explained_app, foldl_app, E1. by destruct Hf.
Qed.

Lemma traced_silent {A} (m : Gen A) :
  (∀ s, (m s).1 = [] ∧
        match (m s).2 with Returned _ s' => stack s' = stack s | _ => True end) →
  traced m.
Proof.
  intros H s. destruct (H s) as [E Hc]. rewrite E. split; [done|].
  by destruct (m s).2.
Qed.

Lemma traced_ret {A} (a : A) : traced (gen_ret a).
Proof. by apply traced_silent. Qed.

Lemma traced_throw {A} e : traced (@throw A e).
Proof. by apply traced_silent. Qed.

Lemma traced_get_state : traced get_state.
Proof. by apply traced_silent. Qed.

Lemma traced_vars_push : traced vars_push.
Proof. by apply traced_silent. Qed.

Lemma traced_vars_pop : traced vars_pop.
Proof.
  apply traced_silent. intros s. unfold vars_pop.
  by destruct (array_pop (vars s)) as [[]|].
Qed.

Lemma traced_vars_define sym v : traced (vars_define sym v).
Proof.
  apply traced_silent. intros s. unfold vars_define.
  by destruct (array_pop (vars s)) as [[]|].
Qed.

Lemma traced_blocks_push : traced blocks_push.
Proof. by apply traced_silent. Qed.

Lemma traced_blocks_pop : traced blocks_pop.
Proof.
  apply traced_silent. intros s. unfold blocks_pop.
  by destruct (array_pop (blocks s)) as [[]|].
Qed.

Lemma traced_blocks_append code : traced (blocks_append code).
Proof.
  apply traced_silent. intros s. unfold blocks_append.
  by destruct (array_pop (blocks s)) as [[]|].
Qed.

Lemma traced_yield_state : traced (yield stateEvent).
Proof. intros s. cbn. split; [|done]. split; [by left|done]. Qed.

Lemma traced_yield_puts v : traced (yield (λ _, PutsEvent v)).
Proof. by intros s. Qed.

(** A pop and its report. *)
Lemma traced_popped {B} (k : option Value → Gen B) :
  (∀ v, traced (k (Some v))) →
  traced (value ← stack_pop; yield_stackPopEvent value ;; k value).
Proof.
  intros Hk s. unfold mbind, gen_mbind, gen_bind, stack_pop.
  destruct (array_pop (stack s)) as [[rest v]|] eqn:E; [|done].
  apply array_pop_Some in E. cbn.
  specialize (Hk v (mkState rest (vars s) (blocks s))).
  destruct (k (Some v) _) as [evs c]. cbn in *.
  destruct Hk as [H1 H2]. done.
Qed.

(** A push and its report. *)
Lemma traced_pushed {B} v (k : Gen B) :
  traced k → traced (stack_push v ;; yield stateEvent ;; k).
Proof.
  intros Hk s. unfold mbind, gen_mbind, gen_bind, stack_push, yield. cbn.
  specialize (Hk (mkState (stack s ++ [v]) (vars s) (blocks s))).
  destruct (k _) as [evs c]. cbn in *. destruct Hk as [H1 H2].
  split; [|done]. split; [|done]. right. by exists v.
Qed.

Lemma traced_push_end v : traced (stack_push v ;; yield stateEvent).
Proof.
  intros s. cbn. split; [|done]. split; [|done]. right. by exists v.
Qed.

Lemma traced_for_each {A} (f : A → Gen unit) (l : list A) :
  (∀ x, traced (f x)) → traced (for_each f l).
Proof.
  intros Hf. induction l as [|x l IH]; [apply traced_ret|].
  cbn [for_each]. apply traced_bind; [apply Hf|by intros _].
Qed.

Ltac traced_prim :=
  first
    [ apply traced_get_state | apply traced_vars_push | apply traced_vars_pop
    | apply traced_vars_define | apply traced_blocks_push | apply traced_blocks_pop
    | apply traced_blocks_append | apply traced_yield_state | apply traced_yield_puts
    | apply traced_throw | apply traced_ret | apply traced_push_end ].

Section Traced.

Variable ev : Value → Gen unit.

Hypothesis ev_traced : ∀ code, traced (ev code).

Ltac traced_tac :=
  repeat first
    [ apply ev_traced
    | apply traced_for_each; intros ?
    | apply traced_popped; intros ?
    | traced_prim
    | apply traced_pushed
    | apply traced_bind; [first [apply ev_traced | by apply traced_for_each | traced_prim]|intros ?]
    | match goal with
      | |- traced (match ?x with _ => _ end) => destruct x
      | |- traced (if ?x then _ else _) => destruct x
      end ].

Lemma call_native_traced fn : traced (call_native ev fn).
Proof.
  destruct fn; cbn [call_native];
    unfold add, sub, mul, div, lt, binary_native, puts, opIf, opDef, opExch;
    by traced_tac.
Qed.

Lemma eval_body_traced code : traced (eval_body ev code).
Proof.
  unfold eval_body. apply traced_bind; [apply traced_get_state|intros s0].
  destruct (blocks s0); [|by traced_tac].
  destruct code as [num|op|sym|values|fn|key]; try (by traced_tac).
  destruct (findVar op (vars s0)) as [[num|op'|sym|values|fn|key]|];
    try (by traced_tac).
  apply call_native_traced.
Qed.

End Traced.

Lemma eval_traced fuel code : traced (eval fuel code).
Proof.
  revert code. induction fuel as [|fuel IH]; intros code; [done|].
  by apply eval_body_traced.
Qed.

Lemma parse_traced fuel word : traced (parse fuel word).
Proof.
  unfold parse.
  destruct (String.eqb word ""); [apply traced_yield_state|].
  destruct (String.eqb word "{").
  { apply traced_bind; [apply traced_blocks_push|intros _; apply traced_yield_state]. }
  destruct (String.eqb word "}").
  { apply traced_bind; [apply traced_blocks_pop|intros values].
    apply traced_bind; [apply traced_yield_state|intros _].
    destruct values; [apply eval_traced|apply traced_throw]. }
  destruct (negb _); [apply eval_traced|].
  destruct (Js.starts_with "/" word); apply eval_traced.
Qed.

(** X16: the events of a run are a complete trace of the operand stack,
    whether the run returns, throws or is cut short.  Starting from the
    empty stack, every state event shows the stack shown last, unchanged or
    with one value pushed on top, and every pop event shows the stack shown
    last without its top value and reports exactly that value: no push and
    no pop goes unreported, and none is reported twice. *)
Theorem events_trace_the_stack (fuel : nat) (program : string) :
  explained [] (run fuel program).1 ∧
  (∀ word, traced (parse fuel word)) ∧
  (∀ code, traced (eval fuel code)).
Proof.
  split; [|split; [apply parse_traced|apply eval_traced]].
  rewrite run_words. cbn. split; [by left|].
  apply (traced_for_each (parse fuel) (words program) (parse_traced fuel) initial_state).
Qed.

(** ** Programs in sequence *)

(** X17: a program followed by more text.  When a program returns, running
    it with more text after a separator gives the same events, followed by
    the events of the words of the added text run from the state the program
    left, and ends as those words end: the machine carries nothing from one
    word to the next but its state, and never looks ahead. *)
Theorem programs_compose
    (fuel : nat) (p1 p2 : string) (sep : ascii) (s1 : VmState) :
  is_separator sep = true →
  final_state (run fuel p1) = Some s1 →
  let rest := for_each (parse fuel) (words p2) s1 in
  run fuel (p1 +:+ String sep p2) = ((run fuel p1).1 ++ rest.1, rest.2).
Proof.
  intros Hsep Hs1 rest. subst rest. rewrite !run_words in *.
  rewrite words_app_separator by done.
  unfold final_state in Hs1. cbn [fst snd] in *.
  destruct (for_each (parse fuel) (words p1) initial_state)
    as [evs1 [[] s1'| |]] eqn:E1; cbn in Hs1; try done.
  injection Hs1 as ->.
  by rewrite for_each_app, (gen_bind_returned _ _ _ _ _ _ E1).
Qed.

Lemma programs_compose_witness :
  run 2 ("/x 4 def" +:+ String newline "x x *") =
    ((run 2 "/x 4 def").1 ++
       (for_each (parse 2) (words "x x *")
          (mkState [] [<["x" := lit 4]> native_scope] [])).1,
     (for_each (parse 2) (words "x x *")
        (mkState [] [<["x" := lit 4]> native_scope] [])).2).
Proof.
  apply (programs_compose 2 "/x 4 def" "x x *" newline
           (mkState [] [<["x" := lit 4]> native_scope] [])).
  - reflexivity.
  - vm_compute. reflexivity.
Defined.

(** ** Defining a name and using it *)

Lemma slash_word_is_no_number name : Js.isNaN (Js.parseFloat (String "/" name)) = true.
Proof. reflexivity. Qed.

Lemma slash_word_starts name : Js.starts_with "/" (String "/" name) = true.
Proof. by destruct name. Qed.

Lemma returned_then {A} (f : A → Gen unit) x l s evs s1 :
  f x s = (evs, Returned tt s1) →
  (for_each f (x :: l) s).2 = (for_each f l s1).2.
Proof. intros E. cbn [for_each]. by rewrite (gen_bind_returned _ _ _ _ _ _ E). Qed.

Lemma opDef_fresh (fuel : nat) rest sym v pre top :
  (∀ op, v ≠ Operator op) → scope_get top sym = None →
  ∃ evs,
    opDef (eval (S fuel)) (mkState (rest ++ [Symbol sym; v]) (pre ++ [top]) []) =
      (evs, Returned tt (mkState rest (pre ++ [<[sym := v]> top]) [])).
Proof.
  intros Hdata Hfree.
  replace (rest ++ [Symbol sym; v]) with ((rest ++ [Symbol sym]) ++ [v])
    by by rewrite <- app_assoc.
  unfold opDef. gen_run. unfold scope_define. rewrite Hfree. by eexists.
Qed.

(** X18: any fresh name can be defined and used.  For a name that is an
    operator word (no separator in it, not empty, not a brace, not read as
    a number, no leading slash) and that the base scope gives no value (it
    names no native and nothing inherited from the prototype), and for a
    word that is read as a number, the program [/name word def name]
    returns with exactly that number on the operand stack. *)
Theorem define_then_use (k : nat) (name numword : string) :
  operator_word name = true →
  scope_get native_scope name = None →
  is_word numword = true →
  Js.isNaN (Js.parseFloat numword) = false →
  final_stack (run (2 + k) (join " " [String "/" name; numword; "def"; name])) =
    Some [Num (Js.parseFloat numword)].
Proof.
  intros Hname Hfree Hword Hnum.
  assert (is_word name = true) as Hw.
  { unfold operator_word in Hname. by repeat apply andb_prop in Hname as [Hname _]. }
  assert (numword ≠ "" ∧ numword ≠ "{" ∧ numword ≠ "}") as (N1 & N2 & N3).
  { repeat split; intros ->; discriminate Hnum. }
  rewrite run_words, words_join by done.
  cbn [fmap list_fmap concat].
  rewrite (words_word (String "/" name)), (words_word numword), (words_word name)
    by (done || (cbn; by rewrite Hw)).
  replace (words "def") with ["def"] by by vm_compute.
  cbn [app]. unfold final_stack, final_state. cbn [fst snd].
  change (2 + k)%nat with (S (S k)).
  (* /name *)
  erewrite (returned_then _ (String "/" name)); last first.
  { rewrite parse_word by done. rewrite slash_word_is_no_number, slash_word_starts.
    apply (eval_data_run (S k) (Symbol name) [] [native_scope]). by intros ?. }
  (* the number *)
  erewrite (returned_then _ numword); last first.
  { rewrite parse_word by done. rewrite Hnum.
    apply (eval_data_run (S k) (Num (Js.parseFloat numword)) [Symbol name] [native_scope]).
    by intros ?. }
  (* def *)
  destruct (opDef_fresh k [] name (Num (Js.parseFloat numword)) [] native_scope)
    as [evs Hdef]; [by intros ?|done|].
  erewrite (returned_then _ "def"); last first.
  { rewrite (operator_word_parse (S k) "def") by by vm_compute.
    rewrite eval_native_operator with (fn := FnDef) by by vm_compute.
    exact Hdef. }
  (* the name *)
  erewrite (returned_then _ name); last first.
  { rewrite operator_word_parse by done.
    apply (eval_bound_data (S k) name (Num (Js.parseFloat numword)) []
             ([] ++ [<[name := Num (Js.parseFloat numword)]> native_scope]));
      [|by intros ?..].
    by rewrite findVar_snoc, scope_get_insert_eq. }
  done.
Qed.

Lemma define_then_use_witness :
  final_stack (run (2 + 0) (join " " [String "/" "speed"; "2.5e3"; "def"; "speed"])) =
    Some [Num (Js.parseFloat "2.5e3")].
Proof.
  apply (define_then_use 0 "speed" "2.5e3"); by vm_compute.
Defined.

(** * Captured Blocks *)

(** ** The values a run captures *)

Lemma captured_holds v : captured v = true → holds_captured v = true.
Proof. by destruct v. Qed.

Lemma scope_get_captured (m : gmap string Value) word v :
  map_Forall (λ _ v, holds_captured v = true) m →
  scope_get m word = Some v → holds_captured v = true.
Proof.
  intros Hm. unfold scope_get. destruct (m !! word) as [x|] eqn:E.
  - intros [= <-]. by apply (Hm word).
  - destruct (inherited word); [by intros [= <-]|done].
Qed.

Lemma findVar_captured word scopes v :
  Forall (map_Forall (λ _ v, holds_captured v = true)) scopes →
  findVar word scopes = Some v → holds_captured v = true.
Proof.
  induction scopes as [|top scopes IH] using rev_ind; [done|].
  intros [Hscopes Htop%Forall_inv]%Forall_app. rewrite findVar_snoc.
  destruct (scope_get top word) as [x|] eqn:E; [|by apply IH].
  intros [= <-]. by eapply scope_get_captured.
Qed.

Lemma scope_define_captured (m : gmap string Value) sym v :
  map_Forall (λ _ v, holds_captured v = true) m → holds_captured v = true →
  map_Forall (λ _ v, holds_captured v = true) (scope_define m sym v).
Proof.
  intros Hm Hv. unfold scope_define. destruct (scope_get m sym); [done|].
  by apply map_Forall_insert_2.
Qed.

Lemma native_scope_captured :
  map_Forall (λ _ v, holds_captured v = true) native_scope.
Proof. unfold native_scope. by repeat (apply map_Forall_insert_2; [done|]). Qed.

Ltac captured_destruct :=
  repeat match goal with
         | s : VmState |- _ => destruct s as [? ? ?]
         end;
  cbn [stack vars blocks] in *;
  repeat match goal with
         | H : closed_captured _ |- _ => destruct H as [(? & ? & ?) ?]
         | H : captured_state _ |- _ => destruct H as (? & ? & ?)
         end;
  cbn [stack vars blocks] in *; subst;
  repeat match goal with
         | H : Forall _ (_ ++ _) |- _ => apply Forall_app in H as [? ?]
         | H : Forall _ (_ :: _) |- _ => apply Forall_cons in H as [? ?]
         end.

Ltac captured_solve :=
  captured_destruct; unfold closed_captured, captured_state; cbn [stack vars blocks];
  repeat first
    [ assumption | done
    | apply Forall_app_2 | apply List.Forall_cons | apply List.Forall_nil
    | match goal with
      | |- map_Forall _ (scope_define _ _ _) => apply scope_define_captured
      | |- map_Forall _ ∅ => apply map_Forall_empty
      end
    | apply captured_holds; assumption
    | split ].

Section Captured.

Variable ev : Value → Gen unit.

Hypothesis ev_captured : ∀ code s, holds_captured code = true → closed_captured s →
  gen_spec closed_captured (λ _, closed_captured) (ev code s).

Lemma for_each_captured (values : list Value) s :
  forallb captured values = true → closed_captured s →
  gen_spec closed_captured (λ _, closed_captured) (for_each ev values s).
Proof.
  revert s. induction values as [|v values IH]; intros s Hvs Hs; cbn [for_each].
  - by apply spec_ret.
  - cbn in Hvs. apply andb_true_iff in Hvs as [Hv Hvs].
    apply gen_spec_bind.
    eapply gen_spec_mono; [done| |by apply ev_captured, Hs; apply captured_holds].
    intros [] s' Hs'. by apply IH.
Qed.

Ltac captured_tac :=
  repeat first
    [ match goal with
      | |- gen_spec _ _ (ev _ _) =>
          eapply gen_spec_mono; [| |apply ev_captured]; cbv beta;
          [by auto|intros [] ? ?|by captured_solve|by captured_solve]
      | |- gen_spec _ _ (for_each ev _ _) =>
          eapply gen_spec_mono; [| |apply for_each_captured]; cbv beta;
          [by auto|intros [] ? ?|by captured_solve|by captured_solve]
      | |- gen_spec _ _ (yield_stackPopEvent None _) => by split; [constructor|]
      | |- gen_spec _ _ _ => spec_step
      end
    | by captured_solve ].

Lemma call_native_captured fn s :
  closed_captured s →
  gen_spec closed_captured (λ _, closed_captured) (call_native ev fn s).
Proof.
  intros Hs.
  destruct fn; cbn [call_native];
    unfold add, sub, mul, div, lt, binary_native, puts, opIf, opDef, opExch;
    captured_tac.
Qed.

Lemma eval_body_captured code s :
  holds_captured code = true → closed_captured s →
  gen_spec closed_captured (λ _, closed_captured) (eval_body ev code s).
Proof.
  intros Hcode Hs. unfold eval_body.
  spec_step. spec_step. rewrite (proj2 Hs).
  assert (∀ v, holds_captured v = true →
            gen_spec closed_captured (λ _, closed_captured)
                     ((stack_push v ;; yield stateEvent) s))
    as Hpush by (intros v Hv; captured_tac).
  destruct code as [num|op|sym|values|fn|key]; try (by apply Hpush).
  destruct (findVar op (vars s)) as [v|] eqn:Hf; [|apply spec_throw].
  assert (holds_captured v = true) as Hv by (eapply findVar_captured; [apply Hs|done]).
  destruct v as [num|op'|sym|values|fn|key]; try (by apply Hpush).
  - captured_tac.
  - by apply call_native_captured.
Qed.

End Captured.

Lemma eval_closed_captured (fuel : nat) code s :
  holds_captured code = true → closed_captured s →
  gen_spec closed_captured (λ _, closed_captured) (eval fuel code s).
Proof.
  revert code s. induction fuel as [|fuel IH]; intros code s Hcode Hs.
  - apply spec_out_of_fuel.
  - by apply eval_body_captured.
Qed.

Lemma eval_captured (fuel : nat) code s :
  captured code = true → captured_state s →
  gen_spec captured_state (λ _, captured_state) (eval fuel code s).
Proof.
  intros Hcode Hs. destruct (blocks s) as [|b bs] eqn:Hb.
  - eapply gen_spec_mono;
      [| |apply eval_closed_captured; [by apply captured_holds|done]].
    + by intros ? [? _].
    + by intros _ ? [? _].
  - destruct fuel as [|fuel]; [apply spec_out_of_fuel|].
    rewrite eval_open_block by by rewrite Hb.
    clear Hb. repeat first [spec_step | by captured_solve].
Qed.

Lemma parse_captured (fuel : nat) word s :
  is_word word = true → captured_state s →
  gen_spec captured_state (λ _, captured_state) (parse fuel word s).
Proof.
  intros Hw Hs. unfold parse.
  destruct (String.eqb word "") eqn:E1; [by repeat spec_step|].
  destruct (String.eqb word "{") eqn:E2; [repeat first [spec_step | by captured_solve]|].
  destruct (String.eqb word "}") eqn:E3.
  { spec_step. spec_step.
    - spec_step. spec_step; [by captured_solve|]. apply eval_captured; [|by captured_solve].
      captured_destruct. cbn. by apply forallb_true.
    - spec_step. spec_step; [done|]. apply spec_throw. }
  destruct (Js.isNaN (Js.parseFloat word)) eqn:E4; cbn [negb].
  - destruct (Js.starts_with "/" word) eqn:E5; apply eval_captured; try done.
    cbn [captured]. unfold operator_word. by rewrite Hw, E1, E2, E3, E4, E5.
  - apply eval_captured; [|done]. cbn [captured]. by rewrite parseFloat_valid, E4.
Qed.

Lemma initial_state_captured : captured_state initial_state.
Proof.
  split; [constructor|]. split; [|constructor].
  constructor; [apply native_scope_captured|constructor].
Qed.

Lemma for_each_parse_captured fuel ws s :
  Forall (λ w, is_word w = true) ws → captured_state s →
  gen_spec captured_state (λ _, captured_state) (for_each (parse fuel) ws s).
Proof.
  intros Hws. revert s. induction Hws as [|w ws Hw _ IH]; intros s Hs; cbn [for_each].
  - by apply spec_ret.
  - apply gen_spec_bind. eapply gen_spec_mono; [done| |by apply parse_captured].
    intros [] s' Hs'. by apply IH.
Qed.

(** In every state a run shows and in the state it returns, the Blocks
    hold captured values only. *)
Lemma run_captured (fuel : nat) (program : string) :
  gen_spec captured_state (λ _, captured_state) (run fuel program).
Proof.
  unfold run. rewrite run_from_words.
  spec_step. spec_step; [apply initial_state_captured|].
  apply for_each_parse_captured; [apply words_are_words|apply initial_state_captured].
Qed.

Lemma captured_from_source_captured values :
  captured_from_source (Block values) → forallb captured values = true.
Proof.
  intros (source & fuel & Hrun).
  pose proof (run_captured fuel source) as [_ Hend].
  unfold final_stack, final_state in Hrun.
  destruct (run fuel source).2 as [[] s| |]; [|done..].
  cbn in Hrun. injection Hrun as Hstack.
  destruct Hend as (Hst & _ & _). rewrite Hstack in Hst.
  by apply Forall_cons in Hst as [Hv _].
Qed.

Lemma captured_plain_reparsable v :
  captured v = true → plain v = true → reparsable v = true.
Proof.
  induction v as [n|op|sym|values IH|fn|key] using Value_nested_ind;
    cbn [captured plain reparsable]; try done.
  - unfold plain_number. by intros -> ->.
  - intros Hc Hp. apply forallb_true. apply forallb_true in Hc, Hp.
    induction IH as [|v l Hv _ IHl]; [done|].
    apply Forall_cons in Hc as [? ?]. apply Forall_cons in Hp as [? ?].
    constructor; auto.
Qed.

(** A Block of Operators, Numbers other than negative zero and NaN, and
    Blocks of such values is read back from its rendering. *)
Lemma reparsable_block_reads_back (values : list Value) :
  forallb reparsable values = true →
  ∃ text, serializeValue (Block values) = Some text ∧
          ∀ k, final_stack (run (1 + k) text) = Some [Block values].
Proof.
  intros Hall. exists (render (Block values)). split; [done|].
  intros k. rewrite run_words.
  rewrite (words_render (Block values)) by done.
  unfold final_stack, final_state. cbn [snd].
  by apply reparsable_block_runs.
Qed.

(** C9, amended: a Block captured from source round-trips when it holds,
    at every depth, no Symbol and no negative zero.  Serializing such a
    Block gives a text, and running that text, with any budget of at
    least 1, leaves exactly that Block, with the same values in the same
    order, on the operand stack. *)
Theorem captured_block_round_trips (values : list Value) :
  captured_from_source (Block values) →
  forallb plain values = true →
  ∃ text, serializeValue (Block values) = Some text ∧
          ∀ k, final_stack (run (1 + k) text) = Some [Block values].
Proof.
  intros Hc%captured_from_source_captured Hp.
  apply reparsable_block_reads_back.
  apply forallb_true. apply forallb_true in Hc, Hp.
  induction values as [|v l IHl]; [done|].
  apply Forall_cons in Hc as [? ?]. apply Forall_cons in Hp as [? ?].
  constructor; [by apply captured_plain_reparsable|auto].
Qed.

Lemma captured_block_round_trips_witness :
  ∃ text, serializeValue (Block sample_block) = Some text ∧
          ∀ k, final_stack (run (1 + k) text) = Some [Block sample_block].
Proof.
  apply (captured_block_round_trips sample_block).
  - exists "{ 1.5 foo { + { } 10 } -2e-7 }", 1%nat. vm_compute. reflexivity.
  - vm_compute. reflexivity.
Defined.
